(** * Parking log store: hash table of entry/exit records and ordered merge

    Shallow embedding of [timestamp.c], [log.c] and [hashtable.c].

    - [unsigned int] values are integers in [0, 2^32) with the wrap-around
      written out ([to_uint]); the [int] returned by [getSize] is obtained
      with [to_int].
    - C strings are the [string] of their characters before the NUL;
      [strcmp] is the byte-wise lexicographic comparison.
    - A chain of [Log] nodes linked through [next] and ending in [NULL] is the
      [list] of its nodes, head first; [NULL] is the empty chain.  Nodes are
      created by [newLog] with [next = NULL], and the chains of a table are
      disjoint, so relinking a node is removing it from one list and adding
      it to another.
    - The bucket array [Log** logs] is a [list] of chains; a table handle that
      may be [NULL] is an [option Hashtable].
    - [malloc] succeeds.
    - A loop over a 32-bit counter is run by [while_pow] at level 32, that is
      for at most [2^32] iterations: a loop whose whole state is one 32-bit
      word either leaves within that many iterations or never does. *)

From Stdlib Require Import ZArith QArith Bool String Ascii List Lia.
From Stdlib Require Import Permutation Sorted Znumtheory.
From Equations Require Import Equations.
Import ListNotations.
Local Open Scope Z_scope.

(** ** Machine integers *)

Definition to_uint (z : Z) : Z := z mod 2 ^ 32.

Definition to_int (z : Z) : Z :=
  let u := z mod 2 ^ 32 in if u <? 2 ^ 31 then u else u - 2 ^ 32.

(** ** Loops

    [while_pow body k s] runs [body] from state [s]: [inr r] is a [return r]
    or a loop exit, [inl s'] is the state of the next iteration.  Level
    [S k] runs level [k] twice, so level [k] gives [2 ^ k] iterations. *)

Fixpoint while_pow {St Res : Type} (body : St -> St + Res) (k : nat) (s : St)
  : St + Res :=
  match k with
  | O => body s
  | S k' =>
      match while_pow body k' s with
      | inl s' => while_pow body k' s'
      | inr r => inr r
      end
  end.

Arguments while_pow {St Res} body k s : simpl never.

(** ** [timestamp.c] *)

Record Timestamp : Type := newTimestamp
  { day : Z; month : Z; year : Z; hour : Z; minute : Z }.

Definition INITIAL_TIMESTAMP : Timestamp := newTimestamp 0 0 0 0 0.

Definition compareDate (t1 t2 : Timestamp) : Z :=
  if negb (year t1 =? year t2) then (if year t1 <? year t2 then -1 else 1)
  else if negb (month t1 =? month t2) then
    (if month t1 <? month t2 then -1 else 1)
  else if negb (day t1 =? day t2) then (if day t1 <? day t2 then -1 else 1)
  else 0.

Definition compareTimestamps (t1 t2 : Timestamp) : Z :=
  let dateComparison := compareDate t1 t2 in
  if negb (dateComparison =? 0) then dateComparison
  else if negb (hour t1 =? hour t2) then
    (if hour t1 <? hour t2 then -1 else 1)
  else if negb (minute t1 =? minute t2) then
    (if minute t1 <? minute t2 then -1 else 1)
  else 0.

Definition isInitialTimestamp (t : Timestamp) : bool :=
  compareTimestamps t INITIAL_TIMESTAMP =? 0.

(** ** [log.c] *)

(** The sign of [strcmp]: bytes are compared as [unsigned char]. *)
Definition strcmp (s1 s2 : string) : Z :=
  match String.compare s1 s2 with
  | Lt => -1
  | Eq => 0
  | Gt => 1
  end.

Record Log : Type := mkLog
  { plate : string;
    parkName : string;
    entryTimestamp : Timestamp;
    exitTimestamp : Timestamp }.

Definition newLog (plate parkName : string) : Log :=
  {| plate := plate;
     parkName := parkName;
     entryTimestamp := INITIAL_TIMESTAMP;
     exitTimestamp := INITIAL_TIMESTAMP |}.

Definition getLogParkName (log : Log) : string := parkName log.
Definition getLogPlate (log : Log) : string := plate log.
Definition getEntryTimestamp (log : Log) : Timestamp := entryTimestamp log.
Definition getExitTimestamp (log : Log) : Timestamp := exitTimestamp log.

(** The test of [merge]: does the head of [list1] go first? *)
Definition merge_takes_first (sortBy : ascii) (log1 log2 : Log) : bool :=
  let parkNameCmp := strcmp (getLogParkName log1) (getLogParkName log2) in
  let timestampComparison :=
    if Ascii.eqb sortBy "e" then
      compareTimestamps (getEntryTimestamp log1) (getEntryTimestamp log2) =? -1
    else
      compareTimestamps (getExitTimestamp log1) (getExitTimestamp log2) =? -1
  in
  (parkNameCmp <? 0) || ((parkNameCmp =? 0) && timestampComparison).

Fixpoint merge (sortBy : ascii) (list1 : list Log) : list Log -> list Log :=
  fix merge_list2 (list2 : list Log) : list Log :=
    match list1, list2 with
    | [], _ => list2
    | _, [] => list1
    | log1 :: next1, log2 :: next2 =>
        if merge_takes_first sortBy log1 log2
        then log1 :: merge sortBy next1 list2
        else log2 :: merge_list2 next2
    end.

(** [split_walk fast slow] follows the two pointers of [split]; it returns
    the nodes from [slow] up to the node where [slow] stops, and the chain
    after it. *)
Fixpoint split_walk (fast slow : list Log) : list Log * list Log :=
  match slow with
  | [] => ([], [])
  | s :: slow_next =>
      match fast with
      | [] => ([s], slow_next)
      | _ :: fast1 =>
          match fast1 with
          | [] => ([s], slow_next)
          | _ :: fast2 =>
              let (first, second) := split_walk fast2 slow_next in
              (s :: first, second)
          end
      end
  end.

Definition split (head : list Log) : list Log * list Log :=
  split_walk (tl head) head.

Lemma split_walk_spec : forall slow fast first second,
  split_walk fast slow = (first, second) ->
  (length fast < length slow)%nat ->
  slow = first ++ second /\ length first = (length fast / 2 + 1)%nat.
Proof.
  induction slow as [|s slow IH]; intros fast first second H Hlen.
  - simpl in Hlen. lia.
  - destruct fast as [|f0 [|f1 fast2]]; simpl in H.
    + inversion H; subst. split; reflexivity.
    + inversion H; subst. split; reflexivity.
    + destruct (split_walk fast2 slow) as [a b] eqn:E.
      inversion H; subst. destruct (IH _ _ _ E) as [-> Hl].
      * simpl in Hlen. lia.
      * split; [reflexivity|]. simpl length. rewrite Hl.
        change (S (S (length fast2))) with (2 + length fast2)%nat.
        replace (2 + length fast2)%nat with (length fast2 + 1 * 2)%nat by lia.
        rewrite Nat.div_add by lia. lia.
Qed.

Lemma split_spec x y l :
  let n := length (x :: y :: l) in
  fst (split (x :: y :: l)) ++ snd (split (x :: y :: l)) = x :: y :: l /\
  length (fst (split (x :: y :: l))) = ((n - 1) / 2 + 1)%nat.
Proof.
  intros n. unfold split.
  destruct (split_walk (tl (x :: y :: l)) (x :: y :: l)) as [a b] eqn:E.
  destruct (split_walk_spec _ _ _ _ E) as [H1 H2]; [simpl; lia|].
  simpl fst. simpl snd. split; [symmetry; exact H1|].
  rewrite H2. subst n. simpl length. rewrite Nat.sub_succ, Nat.sub_0_r.
  reflexivity.
Qed.

Lemma split_shorter x y l :
  (length (fst (split (x :: y :: l))) < length (x :: y :: l))%nat /\
  (length (snd (split (x :: y :: l))) < length (x :: y :: l))%nat.
Proof.
  destruct (split_spec x y l) as [H1 H2].
  assert (H3 := f_equal (@length Log) H1). rewrite length_app in H3.
  simpl length in *.
  assert ((S (S (length l)) - 1) / 2 < S (length l))%nat.
  { apply Nat.Div0.div_lt_upper_bound. lia. }
  lia.
Qed.

Equations? mergeSort (sortBy : ascii) (head : list Log) : list Log
  by wf (length head) lt :=
  mergeSort sortBy [] := [];
  mergeSort sortBy [x] := [x];
  mergeSort sortBy (x :: y :: l) :=
    merge sortBy (mergeSort sortBy (fst (split (x :: y :: l))))
                 (mergeSort sortBy (snd (split (x :: y :: l)))).
Proof.
  - apply (split_shorter x y l).
  - apply (split_shorter x y l).
Qed.

(** ** [hashtable.c] *)

Definition DJB2_CONSTANT : Z := 5381.
Definition INITIAL_SIZE : Z := 53.
Definition LOAD_FACTOR_THRESHOLD : Q := 3 # 4.

(** Value of a plain [char] in an expression ([char] is signed here; the
    characters of a plate are ASCII, where signedness plays no role). *)
Definition char_to_int (c : ascii) : Z :=
  let n := Z.of_N (N_of_ascii c) in if n <? 128 then n else n - 256.

Fixpoint plateHash_loop (hash : Z) (ptr : string) : Z :=
  match ptr with
  | EmptyString => hash
  | String c rest =>
      plateHash_loop
        (if negb (Ascii.eqb c "-")
         then to_uint (to_uint (to_uint (Z.shiftl hash 5) + hash) + char_to_int c)
         else hash)
        rest
  end.

Definition plateHash (plate : string) (size : Z) : Z :=
  plateHash_loop DJB2_CONSTANT plate mod size.

Record Hashtable : Type := mkHashtable
  { logs : list (list Log);
    size : Z;
    numElements : Z }.

Definition newHashtable : Hashtable :=
  {| logs := repeat [] (Z.to_nat INITIAL_SIZE);
     size := INITIAL_SIZE;
     numElements := 0 |}.

Definition getSize (ht : Hashtable) : Z := to_int (size ht).

Definition getLogAtIndex (ht : option Hashtable) (index : Z) : list Log :=
  match ht with
  | None => []
  | Some ht =>
      if size ht <=? index then [] else nth (Z.to_nat index) (logs ht) []
  end.

Fixpoint scan_open (plate : string) (currentLog : list Log) : option Log :=
  match currentLog with
  | [] => None
  | log :: next =>
      if (strcmp (getLogPlate log) plate =? 0)
         && isInitialTimestamp (getExitTimestamp log)
      then Some log
      else scan_open plate next
  end.

Definition getPlateLastLogWithoutExit (ht : Hashtable) (plate : string)
  : option Log :=
  scan_open plate
    (getLogAtIndex (Some ht) (plateHash plate (to_uint (getSize ht)))).

Definition isPrime_body (num i : Z) : Z + bool :=
  if to_uint (i * i) <=? num then
    if (num mod i =? 0) || (num mod to_uint (i + 2) =? 0) then inr false
    else inl (to_uint (i + 6))
  else inr true.

(** The last branch is never taken: [isPrime_loop_total]. *)
Definition isPrime (num : Z) : bool :=
  if num <=? 1 then false
  else if num <=? 3 then true
  else if (num mod 2 =? 0) || (num mod 3 =? 0) then false
  else match while_pow (isPrime_body num) 32 5 with
       | inr b => b
       | inl _ => false
       end.

Definition nearestPrime_body (n : Z) : Z + Z :=
  if isPrime n then inr n else inl (to_uint (n + 2)).

(** [forced_odd n] is [n] after "make sure n is odd". *)
Definition forced_odd (n : Z) : Z :=
  if n mod 2 =? 0 then to_uint (n + 1) else n.

(** The last branch is never taken: [nearestPrime_loop_total]. *)
Definition nearestPrime (n : Z) : Z :=
  if n <=? 1 then 2
  else
    match while_pow nearestPrime_body 32 (forced_odd n) with
    | inr p => p
    | inl _ => 0
    end.

(** [logs[index] = chain]. *)
Fixpoint store {A : Type} (index : nat) (x : A) (l : list A) : list A :=
  match l with
  | [] => []
  | y :: t =>
      match index with
      | O => x :: t
      | S i => y :: store i x t
      end
  end.

(** One turn of the inner loop of [resizeHashtable]: [log] becomes the head
    of its new bucket. *)
Definition rehash_log (newSize : Z) (newLogs : list (list Log)) (log : Log)
  : list (list Log) :=
  let newIndex := Z.to_nat (plateHash (getLogPlate log) newSize) in
  store newIndex (log :: nth newIndex newLogs []) newLogs.

Definition rehash_chain (newSize : Z) (newLogs : list (list Log))
  (chain : list Log) : list (list Log) :=
  fold_left (rehash_log newSize) chain newLogs.

Definition rehash_buckets (ht : Hashtable) (newSize : Z)
  (newLogs : list (list Log)) (indexes : list nat) : list (list Log) :=
  fold_left
    (fun newLogs i =>
       rehash_chain newSize newLogs (getLogAtIndex (Some ht) (Z.of_nat i)))
    indexes newLogs.

Definition resizeHashtable (ht : Hashtable) : Hashtable :=
  let newSize := nearestPrime (to_uint (to_uint (size ht * 2) + 1)) in
  let newLogs := repeat [] (Z.to_nat newSize) in
  {| logs := rehash_buckets ht newSize newLogs (seq 0 (Z.to_nat (size ht)));
     size := newSize;
     numElements := numElements ht |}.

(** [(double)numElements / size > LOAD_FACTOR_THRESHOLD].  Both operands
    are below [2^32], the quotient is correctly rounded and 0.75 is a
    [double], so the test agrees with the comparison of the exact quotient. *)
Definition load_factor_exceeded (numElements size : Z) : bool :=
  negb (Qle_bool (inject_Z numElements / inject_Z size) LOAD_FACTOR_THRESHOLD).

Definition addLogToTable (ht : Hashtable) (log : Log) : Hashtable :=
  let ht :=
    {| logs := logs ht; size := size ht;
       numElements := to_uint (numElements ht + 1) |} in
  let index := plateHash (getLogPlate log) (to_uint (getSize ht)) in
  let currentLog := getLogAtIndex (Some ht) index in
  match currentLog with
  | [] =>
      {| logs := store (Z.to_nat index) [log] (logs ht);
         size := size ht; numElements := numElements ht |}
  | _ :: _ =>
      let ht :=
        {| logs := store (Z.to_nat index) (currentLog ++ [log]) (logs ht);
           size := size ht; numElements := numElements ht |} in
      if load_factor_exceeded (numElements ht) (getSize ht)
      then resizeHashtable ht
      else ht
  end.

(** ** Vocabulary of the statements *)

(** Every record of the table, bucket after bucket, each chain head first. *)
Definition all_logs (ht : Hashtable) : list Log := concat (logs ht).

Definition chain_at (ht : Hashtable) (index : Z) : list Log :=
  getLogAtIndex (Some ht) index.

(** The table after inserting [records] in order into a new table. *)
Definition insert_all (records : list Log) : Hashtable :=
  fold_left addLogToTable records newHashtable.

Definition is_open (plate : string) (log : Log) : bool :=
  String.eqb (getLogPlate log) plate
  && isInitialTimestamp (getExitTimestamp log).

(** A record reachable from bucket [i] hashes to [i] under the current
    bucket count. *)
Definition buckets_consistent (ht : Hashtable) : Prop :=
  forall i log,
    0 <= i -> In log (chain_at ht i) ->
    plateHash (getLogPlate log) (size ht) = i.

(** A table as the functions of [hashtable.c] build it: [size] is a positive
    [unsigned int], the array holds [size] buckets, and the buckets are
    consistent with the hash. *)
Definition table_wf (ht : Hashtable) : Prop :=
  0 < size ht < 2 ^ 32 /\
  length (logs ht) = Z.to_nat (size ht) /\
  buckets_consistent ht.

(** Does [log] go to bucket [j] of an array of [newSize] buckets? *)
Definition lands_in (newSize : Z) (j : Z) (log : Log) : bool :=
  plateHash (getLogPlate log) newSize =? j.

(** [a] comes before [b] in [chain]. *)
Definition precedes (a b : Log) (chain : list Log) : Prop :=
  exists l1 l2 l3, chain = l1 ++ a :: l2 ++ b :: l3.

(** The open record of [plate] that was inserted last. *)
Definition most_recent_open (plate : string) (records : list Log)
  : option Log :=
  find (is_open plate) (rev records).

Definition load_factor (ht : Hashtable) : Q :=
  inject_Z (numElements ht) / inject_Z (size ht).

(** The table after the head-insertion path of [addLogToTable]. *)
Definition head_inserted (ht : Hashtable) (log : Log) : Hashtable :=
  let index := plateHash (getLogPlate log) (size ht) in
  {| logs := store (Z.to_nat index) [log] (logs ht);
     size := size ht;
     numElements := to_uint (numElements ht + 1) |}.

(** The table between the two steps of the append path of
    [addLogToTable]: [log] is linked at the end of its chain and the count
    is incremented, the load factor is not yet tested. *)
Definition appended (ht : Hashtable) (log : Log) : Hashtable :=
  let index := plateHash (getLogPlate log) (size ht) in
  {| logs := store (Z.to_nat index) (chain_at ht index ++ [log]) (logs ht);
     size := size ht;
     numElements := to_uint (numElements ht + 1) |}.

(** The order [merge] implements, and its sort key. *)
Definition sort_key (sortBy : ascii) (log : Log) : string * Timestamp :=
  (getLogParkName log,
   if Ascii.eqb sortBy "e" then getEntryTimestamp log
   else getExitTimestamp log).

Definition goes_before (sortBy : ascii) (log1 log2 : Log) : Prop :=
  merge_takes_first sortBy log1 log2 = true.

Definition not_after (sortBy : ascii) (log1 log2 : Log) : Prop :=
  merge_takes_first sortBy log2 log1 = false.

(** The order of the "exit" key as the specification words it: exit
    timestamp first, then facility name. *)
Definition exit_then_park_le (log1 log2 : Log) : Prop :=
  let c := compareTimestamps (getExitTimestamp log1) (getExitTimestamp log2) in
  c = -1 \/
  (c = 0 /\ strcmp (getLogParkName log1) (getLogParkName log2) <= 0).

(** Lexicographic order on (year, month, day, hour, minute). *)
Definition ts_lt (t1 t2 : Timestamp) : Prop :=
  year t1 < year t2 \/
  (year t1 = year t2 /\
   (month t1 < month t2 \/
    (month t1 = month t2 /\
     (day t1 < day t2 \/
      (day t1 = day t2 /\
       (hour t1 < hour t2 \/
        (hour t1 = hour t2 /\ minute t1 < minute t2))))))).

(** ** Invariants and measures of the two prime loops *)

Definition odd32 (i : Z) : Prop := 0 <= i < 2 ^ 32 /\ i mod 2 = 1.

Definition isPrime_mu (num i : Z) : Z :=
  (((num - i) mod 2 ^ 32) / 2 * 715827883) mod 2 ^ 31.

Definition isPrime_inv (num i : Z) : Prop :=
  5 <= i <= 65531 /\ i mod 6 = 5 /\
  forall j, 5 <= j < i -> j mod 6 = 5 ->
            num mod j <> 0 /\ num mod (j + 2) <> 0.

Definition scan_inv (P n0 m : Z) : Prop :=
  n0 <= m <= P /\ m mod 2 = 1 /\
  forall j, n0 <= j < m -> j mod 2 = 1 -> isPrime j = false.

(** ** Concrete records used by the examples *)

(** A record as [registerEntryExit] inserts it: [newLog], then the entry
    timestamp is copied in. *)
Definition entry_record (plate parkName : string) (entry : Timestamp) : Log :=
  {| plate := plate; parkName := parkName;
     entryTimestamp := entry; exitTimestamp := INITIAL_TIMESTAMP |}.

Definition at_time (h m : Z) : Timestamp := newTimestamp 1 1 2024 h m.

Definition visit_B : Log :=
  mkLog "AA-00-00" "B" (at_time 8 0) (at_time 10 0).
Definition visit_A : Log :=
  mkLog "AA-00-01" "A" (at_time 9 0) (at_time 11 0).

Definition tie_1 : Log := mkLog "AA-00-00" "A" (at_time 8 0) (at_time 10 0).
Definition tie_2 : Log := mkLog "BB-11-11" "A" (at_time 9 0) (at_time 10 0).

Definition open_1 : Log := entry_record "AA-00-00" "A" (at_time 8 0).
Definition open_2 : Log := entry_record "AA-00-00" "A" (at_time 9 0).

(** [n] successive entries of the same plate. *)
Definition same_plate_entries (n : nat) : list Log :=
  map (fun k => entry_record "AA-00-00" "A" (at_time 0 (Z.of_nat k)))
      (seq 1 n).

(** A table of 53 buckets whose 39 records are in one chain, and the entry
    whose insertion makes it grow. *)
Definition one_chain_table : Hashtable := insert_all (same_plate_entries 39).
Definition growing_entry : Log :=
  entry_record "AA-00-00" "A" (at_time 2 0).

(** One plate for each bucket of a 53-bucket table other than bucket 24,
    the bucket of "AA-00-00". *)
Definition other_bucket_plates : list string :=
  ["AA-00-43"; "AA-00-44"; "AA-00-45"; "AA-00-46"; "AA-00-10";
   "AA-00-11"; "AA-00-12"; "AA-00-13"; "AA-00-14"; "AA-00-15";
   "AA-00-16"; "AA-00-17"; "AA-00-18"; "AA-00-19"; "AA-00-64";
   "AA-00-65"; "AA-00-66"; "AA-00-30"; "AA-00-31"; "AA-00-32";
   "AA-00-33"; "AA-00-34"; "AA-00-35"; "AA-00-36"; "AA-00-01";
   "AA-00-02"; "AA-00-03"; "AA-00-04"; "AA-00-05"; "AA-00-06";
   "AA-00-07"; "AA-00-08"; "AA-00-09"; "AA-00-54"; "AA-00-55";
   "AA-00-56"; "AA-00-20"; "AA-00-21"; "AA-00-22"; "AA-00-23";
   "AA-00-24"; "AA-00-25"; "AA-00-26"; "AA-00-27"; "AA-00-28";
   "AA-00-29"; "AA-00-74"; "AA-00-75"; "AA-00-76"; "AA-00-40";
   "AA-00-41"; "AA-00-42"]%string.

Definition other_bucket_entries : list Log :=
  map (fun p => entry_record p "A" (at_time 1 0)) other_bucket_plates.

(** ** [timestamp.c], continued *)

Definition DAYS_IN_MONTH : list Z :=
  [31; 28; 31; 30; 31; 30; 31; 31; 30; 31; 30; 31].
Definition DAYS_IN_YEAR : Z := 365.
Definition MINUTES_IN_HOUR : Z := 60.

(** [*dest] after [copyTimestamp(dest, source)]. *)
Definition copyTimestamp (dest source : Timestamp) : Timestamp :=
  {| day := day source; month := month source; year := year source;
     hour := hour source; minute := minute source |}.

Definition validTimestamp (t : Timestamp) : bool :=
  if (month t <? 1) || (month t >? 12) then false
  else
    let daysInMonth := nth (Z.to_nat (month t - 1)) DAYS_IN_MONTH 0 in
    if (day t <? 1) || (day t >? daysInMonth) then false
    else if (hour t <? 0) || (hour t >? 23) then false
    else if (minute t <? 0) || (minute t >? 59) then false
    else true.

(** The [int] arithmetic of [timestampToMinutes] and [minutesDifference]:
    the result of every operation is reduced to 32 bits in two's
    complement, which is what the compiled program computes when a result
    leaves the range of [int] (ISO C leaves signed overflow undefined). *)
Definition int_add (a b : Z) : Z := to_int (a + b).
Definition int_sub (a b : Z) : Z := to_int (a - b).
Definition int_mul (a b : Z) : Z := to_int (a * b).

(** [MINUTES_IN_DAY] expands to [24*60] without parentheses, so
    [days * MINUTES_IN_DAY] is [(days * 24) * 60].  The month loop reads
    [DAYS_IN_MONTH[m - 1]] for [m = 1 .. month - 1]. *)
Definition timestampToMinutes (t : Timestamp) : Z :=
  let days :=
    int_sub (int_add (int_mul (int_sub (year t) 1) DAYS_IN_YEAR) (day t)) 1 in
  let days :=
    fold_left
      (fun days m => int_add days (nth (Z.to_nat (m - 1)) DAYS_IN_MONTH 0))
      (map Z.of_nat (seq 1 (Z.to_nat (month t - 1)))) days in
  int_add
    (int_add (int_mul (int_mul days 24) 60) (int_mul (hour t) MINUTES_IN_HOUR))
    (minute t).

(** The days of the months before month [m]: what the month loop of
    [timestampToMinutes] adds when nothing wraps. *)
Definition days_before_month (m : Z) : Z :=
  fold_left (fun days m => days + nth (Z.to_nat (m - 1)) DAYS_IN_MONTH 0)
    (map Z.of_nat (seq 1 (Z.to_nat (m - 1)))) 0.


Definition minutesDifference (t1 t2 : Timestamp) : Z :=
  int_sub (timestampToMinutes t2) (timestampToMinutes t1).

(** ** [plate.c] *)

Definition PLATE_LENGTH : Z := 9.

Definition isUpperLetter (c : ascii) : bool :=
  (char_to_int "A" <=? char_to_int c) && (char_to_int c <=? char_to_int "Z").

Definition isDigit (c : ascii) : bool :=
  (char_to_int "0" <=? char_to_int c) && (char_to_int c <=? char_to_int "9").

(** [plate[i]]: a character of the string or, at its end, the terminating
    NUL.  No read past the terminator decides a result of [validPlate]:
    a string shorter than 8 is rejected at its terminator at the latest. *)
Definition plate_char (plate : string) (i : nat) : ascii :=
  match String.get i plate with
  | Some c => c
  | None => zero
  end.

Fixpoint validPlate_pairs (plate : string) (indexes : list nat)
  (numberPairs letterPairs : Z) : bool :=
  match indexes with
  | [] => (numberPairs >? 0) && (letterPairs >? 0)
  | i :: rest =>
      if isDigit (plate_char plate i) && isDigit (plate_char plate (i + 1))
      then validPlate_pairs plate rest (numberPairs + 1) letterPairs
      else if isUpperLetter (plate_char plate i)
              && isUpperLetter (plate_char plate (i + 1))
      then validPlate_pairs plate rest numberPairs (letterPairs + 1)
      else false
  end.

(** The loop runs for [i = 0, 3, 6], the values below [PLATE_LENGTH - 1]. *)
Definition validPlate (plate : string) : bool :=
  if negb (Ascii.eqb (plate_char plate 2) "-")
     || negb (Ascii.eqb (plate_char plate 5) "-")
  then false
  else validPlate_pairs plate [0; 3; 6]%nat 0 0.

(** The pair of characters at [i] is a pair of digits, or a pair of
    uppercase letters. *)
Definition digit_pair (plate : string) (i : nat) : bool :=
  isDigit (plate_char plate i) && isDigit (plate_char plate (i + 1)).

Definition letter_pair (plate : string) (i : nat) : bool :=
  isUpperLetter (plate_char plate i)
  && isUpperLetter (plate_char plate (i + 1)).

(** ** [log.c], continued *)

(** [*dest] after [copyLogTimestamps(dest, source)]. *)
Definition copyLogTimestamps (dest source : Log) : Log :=
  {| plate := plate dest;
     parkName := parkName dest;
     entryTimestamp :=
       copyTimestamp (entryTimestamp dest) (entryTimestamp source);
     exitTimestamp :=
       copyTimestamp (exitTimestamp dest) (exitTimestamp source) |}.

(** The result points at the last node: it is the chain from that node
    on, [NULL] for the empty chain. *)
Fixpoint findLastLog (log : list Log) : list Log :=
  match log with
  | [] => []
  | _ :: next =>
      match next with
      | [] => log
      | _ :: _ => findLastLog next
      end
  end.

(** The chain [head] after [findLastLog(head)->next = log]. *)
Fixpoint set_next_of_last (head log : list Log) : list Log :=
  match head with
  | [] => []
  | x :: next =>
      match next with
      | [] => x :: log
      | _ :: _ => x :: set_next_of_last next log
      end
  end.

(** [*head] after [addLogtoLog(head, log)]; [log] is the chain that starts
    at the node added, a single node when it comes from [newLog]. *)
Definition addLogtoLog (head log : list Log) : list Log :=
  match head with
  | [] => log
  | _ :: _ => set_next_of_last head log
  end.

(** The order of the "entry" key as [merge] documents it: park name first,
    then entry timestamp. *)
Definition park_then_entry_le (log1 log2 : Log) : Prop :=
  strcmp (getLogParkName log1) (getLogParkName log2) < 0 \/
  (strcmp (getLogParkName log1) (getLogParkName log2) = 0 /\
   compareTimestamps (getEntryTimestamp log1) (getEntryTimestamp log2) <> 1).

Definition exit_le (log1 log2 : Log) : Prop :=
  compareTimestamps (getExitTimestamp log1) (getExitTimestamp log2) <> 1.

(** ** [tariff.c] *)

Definition MAXIMUM_FIRST_HOUR_QUARTERS : Z := 4.
Definition QUARTER_HOUR_TO_MINUTES : Z := 15.

(** The three counting loops of [calculateParkingCost], each on its
    counter and [minutesDiff]. *)
Definition days_body (s : Z * Z) : Z * Z + Z * Z :=
  let (days, minutesDiff) := s in
  if minutesDiff >=? 24 * 60 then inl (days + 1, minutesDiff - 24 * 60)
  else inr s.

Definition first_hour_body (s : Z * Z) : Z * Z + Z * Z :=
  let (quarterHoursFirst, minutesDiff) := s in
  if (minutesDiff >? 0) && (quarterHoursFirst <? MAXIMUM_FIRST_HOUR_QUARTERS)
  then inl (quarterHoursFirst + 1, minutesDiff - QUARTER_HOUR_TO_MINUTES)
  else inr s.

Definition after_first_hour_body (s : Z * Z) : Z * Z + Z * Z :=
  let (quarterHoursAfterFirst, minutesDiff) := s in
  if minutesDiff >? 0
  then inl (quarterHoursAfterFirst + 1, minutesDiff - QUARTER_HOUR_TO_MINUTES)
  else inr s.

(** The state in which a loop is left. *)
Definition loop_exit {St : Type} (r : St + St) : St :=
  match r with inl s => s | inr s => s end.

(** [(days, quarterHoursFirst, quarterHoursAfterFirst)] after the three
    loops. *)
Definition charged_periods (minutesDiff : Z) : Z * Z * Z :=
  let (days, minutesDiff) :=
    loop_exit (while_pow days_body 32 (0, minutesDiff)) in
  let (quarterHoursFirst, minutesDiff) :=
    loop_exit (while_pow first_hour_body 32 (0, minutesDiff)) in
  let (quarterHoursAfterFirst, _) :=
    loop_exit (while_pow after_first_hour_body 32 (0, minutesDiff)) in
  (days, quarterHoursFirst, quarterHoursAfterFirst).

(** The chain after [copyTimestamp(getExitTimestamp(log), timestamp)] on
    the node [log] that the scan of [getPlateLastLogWithoutExit] returns:
    the first node of the chain with the plate and no exit time. *)
Fixpoint set_exit_of_open (plate : string) (timestamp : Timestamp)
  (currentLog : list Log) : list Log :=
  match currentLog with
  | [] => []
  | log :: next =>
      if (strcmp (getLogPlate log) plate =? 0)
         && isInitialTimestamp (getExitTimestamp log)
      then {| plate := getLogPlate log;
              parkName := parkName log;
              entryTimestamp := entryTimestamp log;
              exitTimestamp := copyTimestamp (exitTimestamp log) timestamp |}
           :: next
      else log :: set_exit_of_open plate timestamp next
  end.

(** The table after the exit time of the open record of [plate] is set:
    the nodes are updated in place, the bucket array is untouched. *)
Definition register_exit_time (ht : Hashtable) (plate : string)
  (timestamp : Timestamp) : Hashtable :=
  let index := plateHash plate (to_uint (getSize ht)) in
  {| logs :=
       store (Z.to_nat index)
         (set_exit_of_open plate timestamp (getLogAtIndex (Some ht) index))
         (logs ht);
     size := size ht;
     numElements := numElements ht |}.

(** The copy that [getPlateLogs] and [showParkBilling] add to their
    result for [currentLog]. *)
Definition copy_for_result (plate parkName : string) (currentLog : Log)
  : Log :=
  copyLogTimestamps (newLog plate parkName) currentLog.

(** Does [showParkBilling] keep [currentLog]? *)
Definition billing_selects (timestamp : Timestamp) (currentLog : Log) : bool :=
  let exitTimestamp := getExitTimestamp currentLog in
  negb (isInitialTimestamp exitTimestamp)
  && (isInitialTimestamp timestamp
      || (compareDate exitTimestamp timestamp =? 0)).

(** The array [parkNames] after the body of the inner loop of
    [printParksAlphabetically] at [j]. *)
Definition bubble_step (parkNames : list string) (j : nat) : list string :=
  if strcmp (nth j parkNames EmptyString) (nth (j + 1) parkNames EmptyString) >? 0
  then
    let temp := nth j parkNames EmptyString in
    let parkNames := store j (nth (j + 1) parkNames EmptyString) parkNames in
    store (j + 1) temp parkNames
  else parkNames.

(** ** [park.c]

    The type [double] and its arithmetic are not embedded: they are
    parameters of the definitions that touch a tariff.  A function that
    prints and changes the state is the change of state; of the functions
    that only print, [printParksAlphabetically] and [printFullBillLog] are
    the list of the values they print, line by line. *)

Section Doubles.
Context {double : Type}.
Variable double_of_int : Z -> double.
Variables dmul dadd : double -> double -> double.
(** [dlt a b] is [a < b]. *)
Variable dlt : double -> double -> bool.

Record Tariff : Type := newTariff
  { value15 : double;
    value15after1 : double;
    valueMaxDaily : double }.

Definition validTariff (tariff : Tariff) : bool :=
  dlt (value15 tariff) (value15after1 tariff)
  && dlt (value15after1 tariff) (valueMaxDaily tariff)
  && dlt (double_of_int 0) (value15 tariff).

Definition calculateParkingCost (tariff : Tariff)
  (entryTimestamp exitTimestamp : Timestamp) : double :=
  let minutesDiff := minutesDifference entryTimestamp exitTimestamp in
  let '(days, quarterHoursFirst, quarterHoursAfterFirst) :=
    charged_periods minutesDiff in
  let totalQuartersPayment :=
    dadd (dmul (value15 tariff) (double_of_int quarterHoursFirst))
         (dmul (value15after1 tariff) (double_of_int quarterHoursAfterFirst)) in
  let totalQuartersPayment :=
    if dlt (valueMaxDaily tariff) totalQuartersPayment
    then valueMaxDaily tariff
    else totalQuartersPayment in
  dadd totalQuartersPayment (dmul (valueMaxDaily tariff) (double_of_int days)).

Definition MAX_PARKS : Z := 20.

(** The list of parks linked through [next] is the [list] of its nodes.
    The [int] fields [capacity] and [availableSlots], and the [int]
    counters of [charged_periods] and [totalParks], are written without
    wrap-around (signed overflow is undefined in C). *)
Record Park : Type := mkPark
  { name : string;
    capacity : Z;
    availableSlots : Z;
    tariff : Tariff;
    logTable : Hashtable }.

Definition newPark (name : string) (capacity : Z) (tariff : Tariff) : Park :=
  {| name := name;
     capacity := capacity;
     availableSlots := capacity;
     tariff := tariff;
     logTable := newHashtable |}.

Definition getParkName (park : Park) : string := name park.
Definition getAvailableSpots (park : Park) : Z := availableSlots park.
Definition getCapacity (park : Park) : Z := capacity park.
Definition getTariff (park : Park) : Tariff := tariff park.
Definition getTable (park : Park) : Hashtable := logTable park.

Fixpoint totalParks_from (count : Z) (headPark : list Park) : Z :=
  match headPark with
  | [] => count
  | _ :: next => totalParks_from (count + 1) next
  end.

Definition totalParks (headPark : list Park) : Z := totalParks_from 0 headPark.

Fixpoint getPark (headPark : list Park) (parkName : string) : option Park :=
  match headPark with
  | [] => None
  | park :: next =>
      if strcmp parkName (getParkName park) =? 0 then Some park
      else getPark next parkName
  end.

(** The list from [currentPark] on after the loop of [removePark], and
    what the loop returns. *)
Fixpoint removePark_after (currentPark : Park) (next : list Park)
  (parkName : string) : list Park * bool :=
  match next with
  | [] => ([currentPark], false)
  | nextPark :: rest =>
      if strcmp (getParkName nextPark) parkName =? 0
      then (currentPark :: rest, true)
      else
        let (l, r) := removePark_after nextPark rest parkName in
        (currentPark :: l, r)
  end.

(** The list [headPark] and the result after [removePark(headPark, parkName)]. *)
Definition removePark (headPark : list Park) (parkName : string)
  : list Park * bool :=
  match getPark headPark parkName with
  | None => (headPark, false)
  | Some _ =>
      match headPark with
      | [] => (headPark, false)
      | park :: next =>
          if strcmp (getParkName park) parkName =? 0 then (next, true)
          else removePark_after park next parkName
      end
  end.

(** The list [headPark] after [findLastPark(headPark)->next = park]. *)
Fixpoint set_next_of_last_park (headPark : list Park) (park : Park)
  : list Park :=
  match headPark with
  | [] => []
  | x :: next =>
      match next with
      | [] => [x; park]
      | _ :: _ => x :: set_next_of_last_park next park
      end
  end.

(** The list [headPark] and the result after [addPark(headPark, park)]. *)
Definition addPark (headPark : list Park) (park : Park)
  : list Park * bool :=
  match getPark headPark (name park) with
  | Some _ => (headPark, false)
  | None =>
      let isCapacityValid := getCapacity park >? 0 in
      let isTariffValid := validTariff (getTariff park) in
      let isMaxParksReached := totalParks headPark >=? MAX_PARKS in
      if negb isCapacityValid || negb isTariffValid || isMaxParksReached
      then (headPark, false)
      else
        match headPark with
        | [] => ([park], true)
        | _ :: _ => (set_next_of_last_park headPark park, true)
        end
  end.

Definition plateInPark (park : Park) (plate : string) : bool :=
  match getPlateLastLogWithoutExit (getTable park) plate with
  | Some _ => true
  | None => false
  end.

Fixpoint plateInAnyPark (headPark : list Park) (plate : string) : bool :=
  match headPark with
  | [] => false
  | park :: next =>
      if plateInPark park plate then true else plateInAnyPark next plate
  end.


(** The lines [printParksAlphabetically] prints: the array of the names,
    in the order of the list, after the two nested loops. *)
Definition printParksAlphabetically (headPark : list Park) : list string :=
  let count := totalParks headPark in
  let parkNames := map getParkName headPark in
  fold_left
    (fun parkNames i =>
       fold_left bubble_step
         (seq 0 (Z.to_nat (count - Z.of_nat i - 1))) parkNames)
    (seq 0 (Z.to_nat (count - 1))) parkNames.

(** The park after [registerEntryExit(park, plate, timestamp)]. *)
Definition registerEntryExit (park : Park) (plate : string)
  (timestamp : Timestamp) : Park :=
  if plateInPark park plate then
    {| name := name park;
       capacity := capacity park;
       availableSlots := availableSlots park + 1;
       tariff := tariff park;
       logTable := register_exit_time (getTable park) plate timestamp |}
  else
    let newLogEntry := newLog plate (getParkName park) in
    let newLogEntry :=
      {| plate := getLogPlate newLogEntry;
         parkName := getLogParkName newLogEntry;
         entryTimestamp :=
           copyTimestamp (getEntryTimestamp newLogEntry) timestamp;
         exitTimestamp := exitTimestamp newLogEntry |} in
    {| name := name park;
       capacity := capacity park;
       availableSlots := availableSlots park - 1;
       tariff := tariff park;
       logTable := addLogToTable (getTable park) newLogEntry |}.

(** The inner loop of [getPlateLogs] on the chain of one park. *)
Definition collect_plate_logs (plate parkName : string)
  (plateLogs chain : list Log) : list Log :=
  fold_left
    (fun plateLogs currentLog =>
       if strcmp (getLogPlate currentLog) plate =? 0
       then addLogtoLog plateLogs [copy_for_result plate parkName currentLog]
       else plateLogs)
    chain plateLogs.

Definition getPlateLogs (headPark : list Park) (plate : string) : list Log :=
  let plateLogs :=
    fold_left
      (fun plateLogs park =>
         collect_plate_logs plate (getParkName park) plateLogs
           (getLogAtIndex (Some (getTable park))
              (plateHash plate (to_uint (getSize (getTable park))))))
      headPark [] in
  mergeSort "e" plateLogs.

(** The inner loop of [showParkBilling] on one chain. *)
Definition collect_exit_logs (timestamp : Timestamp) (parkName : string)
  (exitLog chain : list Log) : list Log :=
  fold_left
    (fun exitLog currentLog =>
       if billing_selects timestamp currentLog
       then addLogtoLog exitLog
              [copy_for_result (getLogPlate currentLog) parkName currentLog]
       else exitLog)
    chain exitLog.

(** The chain [exitLog] that [showParkBilling] prints: collected bucket
    after bucket, then sorted with [mergeSort(&exitLog, 's')]. *)
Definition showParkBilling_exitLog (park : Park) (timestamp : Timestamp)
  : list Log :=
  let ht := getTable park in
  let tableSize := to_uint (getSize ht) in
  let exitLog :=
    fold_left
      (fun exitLog i =>
         collect_exit_logs timestamp (getParkName park) exitLog
           (getLogAtIndex (Some ht) (Z.of_nat i)))
      (seq 0 (Z.to_nat tableSize)) [] in
  mergeSort "s" exitLog.

(** [log.c]: one turn of the loop of [printFullBillLog], on the bill so
    far, the timestamp whose date it is for and the lines printed, a line
    being the timestamp given to [printDate] and the amount.
    [currentTimestamp] points to the exit timestamp of the first node, which
    the loop overwrites but does not read again; it is modelled as a
    value. *)
Definition full_bill_body (tariff : Tariff)
  (s : double * Timestamp * list (Timestamp * double)) (log : Log)
  : double * Timestamp * list (Timestamp * double) :=
  let '(bill, currentTimestamp, lines) := s in
  let exitTimestamp := getExitTimestamp log in
  let '(bill, currentTimestamp, lines) :=
    if negb (compareDate currentTimestamp exitTimestamp =? 0)
    then (double_of_int 0,
          copyTimestamp currentTimestamp exitTimestamp,
          lines ++ [(currentTimestamp, bill)])
    else (bill, currentTimestamp, lines) in
  (dadd bill
     (calculateParkingCost tariff (getEntryTimestamp log) exitTimestamp),
   currentTimestamp, lines).

(** The lines [printFullBillLog(log, tariff)] prints. *)
Definition printFullBillLog (log : list Log) (tariff : Tariff)
  : list (Timestamp * double) :=
  match log with
  | [] => []
  | first :: _ =>
      let '(bill, currentTimestamp, lines) :=
        fold_left (full_bill_body tariff) log
          (double_of_int 0, getExitTimestamp first, []) in
      lines ++ [(currentTimestamp, bill)]
  end.

(** ** [main.c]: the commands once their line is parsed *)

Record System : Type := mkSystem
  { headPark : list Park;
    lastTimestamp : Timestamp }.

Definition valid_inputs_commands_e_s (sys : System) (command : ascii)
  (parkName plate : string) (timestamp : Timestamp) : bool :=
  match getPark (headPark sys) parkName with
  | None => false
  | Some park =>
      if Ascii.eqb command "e" && (getAvailableSpots park <=? 0) then false
      else if negb (validPlate plate) then false
      else
        let plateIsInAnyPark := plateInAnyPark (headPark sys) plate in
        if (Ascii.eqb command "e" && plateIsInAnyPark)
           || (Ascii.eqb command "s" && negb plateIsInAnyPark)
        then false
        else if negb (validTimestamp timestamp)
                || (compareTimestamps (lastTimestamp sys) timestamp =? 1)
        then false
        else true
  end.

(** The list after [registerEntryExit] has updated, in place, the park
    that [getPark] returns: the first park with the name. *)
Fixpoint register_in_park (headPark : list Park) (parkName plate : string)
  (timestamp : Timestamp) : list Park :=
  match headPark with
  | [] => []
  | park :: next =>
      if strcmp parkName (getParkName park) =? 0
      then registerEntryExit park plate timestamp :: next
      else park :: register_in_park next parkName plate timestamp
  end.

(** The state after [commands_e_s], from the values [sscanf] has read. *)
Definition commands_e_s (sys : System) (command : ascii)
  (parkName plate : string) (timestamp : Timestamp) : System :=
  if negb (valid_inputs_commands_e_s sys command parkName plate timestamp)
  then sys
  else
    {| headPark := register_in_park (headPark sys) parkName plate timestamp;
       lastTimestamp := copyTimestamp (lastTimestamp sys) timestamp |}.
(** The state after [command_p] when [sscanf] has read the five values of
    a new park. *)
Definition command_p (sys : System) (parkName : string) (capacity : Z)
  (value15 value15after1 valueMaxDaily : double) : System :=
  let tariff := newTariff value15 value15after1 valueMaxDaily in
  let park := newPark parkName capacity tariff in
  {| headPark := fst (addPark (headPark sys) park);
     lastTimestamp := lastTimestamp sys |}.

(** The state after [command_r]. *)
Definition command_r (sys : System) (parkName : string) : System :=
  {| headPark := fst (removePark (headPark sys) parkName);
     lastTimestamp := lastTimestamp sys |}.

(** The commands that change the state, as [main] dispatches them. *)
Inductive Command : Type :=
  | Command_p (parkName : string) (capacity : Z)
      (value15 value15after1 valueMaxDaily : double)
  | Command_e_s (command : ascii) (parkName plate : string)
      (timestamp : Timestamp)
  | Command_r (parkName : string).

Definition run_command (sys : System) (c : Command) : System :=
  match c with
  | Command_p parkName capacity value15 value15after1 valueMaxDaily =>
      command_p sys parkName capacity value15 value15after1 valueMaxDaily
  | Command_e_s command parkName plate timestamp =>
      commands_e_s sys command parkName plate timestamp
  | Command_r parkName => command_r sys parkName
  end.

(** The state in which [main] starts, and the state after a sequence of
    commands. *)
Definition initial_system : System :=
  {| headPark := []; lastTimestamp := INITIAL_TIMESTAMP |}.

Definition run_commands (commands : list Command) : System :=
  fold_left run_command commands initial_system.
End Doubles.

Arguments Tariff : clear implicits.
Arguments Park : clear implicits.
Arguments System : clear implicits.
Arguments Command : clear implicits.

(** ** Vocabulary of the statements about parks *)

(** [log] with its exit time set to [timestamp]. *)
Definition with_exit (log : Log) (timestamp : Timestamp) : Log :=
  {| plate := getLogPlate log;
     parkName := parkName log;
     entryTimestamp := entryTimestamp log;
     exitTimestamp := copyTimestamp (exitTimestamp log) timestamp |}.

(** The record [registerEntryExit] inserts for an entry. *)
Definition entry_of (plate parkName : string) (timestamp : Timestamp) : Log :=
  {| plate := plate;
     parkName := parkName;
     entryTimestamp := copyTimestamp INITIAL_TIMESTAMP timestamp;
     exitTimestamp := INITIAL_TIMESTAMP |}.

Definition has_no_exit (log : Log) : bool :=
  isInitialTimestamp (getExitTimestamp log).

(** Number of records without exit time: the vehicles inside. *)
Definition open_count (ht : Hashtable) : Z :=
  Z.of_nat (length (filter has_no_exit (all_logs ht))).

Definition has_plate (plate : string) (log : Log) : bool :=
  String.eqb (getLogPlate log) plate.

(** A park as [newPark] and [registerEntryExit] keep it: the table agrees
    with the hash, no plate has two open records, and the free places and
    the vehicles inside add up to the capacity. *)
Definition park_ok {double : Type} (park : Park double) : Prop :=
  table_wf (logTable park) /\
  (forall plate,
     (length (filter (is_open plate) (all_logs (logTable park))) <= 1)%nat) /\
  availableSlots park + open_count (logTable park) = capacity park.

(** The list of parks as [addPark] and [removePark] keep it: no two parks
    share a name and there are at most [MAX_PARKS] of them. *)
Definition parks_ok {double : Type} (headPark : list (Park double)) : Prop :=
  NoDup (map name headPark) /\ Z.of_nat (length headPark) <= MAX_PARKS.

(** [log] as [getPlateLogs] and [showParkBilling] copy it into their
    result. *)
Definition reported (plate parkName : string) (log : Log) : Log :=
  {| plate := plate;
     parkName := parkName;
     entryTimestamp := entryTimestamp log;
     exitTimestamp := exitTimestamp log |}.

Definition same_date (t1 t2 : Timestamp) : Prop :=
  day t1 = day t2 /\ month t1 = month t2 /\ year t1 = year t2.

(** Examples; they take the integers for [double]. *)
Definition tariff_1_2_3 : Tariff Z :=
  {| value15 := 1; value15after1 := 2; valueMaxDaily := 3 |}.

Definition park_A : Park Z := newPark "A" 1 tariff_1_2_3.
Definition park_B : Park Z := newPark "B" 1 tariff_1_2_3.

(** Park "B" with the vehicle "AA-00-00" inside, beside the empty "A". *)
Definition two_parks : System Z :=
  {| headPark := [park_A; registerEntryExit park_B "AA-00-00" (at_time 8 0)];
     lastTimestamp := at_time 8 0 |}.

(** Park "A" after a visit of "AA-00-00" from 8:00 to 9:00. *)
Definition park_A_visited : Park Z :=
  registerEntryExit (registerEntryExit park_A "AA-00-00" (at_time 8 0))
    "AA-00-00" (at_time 9 0).

(** In how many parks of the list the vehicle is inside. *)
Definition inside_count {double : Type} (plate : string)
  (l : list (Park double)) : nat :=
  length (filter (fun park => plateInPark park plate) l).

(** Alphabetical order as [strcmp] gives it. *)
Definition name_le (a b : string) : Prop := strcmp a b <= 0.

(** One pass of the inner loop of [printParksAlphabetically] seen from the
    element it carries along: [a] is compared with the next [m] elements
    and the greater of the two moves on. *)
Fixpoint bubble (m : nat) (a : string) (rest : list string) : list string :=
  match m, rest with
  | S m', b :: rest' =>
      if strcmp a b >? 0 then b :: bubble m' a rest'
      else a :: bubble m' b rest'
  | _, _ => a :: rest
  end.

(** The array after [i] turns of the outer loop: the last [i] names are in
    order and none of the others comes after them. *)
Definition passes_done (names : list string) (i : nat) (arr : list string)
  : Prop :=
  exists front tail,
    arr = front ++ tail /\ length tail = i /\
    StronglySorted name_le tail /\
    (forall x y, In x front -> In y tail -> name_le x y) /\
    Permutation arr names.

(** The date of [t1] is before the date of [t2]. *)
Definition date_lt (t1 t2 : Timestamp) : Prop :=
  year t1 < year t2 \/
  (year t1 = year t2 /\
   (month t1 < month t2 \/ (month t1 = month t2 /\ day t1 < day t2))).

Definition exit_on (date : Timestamp) (log : Log) : bool :=
  compareDate (getExitTimestamp log) date =? 0.

Section Totals.
Context {double : Type}.
Variable double_of_int : Z -> double.
Variables dmul dadd : double -> double -> double.
Variable dlt : double -> double -> bool.

(** What the stay recorded in [log] costs. *)
Definition log_cost (tariff : Tariff double) (log : Log) : double :=
  calculateParkingCost double_of_int dmul dadd dlt tariff
    (getEntryTimestamp log) (getExitTimestamp log).

(** The costs of the records of [log] whose exit is on [date], added up in
    the order of the chain, from 0. *)
Definition day_total (tariff : Tariff double) (date : Timestamp)
  (log : list Log) : double :=
  fold_left dadd (map (log_cost tariff) (filter (exit_on date) log))
    (double_of_int 0).
End Totals.

(** * Proofs *)

(** ** Loops *)

Section Loops.
Context {St Res : Type}.
Variable body : St -> St + Res.

Lemma while_pow_0 s : while_pow body 0 s = body s.
Proof. reflexivity. Qed.

Lemma while_pow_S k s :
  while_pow body (S k) s =
  match while_pow body k s with
  | inl s' => while_pow body k s'
  | inr r => inr r
  end.
Proof. reflexivity. Qed.

Variable Inv : St -> Prop.
Hypothesis Inv_step : forall s s', Inv s -> body s = inl s' -> Inv s'.

Lemma while_pow_inl_inv k : forall s s',
  Inv s -> while_pow body k s = inl s' -> Inv s'.
Proof.
  induction k as [|k IH]; intros s s' Hs H;
    [rewrite while_pow_0 in H | rewrite while_pow_S in H].
  - eauto.
  - destruct (while_pow body k s) as [s1|r] eqn:E; [|discriminate].
    eapply IH; [|exact H]. eapply IH; eauto.
Qed.

Lemma while_pow_inr_inv k : forall s r,
  Inv s -> while_pow body k s = inr r -> exists s0, Inv s0 /\ body s0 = inr r.
Proof.
  induction k as [|k IH]; intros s r Hs H;
    [rewrite while_pow_0 in H | rewrite while_pow_S in H].
  - eauto.
  - destruct (while_pow body k s) as [s1|r1] eqn:E.
    + eapply IH; [|exact H]. eapply while_pow_inl_inv; eauto.
    + inversion H; subst. eapply IH; eauto.
Qed.

Variable mu : St -> Z.
Hypothesis mu_step : forall s s', Inv s -> body s = inl s' -> mu s' < mu s.

Lemma while_pow_inl_measure k : forall s s',
  Inv s -> while_pow body k s = inl s' -> mu s' + 2 ^ Z.of_nat k <= mu s.
Proof.
  induction k as [|k IH]; intros s s' Hs H.
  - rewrite while_pow_0 in H. apply mu_step in H; auto. simpl. lia.
  - rewrite while_pow_S in H.
    destruct (while_pow body k s) as [s1|r] eqn:E; [|discriminate].
    pose proof (IH _ _ Hs E) as H1.
    pose proof (IH _ _ (while_pow_inl_inv k _ _ Hs E) H) as H2.
    rewrite Nat2Z.inj_succ, Z.pow_succ_r by lia. lia.
Qed.

Hypothesis mu_nonneg : forall s, Inv s -> 0 <= mu s.

Lemma while_pow_terminates k s :
  Inv s -> mu s < 2 ^ Z.of_nat k -> exists r, while_pow body k s = inr r.
Proof.
  intros Hs Hlt. destruct (while_pow body k s) as [s'|r] eqn:E; [|eauto].
  pose proof (while_pow_inl_measure _ _ _ Hs E).
  pose proof (mu_nonneg _ (while_pow_inl_inv _ _ _ Hs E)). lia.
Qed.
End Loops.

(** *** Arithmetic helpers *)

Ltac zpow :=
  change (2 ^ 32) with 4294967296 in *;
  change (2 ^ 31) with 2147483648 in *.

Ltac zmod := unfold to_uint, to_int in *; zpow; Z.div_mod_to_equations; lia.

Lemma to_uint_small z : 0 <= z < 2 ^ 32 -> to_uint z = z.
Proof. intros H. unfold to_uint. apply Z.mod_small. exact H. Qed.

Lemma to_uint_range z : 0 <= to_uint z < 2 ^ 32.
Proof. unfold to_uint. apply Z.mod_pos_bound. reflexivity. Qed.

(** *** Both loops terminate on every 32-bit input

    The counter [i] of [isPrime] runs through 5, 11, 17, ... modulo [2^32],
    that is through every odd residue, and so meets [num] itself at the
    latest; [isPrime_mu] counts the iterations left until then.  The scan of
    [nearestPrime] meets 3 at the latest. *)

Lemma isPrime_body_odd32 num s s' :
  odd32 s -> isPrime_body num s = inl s' -> odd32 s'.
Proof.
  unfold isPrime_body, odd32. intros [Hs Ho] Hb.
  destruct (to_uint (s * s) <=? num); [|discriminate].
  destruct ((num mod s =? 0) || (num mod to_uint (s + 2) =? 0)); [discriminate|].
  inversion Hb; subst. clear Hb. zmod.
Qed.

Lemma isPrime_body_mu num s s' :
  odd32 num -> odd32 s -> isPrime_body num s = inl s' ->
  isPrime_mu num s' < isPrime_mu num s.
Proof.
  unfold isPrime_body, odd32. intros [Hn Hno] [Hs Ho] Hb.
  destruct (to_uint (s * s) <=? num); [|discriminate].
  destruct (num mod s =? 0) eqn:E1; [discriminate|]. simpl in Hb.
  destruct (num mod to_uint (s + 2) =? 0); [discriminate|].
  inversion Hb; subst. clear Hb.
  apply Z.eqb_neq in E1.
  assert (Hne : s <> num).
  { intros ->. apply E1. apply Z.mod_same. zmod. }
  clear E1. unfold isPrime_mu. zmod.
Qed.

Lemma isPrime_loop_total num :
  odd32 num -> exists b, while_pow (isPrime_body num) 32 5 = inr b.
Proof.
  intros Hn.
  apply while_pow_terminates with (Inv := odd32) (mu := isPrime_mu num).
  - apply isPrime_body_odd32.
  - intros. eapply isPrime_body_mu; eauto.
  - intros. unfold isPrime_mu. apply Z.mod_pos_bound. reflexivity.
  - unfold odd32. split; [zpow; lia | reflexivity].
  - unfold isPrime_mu. simpl Z.of_nat.
    assert (0 <= (((num - 5) mod 2 ^ 32) / 2 * 715827883) mod 2 ^ 31 < 2 ^ 31)
      by (apply Z.mod_pos_bound; reflexivity).
    zpow. lia.
Qed.

Lemma isPrime_true_gt1 n : isPrime n = true -> 1 < n.
Proof.
  unfold isPrime. destruct (n <=? 1) eqn:E; [discriminate|].
  intros _. apply Z.leb_gt in E. exact E.
Qed.

Lemma nearestPrime_body_odd32 s s' :
  odd32 s -> nearestPrime_body s = inl s' -> odd32 s'.
Proof.
  unfold nearestPrime_body, odd32. intros [Hs Ho] Hb.
  destruct (isPrime s); [discriminate|]. inversion Hb; subst. zmod.
Qed.

Lemma nearestPrime_body_mu s s' :
  odd32 s -> nearestPrime_body s = inl s' ->
  (3 - s') mod 2 ^ 32 < (3 - s) mod 2 ^ 32.
Proof.
  unfold nearestPrime_body, odd32. intros [Hs Ho] Hb.
  destruct (isPrime s) eqn:E; [discriminate|]. inversion Hb; subst.
  assert (s <> 3) by (intros ->; vm_compute in E; discriminate).
  zmod.
Qed.

Lemma nearestPrime_loop_total n :
  odd32 n ->
  exists p, while_pow nearestPrime_body 32 n = inr p /\
            isPrime p = true /\ odd32 p.
Proof.
  intros Hn.
  destruct (while_pow_terminates nearestPrime_body odd32
              nearestPrime_body_odd32 (fun s => (3 - s) mod 2 ^ 32)
              nearestPrime_body_mu) with (k := 32%nat) (s := n) as [p Hp].
  - intros. apply Z.mod_pos_bound. reflexivity.
  - exact Hn.
  - apply Z.mod_pos_bound. reflexivity.
  - exists p. split; [exact Hp|].
    destruct (while_pow_inr_inv nearestPrime_body odd32
                nearestPrime_body_odd32 _ _ _ Hn Hp) as (s0 & Hs0 & Hb).
    unfold nearestPrime_body in Hb.
    destruct (isPrime s0) eqn:E; inversion Hb; subst. auto.
Qed.

Lemma forced_odd_odd32 n : 1 < n < 2 ^ 32 -> odd32 (forced_odd n).
Proof.
  intros H. unfold odd32, forced_odd. destruct (n mod 2 =? 0) eqn:E2.
  - apply Z.eqb_eq in E2. zmod.
  - apply Z.eqb_neq in E2. zmod.
Qed.

(** [nearestPrime] returns, on every 32-bit input, a 32-bit number accepted
    by [isPrime]: the fallback branches of the two definitions are dead. *)
Lemma nearestPrime_isPrime n :
  0 <= n < 2 ^ 32 ->
  isPrime (nearestPrime n) = true /\ 1 < nearestPrime n < 2 ^ 32.
Proof.
  intros Hn. unfold nearestPrime.
  destruct (n <=? 1) eqn:E1; [split; [reflexivity|zpow; lia]|].
  apply Z.leb_gt in E1.
  destruct (nearestPrime_loop_total (forced_odd n)) as (p & -> & Hp & Ho).
  - apply forced_odd_odd32. lia.
  - split; [exact Hp|]. apply isPrime_true_gt1 in Hp. unfold odd32 in Ho. lia.
Qed.

(** *** Trial division by 2, 3 and 6k±1 *)

Lemma mod_of_divisor a d num :
  0 < a -> (a | d) -> (d | num) -> num mod a = 0.
Proof.
  intros Ha H1 H2. apply Z.mod0_divide. eapply Z.divide_trans; eauto.
Qed.

Lemma trial_division num i :
  3 < num -> num mod 2 <> 0 -> num mod 3 <> 0 ->
  0 <= i -> num < i * i ->
  (forall j, 5 <= j < i -> j mod 6 = 5 ->
             num mod j <> 0 /\ num mod (j + 2) <> 0) ->
  Z.prime num.
Proof.
  intros Hnum H2 H3 Hi Hlt Hall.
  assert (Hsmall : forall d e, num = d * e -> 1 < d -> d <= e -> False).
  { intros d e Hde Hd Hle.
    assert (Hdi : d < i) by nia.
    assert (Hdiv : (d | num)) by (exists e; lia).
    assert (Hr : d mod 6 = 0 \/ d mod 6 = 1 \/ d mod 6 = 2 \/ d mod 6 = 3 \/
                 d mod 6 = 4 \/ d mod 6 = 5)
      by (pose proof (Z.mod_pos_bound d 6); lia).
    pose proof (Z.div_mod d 6 ltac:(lia)) as Hd6.
    destruct Hr as [Hr|[Hr|[Hr|[Hr|[Hr|Hr]]]]]; rewrite Hr in Hd6.
    - apply H2. apply (mod_of_divisor 2 d); auto; [lia|].
      exists (3 * (d / 6)). lia.
    - destruct (Hall (d - 2)) as [_ Hc]; [lia| |].
      + rewrite Hd6. replace (6 * (d / 6) + 1 - 2) with (5 + (d / 6 - 1) * 6) by lia.
        rewrite Z.mod_add by lia. reflexivity.
      + apply Hc. replace (d - 2 + 2) with d by lia. apply Z.mod0_divide. exact Hdiv.
    - apply H2. apply (mod_of_divisor 2 d); auto; [lia|].
      exists (3 * (d / 6) + 1). lia.
    - apply H3. apply (mod_of_divisor 3 d); auto; [lia|].
      exists (2 * (d / 6) + 1). lia.
    - apply H2. apply (mod_of_divisor 2 d); auto; [lia|].
      exists (3 * (d / 6) + 2). lia.
    - destruct (Hall d) as [Hc _]; [lia|exact Hr|].
      apply Hc. apply Z.mod0_divide. exact Hdiv. }
  split; [lia|]. intros n Hn [q Hq].
  assert (1 < q) by nia.
  destruct (Z_le_gt_dec n q).
  - apply (Hsmall n q); lia.
  - apply (Hsmall q n); lia.
Qed.

(** *** [isPrime] is sound while [i * i] does not wrap *)

Lemma isPrime_body_inv num s s' :
  num < 65531 * 65531 ->
  isPrime_inv num s -> isPrime_body num s = inl s' -> isPrime_inv num s'.
Proof.
  unfold isPrime_body, isPrime_inv. intros Hnum (Hs & Hm & Hall) Hb.
  rewrite to_uint_small in Hb by (zpow; nia).
  destruct (s * s <=? num) eqn:E; [|discriminate]. apply Z.leb_le in E.
  assert (Hs' : s <= 65525) by (assert (s < 65531) by nia; zmod).
  rewrite (to_uint_small (s + 2)), (to_uint_small (s + 6)) in Hb by (zpow; lia).
  destruct (num mod s =? 0) eqn:E1; [discriminate|].
  destruct (num mod (s + 2) =? 0) eqn:E2; [discriminate|].
  apply Z.eqb_neq in E1, E2. inversion Hb; subst. clear Hb.
  split; [lia|]. split; [zmod|].
  intros j Hj Hj6. destruct (Z_lt_ge_dec j s) as [Hlt|Hge].
  - apply Hall; lia.
  - assert (j = s) by zmod. subst j. auto.
Qed.

Lemma isPrime_sound num :
  num < 65531 * 65531 -> isPrime num = true -> Z.prime num.
Proof.
  intros Hnum. unfold isPrime.
  destruct (num <=? 1) eqn:E1; [discriminate|]. apply Z.leb_gt in E1.
  destruct (num <=? 3) eqn:E3.
  { apply Z.leb_le in E3. intros _.
    assert (num = 2 \/ num = 3) as [-> | ->] by lia;
      [apply Z.prime_2 | apply Z.prime_3]. }
  apply Z.leb_gt in E3.
  destruct (num mod 2 =? 0) eqn:M2; [discriminate|].
  destruct (num mod 3 =? 0) eqn:M3; [discriminate|].
  apply Z.eqb_neq in M2, M3. cbv [orb].
  destruct (while_pow (isPrime_body num) 32 5) as [s|b] eqn:W; [discriminate|].
  intros ->.
  assert (H5 : isPrime_inv num 5).
  { unfold isPrime_inv. split; [lia|]. split; [reflexivity|]. intros; lia. }
  destruct (while_pow_inr_inv (isPrime_body num) (isPrime_inv num)
              (fun s s' => isPrime_body_inv num s s' Hnum) _ _ _ H5 W)
    as (i & (Hi & Hm & Hall) & Hb).
  unfold isPrime_body in Hb.
  rewrite to_uint_small in Hb by (zpow; nia).
  destruct (i * i <=? num) eqn:E.
  { destruct ((num mod i =? 0) || (num mod to_uint (i + 2) =? 0)); discriminate. }
  apply Z.leb_gt in E.
  apply (trial_division num i); auto; lia.
Qed.

Lemma isPrime_complete num :
  0 <= num < 65531 * 65531 -> isPrime num = false -> ~ Z.prime num.
Proof.
  intros Hnum. unfold isPrime.
  destruct (num <=? 1) eqn:E1.
  { apply Z.leb_le in E1. intros _ [H _]. lia. }
  apply Z.leb_gt in E1.
  destruct (num <=? 3) eqn:E3; [discriminate|]. apply Z.leb_gt in E3.
  destruct (num mod 2 =? 0) eqn:M2.
  { apply Z.eqb_eq in M2. intros _ [_ H]. apply (H 2); [lia|].
    apply Z.mod_divide; [lia|exact M2]. }
  destruct (num mod 3 =? 0) eqn:M3.
  { apply Z.eqb_eq in M3. intros _ [_ H]. apply (H 3); [lia|].
    apply Z.mod_divide; [lia|exact M3]. }
  apply Z.eqb_neq in M2, M3. cbv [orb].
  destruct (isPrime_loop_total num) as [b W]; [unfold odd32; zmod|].
  rewrite W. intros ->.
  assert (H5 : isPrime_inv num 5).
  { unfold isPrime_inv. split; [lia|]. split; [reflexivity|]. intros; lia. }
  destruct (while_pow_inr_inv (isPrime_body num) (isPrime_inv num)
              (fun s s' => isPrime_body_inv num s s' (proj2 Hnum)) _ _ _ H5 W)
    as (i & (Hi & Hm & Hall) & Hb).
  unfold isPrime_body in Hb.
  rewrite to_uint_small in Hb by (zpow; nia).
  destruct (i * i <=? num) eqn:E; [|discriminate]. apply Z.leb_le in E.
  rewrite (to_uint_small (i + 2)) in Hb by (zpow; lia).
  intros [_ H].
  destruct (num mod i =? 0) eqn:D1.
  - apply Z.eqb_eq in D1. apply (H i); [nia|].
    apply Z.mod_divide; [lia|exact D1].
  - destruct (num mod (i + 2) =? 0) eqn:D2; [|discriminate].
    apply Z.eqb_eq in D2. apply (H (i + 2)); [nia|].
    apply Z.mod_divide; [lia|exact D2].
Qed.

(** *** The upward scan below a known prime *)

Section Scan.
Variable P : Z.
Hypothesis P_prime : isPrime P = true.
Hypothesis P_odd : P mod 2 = 1.
Hypothesis P_bound : P < 2 ^ 32.

Lemma nearestPrime_body_scan n0 s s' :
  0 <= n0 -> scan_inv P n0 s -> nearestPrime_body s = inl s' -> scan_inv P n0 s'.
Proof.
  unfold nearestPrime_body, scan_inv. intros Hn0 (Hs & Ho & Hall) Hb.
  destruct (isPrime s) eqn:E; [discriminate|]. inversion Hb; subst. clear Hb.
  assert (s <> P) by congruence.
  assert (s + 2 <= P) by zmod.
  rewrite to_uint_small by (zpow; lia).
  split; [lia|]. split; [zmod|].
  intros j Hj Hjo. destruct (Z_lt_ge_dec j s).
  - apply Hall; lia.
  - assert (j = s) by zmod. subst. exact E.
Qed.

Lemma nearestPrime_scan n0 :
  0 <= n0 <= P -> n0 mod 2 = 1 ->
  exists p, while_pow nearestPrime_body 32 n0 = inr p /\
            n0 <= p <= P /\ p mod 2 = 1 /\ isPrime p = true /\
            forall j, n0 <= j < p -> j mod 2 = 1 -> isPrime j = false.
Proof.
  intros Hn0 Ho.
  destruct (nearestPrime_loop_total n0) as (p & W & Hp & _);
    [unfold odd32; zpow; lia|].
  exists p. split; [exact W|].
  assert (H0 : scan_inv P n0 n0).
  { unfold scan_inv. split; [lia|]. split; [exact Ho|]. intros; lia. }
  destruct (while_pow_inr_inv nearestPrime_body (scan_inv P n0)
              (fun s s' => nearestPrime_body_scan n0 s s' (proj1 Hn0))
              _ _ _ H0 W) as (s0 & (Hs & Hso & Hall) & Hb).
  unfold nearestPrime_body in Hb.
  destruct (isPrime s0) eqn:E; inversion Hb; subst. auto.
Qed.

Lemma nearestPrime_below n :
  2 <= n <= P ->
  forced_odd n <= nearestPrime n <= P /\
  nearestPrime n mod 2 = 1 /\ isPrime (nearestPrime n) = true /\
  forall j, n <= j < nearestPrime n -> j mod 2 = 1 -> isPrime j = false.
Proof.
  intros Hn. unfold nearestPrime.
  destruct (n <=? 1) eqn:E1; [apply Z.leb_le in E1; lia|].
  assert (Hf : n <= forced_odd n <= P /\ forced_odd n mod 2 = 1 /\
               forall j, n <= j < forced_odd n -> j mod 2 = 1 -> False).
  { unfold forced_odd. destruct (n mod 2 =? 0) eqn:E2.
    - apply Z.eqb_eq in E2. rewrite to_uint_small by zmod.
      split; [zmod|]. split; [zmod|]. intros; zmod.
    - apply Z.eqb_neq in E2. split; [lia|]. split; [zmod|]. intros; lia. }
  destruct Hf as (Hf1 & Hf2 & Hf3).
  destruct (nearestPrime_scan (forced_odd n)) as (p & -> & Hp & Hpo & Hpp & Hall);
    [lia|exact Hf2|].
  split; [exact Hp|]. split; [exact Hpo|]. split; [exact Hpp|].
  intros j Hj Hjo. destruct (Z_lt_ge_dec j (forced_odd n)).
  - exfalso. apply (Hf3 j); auto. lia.
  - apply Hall; auto. lia.
Qed.
End Scan.

Lemma isPrime_10007 : isPrime 10007 = true.
Proof. vm_compute. reflexivity. Qed.

Lemma isPrime_4294311919 : isPrime 4294311919 = true.
Proof. vm_compute. reflexivity. Qed.

(** ** Timestamps and names are totally ordered *)

Ltac field_case f t1 t2 :=
  destruct (Z.eqb_spec (f t1) (f t2)); cbn [negb];
  [| destruct (Z.ltb_spec (f t1) (f t2)); simpl in *; lia ].

Ltac timestamp_cases t1 t2 :=
  unfold compareTimestamps, compareDate, ts_lt;
  field_case year t1 t2; field_case month t1 t2; field_case day t1 t2;
  simpl; field_case hour t1 t2; field_case minute t1 t2.

Lemma compareTimestamps_lt t1 t2 :
  compareTimestamps t1 t2 = -1 <-> ts_lt t1 t2.
Proof. timestamp_cases t1 t2. lia. Qed.

Lemma compareTimestamps_eq t1 t2 : compareTimestamps t1 t2 = 0 <-> t1 = t2.
Proof.
  split.
  - intros H.
    assert (day t1 = day t2 /\ month t1 = month t2 /\ year t1 = year t2 /\
            hour t1 = hour t2 /\ minute t1 = minute t2) as (D & M & Y & Hh & Mi).
    { revert H. timestamp_cases t1 t2. lia. }
    destruct t1, t2. simpl in *. subst. reflexivity.
  - intros ->. timestamp_cases t2 t2. reflexivity.
Qed.

Lemma ts_lt_irrefl t : ~ ts_lt t t.
Proof. unfold ts_lt. lia. Qed.

Lemma ts_lt_trans t1 t2 t3 : ts_lt t1 t2 -> ts_lt t2 t3 -> ts_lt t1 t3.
Proof. unfold ts_lt. lia. Qed.

Lemma ts_lt_total t1 t2 : ts_lt t1 t2 \/ t1 = t2 \/ ts_lt t2 t1.
Proof.
  destruct (Z.eq_dec (compareTimestamps t1 t2) 0) as [H|H].
  - right; left. apply compareTimestamps_eq, H.
  - revert H. timestamp_cases t1 t2. lia.
Qed.

Lemma string_compare_refl s : String.compare s s = Eq.
Proof.
  induction s as [|a s IH]; simpl; [reflexivity|].
  unfold Ascii.compare. rewrite N.compare_refl. exact IH.
Qed.

Lemma string_compare_lt_trans : forall s1 s2 s3,
  String.compare s1 s2 = Lt -> String.compare s2 s3 = Lt ->
  String.compare s1 s3 = Lt.
Proof.
  induction s1 as [|a s1 IH]; intros [|b s2] [|c s3]; simpl;
    try discriminate; auto.
  unfold Ascii.compare.
  destruct (N.compare_spec (N_of_ascii a) (N_of_ascii b)),
           (N.compare_spec (N_of_ascii b) (N_of_ascii c)),
           (N.compare_spec (N_of_ascii a) (N_of_ascii c));
    try discriminate; try lia; eauto.
Qed.

Lemma string_compare_total s1 s2 :
  String.compare s1 s2 = Lt \/ s1 = s2 \/ String.compare s2 s1 = Lt.
Proof.
  destruct (String.compare s1 s2) eqn:E.
  - right; left. apply String.compare_eq_iff, E.
  - left; reflexivity.
  - right; right. rewrite String.compare_antisym, E. reflexivity.
Qed.

Lemma string_compare_lt_irrefl s : String.compare s s <> Lt.
Proof. rewrite string_compare_refl. discriminate. Qed.

Lemma strcmp_eq0 s1 s2 : strcmp s1 s2 = 0 <-> s1 = s2.
Proof.
  unfold strcmp. split.
  - destruct (String.compare s1 s2) eqn:E; try discriminate.
    intros _. apply String.compare_eq_iff, E.
  - intros ->. rewrite string_compare_refl. reflexivity.
Qed.

Lemma strcmp_eqb s1 s2 : (strcmp s1 s2 =? 0) = String.eqb s1 s2.
Proof.
  destruct (String.eqb_spec s1 s2) as [H|H].
  - apply Z.eqb_eq, strcmp_eq0, H.
  - apply Z.eqb_neq. rewrite strcmp_eq0. exact H.
Qed.

(** ** The order implemented by [merge] *)

Lemma goes_before_iff sortBy a b :
  goes_before sortBy a b <->
  String.compare (parkName a) (parkName b) = Lt \/
  (parkName a = parkName b /\
   ts_lt (snd (sort_key sortBy a)) (snd (sort_key sortBy b))).
Proof.
  unfold goes_before, merge_takes_first, sort_key, strcmp,
    getLogParkName, getEntryTimestamp, getExitTimestamp.
  cbn [snd].
  destruct (String.compare (parkName a) (parkName b)) eqn:E; cbn [Z.ltb Z.eqb Z.compare orb andb].
  - apply String.compare_eq_iff in E.
    destruct (Ascii.eqb sortBy "e"); rewrite Z.eqb_eq, compareTimestamps_lt;
      (split;
       [ intros H; right; split; [exact E|exact H]
       | intros [H|[_ H]];
         [discriminate|exact H] ]).
  - split; auto.
  - split; [discriminate|]. intros [H|[H _]]; [discriminate|].
    rewrite H, string_compare_refl in E. discriminate.
Qed.

Section Order.
Variable sortBy : ascii.
Notation "a << b" := (goes_before sortBy a b) (at level 70).

Lemma not_after_iff a b : not_after sortBy a b <-> ~ b << a.
Proof.
  unfold not_after, goes_before.
  destruct (merge_takes_first sortBy b a); split; congruence.
Qed.

Lemma goes_before_irrefl a : ~ a << a.
Proof.
  rewrite goes_before_iff. intros [H|[_ H]].
  - exact (string_compare_lt_irrefl _ H).
  - exact (ts_lt_irrefl _ H).
Qed.

Lemma goes_before_trans a b c : a << b -> b << c -> a << c.
Proof.
  rewrite !goes_before_iff. intros [H1|[H1 T1]] [H2|[H2 T2]].
  - left. eapply string_compare_lt_trans; eauto.
  - left. rewrite <- H2. exact H1.
  - left. rewrite H1. exact H2.
  - right. split; [congruence|]. eapply ts_lt_trans; eauto.
Qed.

Lemma goes_before_total a b :
  a << b \/ sort_key sortBy a = sort_key sortBy b \/ b << a.
Proof.
  rewrite !goes_before_iff.
  destruct (string_compare_total (parkName a) (parkName b)) as [H|[H|H]];
    auto.
  destruct (ts_lt_total (snd (sort_key sortBy a)) (snd (sort_key sortBy b)))
    as [T|[T|T]]; auto.
  right; left. unfold sort_key in *. cbn [snd] in T.
  unfold getLogParkName. rewrite H, T. reflexivity.
Qed.

Lemma goes_before_key a b :
  sort_key sortBy a = sort_key sortBy b -> ~ a << b.
Proof.
  intros H. rewrite goes_before_iff. rewrite H.
  assert (Hp : parkName a = parkName b)
    by (unfold sort_key, getLogParkName in H; congruence).
  rewrite Hp. intros [C|[_ C]].
  - exact (string_compare_lt_irrefl _ C).
  - exact (ts_lt_irrefl _ C).
Qed.

Lemma goes_before_asym a b : a << b -> ~ b << a.
Proof.
  intros H1 H2. exact (goes_before_irrefl a (goes_before_trans _ _ _ H1 H2)).
Qed.

(** Negative transitivity. *)
Lemma goes_before_split x a b : x << b -> x << a \/ a << b.
Proof.
  intros H. destruct (goes_before_total x a) as [H1|[H1|H1]]; auto.
  - right. destruct (goes_before_total a b) as [H2|[H2|H2]]; auto.
    + exfalso. apply (goes_before_key x b); [congruence|exact H].
    + exfalso. destruct (goes_before_total a x) as [H3|[H3|H3]].
      * exact (goes_before_key x a H1 (goes_before_trans _ _ _ H H2)).
      * exact (goes_before_key x a H1 (goes_before_trans _ _ _ H H2)).
      * exact (goes_before_key x a H1 (goes_before_trans _ _ _ H H2)).
  - right. eapply goes_before_trans; eauto.
Qed.
End Order.

(** ** [merge] and [mergeSort] *)

Lemma StronglySorted_app_inv {A} (R : A -> A -> Prop) l1 l2 :
  StronglySorted R (l1 ++ l2) ->
  StronglySorted R l1 /\ StronglySorted R l2 /\
  Forall (fun x => Forall (R x) l2) l1.
Proof.
  induction l1 as [|a l1 IH]; simpl; intros H.
  - repeat split; auto; constructor.
  - apply StronglySorted_inv in H as [H F].
    destruct (IH H) as (S1 & S2 & F12).
    apply Forall_app in F as [Fa1 Fa2].
    repeat split; auto; constructor; auto.
Qed.

Section MergeSort.
Variable sortBy : ascii.
Notation "a << b" := (goes_before sortBy a b) (at level 70).

Lemma merge_nil_l l2 : merge sortBy [] l2 = l2.
Proof. destruct l2; reflexivity. Qed.

Lemma merge_nil_r l1 : merge sortBy l1 [] = l1.
Proof. destruct l1; reflexivity. Qed.

Lemma merge_cons a l1 b l2 :
  merge sortBy (a :: l1) (b :: l2) =
  if merge_takes_first sortBy a b
  then a :: merge sortBy l1 (b :: l2)
  else b :: merge sortBy (a :: l1) l2.
Proof. reflexivity. Qed.

(** [merge] neither drops nor duplicates a node. *)
Lemma merge_perm : forall l1 l2,
  Permutation (merge sortBy l1 l2) (l1 ++ l2).
Proof.
  induction l1 as [|a l1 IH1]; intros l2.
  - rewrite merge_nil_l. reflexivity.
  - induction l2 as [|b l2 IH2].
    + rewrite merge_nil_r, app_nil_r. reflexivity.
    + rewrite merge_cons. destruct (merge_takes_first sortBy a b).
      * simpl. constructor. apply IH1.
      * rewrite IH2. apply Permutation_middle.
Qed.

Lemma merge_sorted : forall l1 l2,
  StronglySorted (not_after sortBy) l1 ->
  StronglySorted (not_after sortBy) l2 ->
  StronglySorted (not_after sortBy) (merge sortBy l1 l2).
Proof.
  induction l1 as [|a l1 IH1]; intros l2 S1 S2.
  - rewrite merge_nil_l. exact S2.
  - induction l2 as [|b l2 IH2].
    + rewrite merge_nil_r. exact S1.
    + rewrite merge_cons.
      pose proof (StronglySorted_inv S1) as [S1' F1].
      pose proof (StronglySorted_inv S2) as [S2' F2].
      rewrite Forall_forall in F1, F2.
      destruct (merge_takes_first sortBy a b) eqn:E.
      * constructor; [apply IH1; assumption|].
        apply Forall_forall. intros z Hz.
        apply (Permutation_in _ (merge_perm _ _)), in_app_or in Hz.
        destruct Hz as [Hz|[<-|Hz]].
        -- apply F1, Hz.
        -- apply not_after_iff. apply goes_before_asym. exact E.
        -- apply not_after_iff. intros C.
           apply (proj1 (not_after_iff _ _ _) (F2 z Hz)).
           eapply goes_before_trans; [exact C|exact E].
      * constructor; [apply IH2; assumption|].
        apply Forall_forall. intros z Hz.
        apply (Permutation_in _ (merge_perm _ _)), in_app_or in Hz.
        destruct Hz as [[<-|Hz]|Hz].
        -- exact E.
        -- apply not_after_iff. intros C.
           destruct (goes_before_split sortBy z a b C) as [C1|C1].
           ++ exact (proj1 (not_after_iff _ _ _) (F1 z Hz) C1).
           ++ unfold goes_before in C1. congruence.
        -- apply F2, Hz.
Qed.

(** Merging two chains that are already in strict order one after the
    other is appending them. *)
Lemma merge_app : forall l1 l2,
  StronglySorted (goes_before sortBy) (l1 ++ l2) ->
  merge sortBy l1 l2 = l1 ++ l2.
Proof.
  induction l1 as [|a l1 IH]; intros l2 H.
  - apply merge_nil_l.
  - destruct l2 as [|b l2].
    + rewrite merge_nil_r, app_nil_r. reflexivity.
    + rewrite merge_cons. simpl in H.
      apply StronglySorted_inv in H as [H F].
      rewrite Forall_forall in F.
      assert (E : a << b) by (apply F, in_or_app; right; left; reflexivity).
      unfold goes_before in E. rewrite E. simpl. f_equal. apply IH, H.
Qed.

Lemma split_app x y l :
  fst (split (x :: y :: l)) ++ snd (split (x :: y :: l)) = x :: y :: l.
Proof. apply split_spec. Qed.

Lemma mergeSort_perm l : Permutation (mergeSort sortBy l) l.
Proof.
  funelim (mergeSort sortBy l); simp mergeSort; try reflexivity.
  rewrite merge_perm, H, H0, split_app. reflexivity.
Qed.

Lemma mergeSort_sorted l :
  StronglySorted (not_after sortBy) (mergeSort sortBy l).
Proof.
  funelim (mergeSort sortBy l); simp mergeSort.
  - constructor.
  - repeat constructor.
  - apply merge_sorted; assumption.
Qed.

Lemma mergeSort_fixed l :
  StronglySorted (goes_before sortBy) l -> mergeSort sortBy l = l.
Proof.
  funelim (mergeSort sortBy l); simp mergeSort; try reflexivity.
  intros S. rewrite <- (split_app x y l) in S.
  destruct (StronglySorted_app_inv _ _ _ S) as (S1 & S2 & _).
  rewrite H, H0 by assumption.
  rewrite merge_app by exact S. apply split_app.
Qed.

Lemma distinct_sorted_strict l :
  NoDup (map (sort_key sortBy) l) ->
  StronglySorted (not_after sortBy) l ->
  StronglySorted (goes_before sortBy) l.
Proof.
  induction l as [|a l IH]; intros N S; [constructor|].
  simpl in N. apply NoDup_cons_iff in N as [Na N].
  apply StronglySorted_inv in S as [S F].
  constructor; [apply IH; assumption|].
  rewrite Forall_forall in *. intros z Hz.
  destruct (goes_before_total sortBy a z) as [C|[C|C]].
  - exact C.
  - exfalso. apply Na. rewrite C. apply in_map, Hz.
  - exfalso. exact (proj1 (not_after_iff _ _ _) (F z Hz) C).
Qed.

Lemma mergeSort_twice l :
  NoDup (map (sort_key sortBy) l) ->
  mergeSort sortBy (mergeSort sortBy l) = mergeSort sortBy l.
Proof.
  intros N. apply mergeSort_fixed, distinct_sorted_strict.
  - eapply Permutation_NoDup; [|exact N].
    apply Permutation_map. symmetry. apply mergeSort_perm.
  - apply mergeSort_sorted.
Qed.
End MergeSort.

(** ** Bucket arrays *)

Lemma to_uint_to_int z : to_uint (to_int z) = to_uint z.
Proof.
  unfold to_int. cbv zeta. destruct (z mod 2 ^ 32 <? 2 ^ 31); zmod.
Qed.

Lemma to_int_small z : 0 <= z < 2 ^ 31 -> to_int z = z.
Proof.
  intros H. unfold to_int. cbv zeta.
  rewrite Z.mod_small by (zpow; lia).
  destruct (Z.ltb_spec z (2 ^ 31)); lia.
Qed.

Lemma plateHash_range p n : 0 < n -> 0 <= plateHash p n < n.
Proof. intros H. unfold plateHash. apply Z.mod_pos_bound, H. Qed.

Section Store.
Context {A : Type}.

Lemma length_store (x : A) : forall l i, length (store i x l) = length l.
Proof. induction l as [|y l IH]; intros [|i]; simpl; auto. Qed.

Lemma nth_store_same (x d : A) : forall l i,
  (i < length l)%nat -> nth i (store i x l) d = x.
Proof.
  induction l as [|y l IH]; intros [|i] H; simpl in *; try lia; auto.
  apply IH. lia.
Qed.

Lemma nth_store_other (x d : A) : forall l i j,
  i <> j -> nth j (store i x l) d = nth j l d.
Proof.
  induction l as [|y l IH]; intros [|i] [|j] H; simpl; auto; try congruence.
Qed.
End Store.

Lemma concat_store (c c' : list Log) : forall l i,
  (i < length l)%nat ->
  Permutation c (c' ++ nth i l []) ->
  Permutation (concat (store i c l)) (c' ++ concat l).
Proof.
  induction l as [|y l IH]; intros [|i] H P; simpl in *; try lia.
  - rewrite P, app_assoc. reflexivity.
  - rewrite (IH i) by (auto; lia).
    rewrite !app_assoc. apply Permutation_app_tail, Permutation_app_comm.
Qed.

Lemma map_nth_seq {A} (d : A) (l : list A) :
  map (fun i => nth i l d) (seq 0 (length l)) = l.
Proof.
  apply nth_ext with (d := d) (d' := d).
  - rewrite length_map, length_seq. reflexivity.
  - intros n Hn. rewrite length_map, length_seq in Hn.
    rewrite (nth_indep _ d (nth 0 l d)) by (rewrite length_map, length_seq; exact Hn).
    rewrite (map_nth (fun i => nth i l d)). rewrite seq_nth by exact Hn.
    reflexivity.
Qed.

Lemma nth_concat_split {A} (l : list (list A)) i :
  (i < length l)%nat ->
  exists pre post, concat l = pre ++ nth i l [] ++ post.
Proof.
  revert i. induction l as [|y l IH]; intros [|i] H; simpl in *; try lia.
  - exists [], (concat l). reflexivity.
  - destruct (IH i) as (pre & post & E); [lia|].
    exists (y ++ pre), post. rewrite E, app_assoc. reflexivity.
Qed.

(** ** Reading a table *)

Lemma chain_at_nth ht i :
  0 <= i < size ht -> chain_at ht i = nth (Z.to_nat i) (logs ht) [].
Proof.
  intros H. unfold chain_at, getLogAtIndex.
  destruct (Z.leb_spec (size ht) i); [lia|reflexivity].
Qed.

Lemma chain_at_out ht i : size ht <= i -> chain_at ht i = [].
Proof.
  intros H. unfold chain_at, getLogAtIndex.
  destruct (Z.leb_spec (size ht) i); [reflexivity|lia].
Qed.

Lemma getSize_uint ht : 0 < size ht < 2 ^ 32 -> to_uint (getSize ht) = size ht.
Proof.
  intros H. unfold getSize. rewrite to_uint_to_int. apply to_uint_small. lia.
Qed.

Lemma all_logs_chains ht :
  length (logs ht) = Z.to_nat (size ht) ->
  concat (map (fun i => getLogAtIndex (Some ht) (Z.of_nat i))
              (seq 0 (Z.to_nat (size ht)))) = all_logs ht.
Proof.
  intros L. unfold all_logs.
  transitivity (concat (map (fun i => nth i (logs ht) [])
                            (seq 0 (length (logs ht)))));
    [|rewrite map_nth_seq; reflexivity].
  rewrite L. f_equal. apply map_ext_in. intros i Hi.
  apply in_seq in Hi. fold (chain_at ht (Z.of_nat i)).
  rewrite chain_at_nth by lia. rewrite Nat2Z.id. reflexivity.
Qed.

Lemma in_all_logs ht log :
  length (logs ht) = Z.to_nat (size ht) ->
  In log (all_logs ht) <->
  exists i, 0 <= i < size ht /\ In log (chain_at ht i).
Proof.
  intros L. unfold all_logs. rewrite in_concat. split.
  - intros (c & Hc & Hl). apply (In_nth _ _ []) in Hc as (n & Hn & <-).
    exists (Z.of_nat n). split; [lia|].
    rewrite chain_at_nth by lia. rewrite Nat2Z.id. exact Hl.
  - intros (i & Hi & Hl). rewrite chain_at_nth in Hl by exact Hi.
    eexists. split; [|exact Hl]. apply nth_In. lia.
Qed.

(** ** [resizeHashtable] *)

Section Rehash.
Variable newSize : Z.
Hypothesis newSize_pos : 0 < newSize.

Lemma length_rehash_log nl log :
  length (rehash_log newSize nl log) = length nl.
Proof. apply length_store. Qed.

Lemma length_rehash_chain chain : forall nl,
  length (rehash_chain newSize nl chain) = length nl.
Proof.
  induction chain as [|a chain IH]; intros nl; [reflexivity|].
  change (rehash_chain newSize nl (a :: chain))
    with (rehash_chain newSize (rehash_log newSize nl a) chain).
  rewrite IH. apply length_rehash_log.
Qed.

Lemma nth_rehash_log nl log j :
  length nl = Z.to_nat newSize -> (j < length nl)%nat ->
  nth j (rehash_log newSize nl log) [] =
  if lands_in newSize (Z.of_nat j) log then log :: nth j nl []
  else nth j nl [].
Proof.
  intros L Hj. unfold rehash_log, lands_in.
  pose proof (plateHash_range (getLogPlate log) newSize newSize_pos) as R.
  destruct (Z.eqb_spec (plateHash (getLogPlate log) newSize) (Z.of_nat j))
    as [E|E].
  - rewrite E, Nat2Z.id. apply nth_store_same. exact Hj.
  - apply nth_store_other. lia.
Qed.

(** Head insertion: the new bucket lists, newest first, the records
    rehashed so far that land in it. *)
Lemma nth_rehash_chain chain : forall nl j,
  length nl = Z.to_nat newSize -> (j < length nl)%nat ->
  nth j (rehash_chain newSize nl chain) [] =
  rev (filter (lands_in newSize (Z.of_nat j)) chain) ++ nth j nl [].
Proof.
  induction chain as [|a chain IH]; intros nl j L Hj; [reflexivity|].
  change (rehash_chain newSize nl (a :: chain))
    with (rehash_chain newSize (rehash_log newSize nl a) chain).
  rewrite IH by (rewrite ?length_rehash_log; assumption).
  rewrite nth_rehash_log by assumption. simpl.
  destruct (lands_in newSize (Z.of_nat j) a); [|reflexivity].
  simpl. rewrite <- app_assoc. reflexivity.
Qed.

Lemma concat_rehash_chain chain : forall nl,
  length nl = Z.to_nat newSize ->
  Permutation (concat (rehash_chain newSize nl chain)) (chain ++ concat nl).
Proof.
  induction chain as [|a chain IH]; intros nl L; [reflexivity|].
  change (rehash_chain newSize nl (a :: chain))
    with (rehash_chain newSize (rehash_log newSize nl a) chain).
  rewrite IH by (rewrite length_rehash_log; assumption).
  unfold rehash_log. rewrite (concat_store _ [a]).
  - simpl. symmetry. apply Permutation_middle.
  - pose proof (plateHash_range (getLogPlate a) newSize newSize_pos). lia.
  - reflexivity.
Qed.
End Rehash.

Lemma rehash_buckets_concat ht n : forall indexes nl,
  rehash_buckets ht n nl indexes =
  rehash_chain n nl
    (concat (map (fun i => getLogAtIndex (Some ht) (Z.of_nat i)) indexes)).
Proof.
  induction indexes as [|i indexes IH]; intros nl; [reflexivity|].
  simpl. unfold rehash_chain at 2. rewrite fold_left_app.
  unfold rehash_buckets in IH. unfold rehash_buckets. simpl. rewrite IH.
  reflexivity.
Qed.

Lemma resize_size_range ht : 1 < size (resizeHashtable ht) < 2 ^ 32.
Proof. simpl. apply nearestPrime_isPrime, to_uint_range. Qed.

Lemma resize_logs ht :
  length (logs ht) = Z.to_nat (size ht) ->
  logs (resizeHashtable ht) =
  rehash_chain (size (resizeHashtable ht))
    (repeat [] (Z.to_nat (size (resizeHashtable ht)))) (all_logs ht).
Proof.
  intros L. simpl. rewrite rehash_buckets_concat, all_logs_chains by exact L.
  reflexivity.
Qed.

Lemma resize_length ht :
  length (logs ht) = Z.to_nat (size ht) ->
  length (logs (resizeHashtable ht)) = Z.to_nat (size (resizeHashtable ht)).
Proof.
  intros L. rewrite resize_logs by exact L.
  rewrite length_rehash_chain, repeat_length. reflexivity.
Qed.

(** Bucket [j] of the grown table: the records that land in [j], in the
    reverse of the order in which the old table is traversed. *)
Lemma resize_chain ht j :
  length (logs ht) = Z.to_nat (size ht) ->
  0 <= j < size (resizeHashtable ht) ->
  chain_at (resizeHashtable ht) j =
  rev (filter (lands_in (size (resizeHashtable ht)) j) (all_logs ht)).
Proof.
  intros L Hj. rewrite chain_at_nth by exact Hj.
  rewrite resize_logs by exact L.
  rewrite nth_rehash_chain.
  - rewrite Z2Nat.id by lia.
    rewrite nth_repeat. apply app_nil_r.
  - lia.
  - apply repeat_length.
  - rewrite repeat_length. lia.
Qed.

Lemma resize_perm ht :
  length (logs ht) = Z.to_nat (size ht) ->
  Permutation (all_logs (resizeHashtable ht)) (all_logs ht).
Proof.
  intros L. unfold all_logs at 1. rewrite resize_logs by exact L.
  pose proof (resize_size_range ht).
  rewrite concat_rehash_chain.
  - replace (concat (repeat [] _)) with (@nil Log);
      [rewrite app_nil_r; reflexivity|].
    generalize (Z.to_nat (size (resizeHashtable ht))).
    induction n; simpl; auto.
  - lia.
  - apply repeat_length.
Qed.

Lemma resize_consistent ht :
  length (logs ht) = Z.to_nat (size ht) ->
  buckets_consistent (resizeHashtable ht).
Proof.
  intros L i log Hi Hin.
  destruct (Z_lt_ge_dec i (size (resizeHashtable ht))) as [Hlt|Hge].
  - rewrite resize_chain in Hin by (auto; lia).
    apply in_rev, filter_In in Hin as [_ Hin].
    unfold lands_in in Hin. apply Z.eqb_eq in Hin. exact Hin.
  - rewrite chain_at_out in Hin by lia. destruct Hin.
Qed.

Lemma resize_wf ht :
  length (logs ht) = Z.to_nat (size ht) -> table_wf (resizeHashtable ht).
Proof.
  intros L. pose proof (resize_size_range ht).
  split; [lia|]. split; [apply resize_length, L|apply resize_consistent, L].
Qed.

(** ** [addLogToTable] *)

Lemma getLogAtIndex_count ht n i :
  getLogAtIndex
    (Some {| logs := logs ht; size := size ht; numElements := n |}) i =
  chain_at ht i.
Proof. reflexivity. Qed.

Lemma addLogToTable_empty ht log :
  0 < size ht < 2 ^ 32 ->
  chain_at ht (plateHash (getLogPlate log) (size ht)) = [] ->
  addLogToTable ht log = head_inserted ht log.
Proof.
  intros Hs He. unfold addLogToTable, getSize. cbn [logs size numElements].
  rewrite to_uint_to_int, (to_uint_small (size ht)) by (zpow; lia).
  rewrite getLogAtIndex_count, He. reflexivity.
Qed.

Lemma addLogToTable_append ht log :
  0 < size ht < 2 ^ 32 ->
  chain_at ht (plateHash (getLogPlate log) (size ht)) <> [] ->
  addLogToTable ht log =
  if load_factor_exceeded (to_uint (numElements ht + 1)) (getSize ht)
  then resizeHashtable (appended ht log)
  else appended ht log.
Proof.
  intros Hs He. unfold addLogToTable, getSize. cbn [logs size numElements].
  rewrite to_uint_to_int, (to_uint_small (size ht)) by (zpow; lia).
  rewrite getLogAtIndex_count.
  destruct (chain_at ht (plateHash (getLogPlate log) (size ht))) as [|c0 c] eqn:E;
    [congruence|].
  unfold appended. rewrite E. reflexivity.
Qed.

Lemma chain_at_store ht c n idx i :
  length (logs ht) = Z.to_nat (size ht) ->
  0 <= idx < size ht -> 0 <= i ->
  chain_at {| logs := store (Z.to_nat idx) c (logs ht);
              size := size ht; numElements := n |} i =
  if i =? idx then c else chain_at ht i.
Proof.
  intros L Hidx Hi. unfold chain_at, getLogAtIndex. cbn [logs size].
  destruct (Z.leb_spec (size ht) i).
  - destruct (Z.eqb_spec i idx); [lia|reflexivity].
  - destruct (Z.eqb_spec i idx) as [->|Hne].
    + apply nth_store_same. lia.
    + apply nth_store_other. lia.
Qed.

Section Insert.
Variables (ht : Hashtable) (log : Log).
Hypothesis Hwf : table_wf ht.
Let index := plateHash (getLogPlate log) (size ht).

Lemma index_range : 0 <= index < size ht.
Proof. apply plateHash_range. apply Hwf. Qed.

Lemma stored_wf c n :
  (forall x, In x c -> plateHash (getLogPlate x) (size ht) = index) ->
  table_wf {| logs := store (Z.to_nat index) c (logs ht);
              size := size ht; numElements := n |}.
Proof.
  destruct Hwf as (Hs & L & C). intros Hc.
  split; [exact Hs|]. split; [cbn [logs size]; rewrite length_store; exact L|].
  intros i x Hi Hin. cbn [size].
  rewrite chain_at_store in Hin by (auto using index_range).
  destruct (Z.eqb_spec i index) as [->|_]; [apply Hc, Hin|].
  apply C; assumption.
Qed.

Lemma stored_perm c c' n :
  Permutation c (c' ++ chain_at ht index) ->
  Permutation
    (all_logs {| logs := store (Z.to_nat index) c (logs ht);
                 size := size ht; numElements := n |})
    (c' ++ all_logs ht).
Proof.
  destruct Hwf as (Hs & L & C). intros P. unfold all_logs. cbn [logs].
  pose proof index_range.
  apply concat_store; [lia|].
  rewrite chain_at_nth in P by assumption. exact P.
Qed.

Lemma head_inserted_wf : table_wf (head_inserted ht log).
Proof.
  apply stored_wf. intros x [<-|[]]. reflexivity.
Qed.

Lemma appended_wf : table_wf (appended ht log).
Proof.
  apply stored_wf. intros x Hx. apply in_app_or in Hx as [Hx|[<-|[]]].
  - destruct Hwf as (_ & _ & C). apply C; [apply index_range|exact Hx].
  - reflexivity.
Qed.

Lemma head_inserted_perm :
  chain_at ht index = [] ->
  Permutation (all_logs (head_inserted ht log)) (log :: all_logs ht).
Proof.
  intros E. apply (stored_perm [log] [log]). rewrite E. reflexivity.
Qed.

Lemma appended_perm :
  Permutation (all_logs (appended ht log)) (log :: all_logs ht).
Proof.
  apply (stored_perm _ [log]). apply Permutation_app_comm.
Qed.

Lemma addLogToTable_wf : table_wf (addLogToTable ht log).
Proof.
  destruct (chain_at ht index) as [|c0 c] eqn:E.
  - rewrite addLogToTable_empty by (auto; apply Hwf).
    apply head_inserted_wf.
  - rewrite addLogToTable_append by (fold index; try rewrite E; try discriminate; apply Hwf).
    destruct (load_factor_exceeded _ _).
    + apply resize_wf. apply appended_wf.
    + apply appended_wf.
Qed.

Lemma addLogToTable_perm :
  Permutation (all_logs (addLogToTable ht log)) (log :: all_logs ht).
Proof.
  destruct (chain_at ht index) as [|c0 c] eqn:E.
  - rewrite addLogToTable_empty by (auto; apply Hwf).
    apply head_inserted_perm, E.
  - rewrite addLogToTable_append by (fold index; try rewrite E; try discriminate; apply Hwf).
    destruct (load_factor_exceeded _ _).
    + rewrite resize_perm by apply appended_wf. apply appended_perm.
    + apply appended_perm.
Qed.
End Insert.

Lemma newHashtable_wf : table_wf newHashtable.
Proof.
  split; [vm_compute; split; reflexivity|]. split; [reflexivity|].
  intros i log Hi Hin. exfalso. unfold chain_at, getLogAtIndex in Hin.
  destruct (size newHashtable <=? i); [exact Hin|].
  cbn [logs newHashtable] in Hin. rewrite nth_repeat in Hin. exact Hin.
Qed.

Lemma fold_insert_spec records : forall ht,
  table_wf ht ->
  table_wf (fold_left addLogToTable records ht) /\
  Permutation (all_logs (fold_left addLogToTable records ht))
              (all_logs ht ++ records).
Proof.
  induction records as [|r records IH]; intros ht Hwf; simpl.
  - split; [exact Hwf|]. rewrite app_nil_r. reflexivity.
  - destruct (IH (addLogToTable ht r) (addLogToTable_wf ht r Hwf)) as [W P].
    split; [exact W|]. rewrite P, addLogToTable_perm by exact Hwf.
    simpl. apply Permutation_middle.
Qed.

Lemma insert_all_wf records : table_wf (insert_all records).
Proof. apply fold_insert_spec, newHashtable_wf. Qed.

Lemma insert_all_perm records :
  Permutation (all_logs (insert_all records)) records.
Proof.
  destruct (fold_insert_spec records newHashtable newHashtable_wf) as [_ P].
  unfold insert_all. rewrite P. reflexivity.
Qed.

(** * The claims *)

(** ** Prime search *)

(** C7. For every [n] in [0, 10000], [nearestPrime n] is a prime number that
    is at least [n].  [n <= 1] maps to 2; otherwise the search starts from
    [n] forced odd and scans upward by 2 until [isPrime] succeeds, so the
    result is the least odd prime from [n] on.  In particular
    [nearestPrime 1 = 2] and [nearestPrime 53 = 53]. *)
Theorem nearestPrime_upto_10000 (n : Z) :
  0 <= n <= 10000 ->
  Z.prime (nearestPrime n) /\ n <= nearestPrime n /\
  (n <= 1 -> nearestPrime n = 2) /\
  (2 <= n ->
   forced_odd n <= nearestPrime n /\ nearestPrime n mod 2 = 1 /\
   forall j, n <= j < nearestPrime n -> j mod 2 = 1 ->
             isPrime j = false /\ ~ Z.prime j) /\
  nearestPrime 1 = 2 /\ nearestPrime 53 = 53.
Proof.
  intros Hn.
  assert (Hsmall : n <= 1 -> nearestPrime n = 2).
  { intros H. unfold nearestPrime. destruct (Z.leb_spec n 1); [reflexivity|lia]. }
  assert (Hbig : 2 <= n ->
            forced_odd n <= nearestPrime n <= 10007 /\
            nearestPrime n mod 2 = 1 /\ isPrime (nearestPrime n) = true /\
            forall j, n <= j < nearestPrime n -> j mod 2 = 1 ->
                      isPrime j = false).
  { intros H. apply (nearestPrime_below 10007 isPrime_10007);
      [reflexivity|reflexivity|lia]. }
  destruct (Z_le_gt_dec n 1) as [H1|H1].
  - rewrite (Hsmall H1). split; [apply Z.prime_2|]. split; [lia|].
    split; [reflexivity|]. split; [lia|]. split; reflexivity.
  - destruct Hbig as (Hr & Ho & Hp & Hall); [lia|].
    assert (n <= forced_odd n).
    { unfold forced_odd. destruct (n mod 2 =? 0); [|lia].
      rewrite to_uint_small by (zpow; lia). lia. }
    split; [apply isPrime_sound; [lia|exact Hp]|]. split; [lia|].
    split; [intros; lia|]. split; [|split; reflexivity].
    intros _. split; [lia|]. split; [exact Ho|].
    intros j Hj Hjo. split; [apply Hall; assumption|].
    apply isPrime_complete; [lia|apply Hall; assumption].
Qed.

Lemma nearestPrime_upto_10000_witness :
  0 <= 90 <= 10000 /\ Z.prime (nearestPrime 90) /\ 90 <= nearestPrime 90.
Proof.
  split; [lia|].
  destruct (nearestPrime_upto_10000 90 ltac:(lia)) as (H1 & H2 & _).
  split; [exact H1|exact H2].
Defined.




(** ** Reading a bucket *)

(** C9. [getLogAtIndex] returns [NULL] when the table handle is [NULL] or
    the index is at least the bucket count; otherwise it returns the head of
    the chain stored at that index, and that read is inside the array of a
    table that holds [size] buckets. *)
Theorem getLogAtIndex_total (ht : option Hashtable) (index : Z) :
  0 <= index ->
  (ht = None -> getLogAtIndex ht index = []) /\
  (forall t, ht = Some t -> size t <= index -> getLogAtIndex ht index = []) /\
  (forall t, ht = Some t -> index < size t ->
     getLogAtIndex ht index = nth (Z.to_nat index) (logs t) [] /\
     (length (logs t) = Z.to_nat (size t) ->
      nth_error (logs t) (Z.to_nat index) = Some (getLogAtIndex ht index))).
Proof.
  intros Hi. split; [intros ->; reflexivity|]. split.
  - intros t -> H. apply (chain_at_out t index H).
  - intros t -> H.
    assert (E : getLogAtIndex (Some t) index = nth (Z.to_nat index) (logs t) [])
      by (apply (chain_at_nth t index); lia).
    split; [exact E|]. intros L. rewrite E. apply nth_error_nth'. lia.
Qed.

Lemma getLogAtIndex_total_witness :
  0 <= 60 /\ getLogAtIndex (Some newHashtable) 60 = [].
Proof.
  split; [lia|].
  destruct (getLogAtIndex_total (Some newHashtable) 60 ltac:(lia))
    as (_ & H & _).
  apply (H newHashtable eq_refl). vm_compute. discriminate.
Defined.

(** ** Ordered merge *)

(** C1 does not hold of the code: whatever [sortBy] is, [merge] compares the
    park names first and the timestamps only between records of the same
    park.  With the "exit" key a record of park "B" that left at 10:00 is
    placed after a record of park "A" that left at 11:00, so the result is
    not in exit order. *)
Theorem mergeSort_exit_key_compares_park_first :
  mergeSort "s" [visit_B; visit_A] = [visit_A; visit_B] /\
  compareTimestamps (exitTimestamp visit_B) (exitTimestamp visit_A) = -1 /\
  ~ StronglySorted exit_then_park_le (mergeSort "s" [visit_B; visit_A]).
Proof.
  assert (E : mergeSort "s" [visit_B; visit_A] = [visit_A; visit_B])
    by (vm_compute; reflexivity).
  rewrite E. split; [reflexivity|]. split; [reflexivity|].
  intros S. apply StronglySorted_inv in S as [_ F].
  apply Forall_inv in F. unfold exit_then_park_le in F.
  vm_compute in F. destruct F as [F|[F _]]; discriminate.
Qed.

(** C6 as stated fails when two records share park name and exit time:
    [merge] then takes the head of the second chain first, so the two
    records swap at every sort. *)
Lemma mergeSort_swaps_ties :
  StronglySorted exit_then_park_le [tie_1; tie_2] /\
  mergeSort "s" [tie_1; tie_2] <> [tie_1; tie_2] /\
  mergeSort "s" (mergeSort "s" [tie_2; tie_1]) <> mergeSort "s" [tie_2; tie_1].
Proof.
  split.
  - constructor; [constructor; constructor|].
    constructor; [|constructor].
    right. split; [reflexivity|]. vm_compute. discriminate.
  - split; intros H; vm_compute in H; discriminate.
Qed.

Lemma one_park_exit_order sortBy park L :
  sortBy <> "e"%char ->
  Forall (fun log => parkName log = park) L ->
  StronglySorted
    (fun a b => compareTimestamps (exitTimestamp a) (exitTimestamp b) = -1) L ->
  StronglySorted (goes_before sortBy) L.
Proof.
  intros Hs HP S. induction S as [|a l S IH F]; [constructor|].
  apply Forall_cons_iff in HP as [Ha HP].
  constructor; [apply IH, HP|].
  rewrite Forall_forall in *. intros x Hx.
  apply goes_before_iff. right. split; [rewrite Ha; symmetry; apply HP, Hx|].
  unfold sort_key. destruct (Ascii.eqb_spec sortBy "e"); [contradiction|].
  apply compareTimestamps_lt, F, Hx.
Qed.

(** C6, amended.  [mergeSort] with a key other than 'e' returns its own
    output unchanged when no two records of the chain share both park name
    and exit timestamp, and returns unchanged a chain of records of one park
    that is in strictly ascending order of exit timestamp. *)
Theorem mergeSort_exit_idempotent (sortBy : ascii) (L : list Log) :
  sortBy <> "e"%char ->
  (NoDup (map (fun log => (parkName log, exitTimestamp log)) L) ->
   mergeSort sortBy (mergeSort sortBy L) = mergeSort sortBy L) /\
  (forall park,
     Forall (fun log => parkName log = park) L ->
     StronglySorted
       (fun a b => compareTimestamps (exitTimestamp a) (exitTimestamp b) = -1)
       L ->
     mergeSort sortBy L = L).
Proof.
  intros Hs. split.
  - intros N. apply mergeSort_twice.
    erewrite map_ext; [exact N|]. intros log. unfold sort_key.
    destruct (Ascii.eqb_spec sortBy "e"); [contradiction|reflexivity].
  - intros park HP S. apply mergeSort_fixed.
    eapply one_park_exit_order; eauto.
Qed.

Lemma mergeSort_exit_idempotent_witness :
  "s"%char <> "e"%char /\
  mergeSort "s" (mergeSort "s" [visit_B; visit_A; tie_2]) =
  mergeSort "s" [visit_B; visit_A; tie_2].
Proof.
  assert (H : "s"%char <> "e"%char) by discriminate.
  split; [exact H|].
  apply (proj1 (mergeSort_exit_idempotent "s" [visit_B; visit_A; tie_2] H)).
  repeat constructor; simpl; intros C;
    repeat (destruct C as [C|C]; [discriminate|]); exact C.
Defined.

(** ** Growing the table *)

Lemma precedes_app a b l pre post :
  precedes a b l -> precedes a b (pre ++ l ++ post).
Proof.
  intros (l1 & l2 & l3 & ->). exists (pre ++ l1), l2, (l3 ++ post).
  rewrite <- !app_assoc. simpl. rewrite <- app_assoc. reflexivity.
Qed.

Lemma precedes_filter (P : Log -> bool) a b l :
  P a = true -> P b = true -> precedes a b l -> precedes a b (filter P l).
Proof.
  intros Pa Pb (l1 & l2 & l3 & ->).
  exists (filter P l1), (filter P l2), (filter P l3).
  rewrite filter_app. simpl. rewrite Pa, filter_app. simpl. rewrite Pb.
  reflexivity.
Qed.

Lemma precedes_rev a b l : precedes a b l -> precedes b a (rev l).
Proof.
  intros (l1 & l2 & l3 & ->). exists (rev l3), (rev l2), (rev l1).
  rewrite rev_app_distr. simpl. rewrite rev_app_distr. simpl.
  rewrite <- !app_assoc. reflexivity.
Qed.

Lemma precedes_pair a b x y : precedes a b [x; y] -> a = x /\ b = y.
Proof.
  intros (l1 & l2 & l3 & E).
  destruct l1 as [|z1 [|z2 l1]]; simpl in E.
  - inversion E as [[Ha E']]. destruct l2 as [|z l2]; simpl in E'.
    + inversion E'. auto.
    + inversion E' as [[Hz E'']]. destruct l2; discriminate.
  - inversion E as [[Ha Hb E']]. destruct l2; discriminate.
  - inversion E as [[Ha Hb E']]. destruct l1; discriminate.
Qed.

(** C3 as stated fails: two successive entries of one plate share a chain,
    and after [resizeHashtable] the later one comes first. *)
Lemma resize_swaps_chain_neighbours :
  let ht := insert_all [open_1; open_2] in
  let ht' := resizeHashtable ht in
  table_wf ht /\
  precedes open_1 open_2 (chain_at ht 24) /\
  plateHash (getLogPlate open_1) (size ht') = 94 /\
  plateHash (getLogPlate open_2) (size ht') = 94 /\
  chain_at ht' 94 = [open_2; open_1] /\
  ~ precedes open_1 open_2 (chain_at ht' 94).
Proof.
  cbv zeta. split; [apply insert_all_wf|].
  split; [exists [], [], []; vm_compute; reflexivity|].
  split; [vm_compute; reflexivity|]. split; [vm_compute; reflexivity|].
  assert (E : chain_at (resizeHashtable (insert_all [open_1; open_2])) 94
              = [open_2; open_1]) by (vm_compute; reflexivity).
  rewrite E. split; [reflexivity|].
  intros H. apply precedes_pair in H as [H _]. discriminate.
Qed.

(** C3, amended.  [resizeHashtable] inserts at the head of the new chains:
    every new chain lists the records that land in it in the reverse of the
    order in which the old table is traversed, so two records of one old
    chain that land in the same new bucket appear there in the reverse of
    their old relative order. *)
Theorem resize_reverses_chain_order (ht : Hashtable) (a b : Log) (i : Z) :
  table_wf ht -> 0 <= i < size ht ->
  precedes a b (chain_at ht i) ->
  plateHash (getLogPlate a) (size (resizeHashtable ht)) =
  plateHash (getLogPlate b) (size (resizeHashtable ht)) ->
  let ht' := resizeHashtable ht in
  let j := plateHash (getLogPlate a) (size ht') in
  precedes b a (chain_at ht' j) /\
  chain_at ht' j = rev (filter (lands_in (size ht') j) (all_logs ht)).
Proof.
  intros (Hs & L & C) Hi Hp Hab ht' j. subst ht' j.
  pose proof (resize_size_range ht) as Hr.
  pose proof (plateHash_range (getLogPlate a) (size (resizeHashtable ht))
                ltac:(lia)) as Hj.
  rewrite resize_chain by assumption. split; [|reflexivity].
  apply precedes_rev, precedes_filter.
  - unfold lands_in. apply Z.eqb_refl.
  - unfold lands_in. apply Z.eqb_eq. symmetry. exact Hab.
  - destruct (nth_concat_split (logs ht) (Z.to_nat i)) as (pre & post & E);
      [lia|].
    unfold all_logs. rewrite E. apply precedes_app.
    rewrite <- chain_at_nth by exact Hi. exact Hp.
Qed.

Lemma resize_reverses_chain_order_witness :
  let ht := insert_all [open_1; open_2] in
  precedes open_2 open_1
    (chain_at (resizeHashtable ht)
       (plateHash (getLogPlate open_1) (size (resizeHashtable ht)))).
Proof.
  cbv zeta.
  refine (proj1 (resize_reverses_chain_order (insert_all [open_1; open_2])
                   open_1 open_2 24 (insert_all_wf _) _ _ _)).
  - vm_compute. split; [discriminate|reflexivity].
  - exists [], [], []. vm_compute. reflexivity.
  - reflexivity.
Defined.

(** C5.  [resizeHashtable] keeps the records of the table, each exactly as
    many times as before, and after [resizeHashtable] and after
    [addLogToTable] every record reachable from bucket [i] hashes to [i]
    under the bucket count of the resulting table, which is again a table
    on which both operations can go on. *)
Theorem grow_and_insert_keep_buckets_consistent (ht : Hashtable) :
  table_wf ht ->
  Permutation (all_logs (resizeHashtable ht)) (all_logs ht) /\
  (forall i log,
     0 <= i -> In log (chain_at (resizeHashtable ht) i) ->
     plateHash (getLogPlate log) (size (resizeHashtable ht)) = i) /\
  table_wf (resizeHashtable ht) /\
  forall r,
    (forall i log,
       0 <= i -> In log (chain_at (addLogToTable ht r) i) ->
       plateHash (getLogPlate log) (size (addLogToTable ht r)) = i) /\
    table_wf (addLogToTable ht r).
Proof.
  intros Hwf. pose proof Hwf as (Hs & L & C).
  split; [apply resize_perm, L|].
  split; [apply resize_consistent, L|].
  split; [apply resize_wf, L|].
  intros r. pose proof (addLogToTable_wf ht r Hwf) as W.
  split; [apply W|exact W].
Qed.

Lemma grow_and_insert_keep_buckets_consistent_witness :
  table_wf (insert_all [open_1; open_2]) /\
  Permutation (all_logs (resizeHashtable (insert_all [open_1; open_2])))
              (all_logs (insert_all [open_1; open_2])).
Proof.
  split; [apply insert_all_wf|].
  apply (grow_and_insert_keep_buckets_consistent
           (insert_all [open_1; open_2]) (insert_all_wf _)).
Defined.

(** Every table built by inserts alone holds exactly the inserted records,
    each in the bucket of its hash. *)
Lemma insert_all_consistent records :
  buckets_consistent (insert_all records) /\
  Permutation (all_logs (insert_all records)) records.
Proof. split; [apply insert_all_wf|apply insert_all_perm]. Qed.

(** ** Finding the open record of a plate *)

Lemma scan_open_find plate chain :
  scan_open plate chain = find (is_open plate) chain.
Proof.
  induction chain as [|log chain IH]; simpl; [reflexivity|].
  unfold is_open at 1. rewrite strcmp_eqb, IH. reflexivity.
Qed.

Lemma is_open_plate plate log : is_open plate log = true -> getLogPlate log = plate.
Proof.
  unfold is_open. intros H. apply andb_prop in H as [H _].
  apply String.eqb_eq, H.
Qed.

Lemma filter_at_most_one {A} (P : A -> bool) (l : list A) x y :
  (length (filter P l) <= 1)%nat ->
  In x l -> P x = true -> In y l -> P y = true -> x = y.
Proof.
  intros Hlen Hx Px Hy Py.
  assert (Fx : In x (filter P l)) by (apply filter_In; auto).
  assert (Fy : In y (filter P l)) by (apply filter_In; auto).
  destruct (filter P l) as [|z [|z' f]]; simpl in *; try lia; try tauto.
  destruct Fx as [<-|[]], Fy as [<-|[]]. reflexivity.
Qed.

(** An open record of [plate] that is in the table is in the chain that
    [getPlateLastLogWithoutExit] scans. *)
Lemma open_record_in_scanned_chain ht plate log :
  table_wf ht -> In log (all_logs ht) -> is_open plate log = true ->
  In log (chain_at ht (plateHash plate (size ht))).
Proof.
  intros (Hs & L & C) Hin Ho.
  apply in_all_logs in Hin as (i & Hi & Hin); [|exact L].
  rewrite <- (is_open_plate _ _ Ho). rewrite (C i log) by (auto; lia).
  exact Hin.
Qed.

(** C4 as stated fails: of two open records of one plate the scan returns
    the one inserted first. *)
Lemma open_entry_found_is_the_oldest :
  getPlateLastLogWithoutExit (insert_all [open_1; open_2]) "AA-00-00"
    = Some open_1 /\
  most_recent_open "AA-00-00" [open_1; open_2] = Some open_2 /\
  getPlateLastLogWithoutExit (insert_all [open_1; open_2]) "AA-00-00"
    <> most_recent_open "AA-00-00" [open_1; open_2].
Proof.
  assert (E1 : getPlateLastLogWithoutExit (insert_all [open_1; open_2])
                 "AA-00-00" = Some open_1) by (vm_compute; reflexivity).
  assert (E2 : most_recent_open "AA-00-00" [open_1; open_2] = Some open_2)
    by (vm_compute; reflexivity).
  rewrite E1, E2. split; [reflexivity|]. split; [reflexivity|]. discriminate.
Qed.

(** C4, amended.  After any sequence of inserts,
    [getPlateLastLogWithoutExit] returns the first record of the plate's
    bucket chain whose plate is equal and whose exit timestamp is unset, and
    none when there is no such record; when the inserted records hold at
    most one open record of the plate, that is the open record of the plate
    inserted last. *)
Theorem find_open_entry_after_inserts (records : list Log) (plate : string) :
  let ht := insert_all records in
  getPlateLastLogWithoutExit ht plate =
    find (is_open plate) (chain_at ht (plateHash plate (size ht))) /\
  ((length (filter (is_open plate) records) <= 1)%nat ->
   getPlateLastLogWithoutExit ht plate = most_recent_open plate records).
Proof.
  cbv zeta.
  pose proof (insert_all_wf records) as Hwf.
  pose proof (insert_all_perm records) as Hperm.
  assert (E : getPlateLastLogWithoutExit (insert_all records) plate =
              find (is_open plate)
                (chain_at (insert_all records)
                   (plateHash plate (size (insert_all records))))).
  { unfold getPlateLastLogWithoutExit.
    rewrite getSize_uint by apply Hwf. apply scan_open_find. }
  split; [exact E|]. intros Hone. rewrite E. unfold most_recent_open.
  set (chain := chain_at _ _).
  assert (Hchain : forall x, In x chain -> In x records).
  { intros x Hx. apply (Permutation_in _ Hperm).
    apply in_all_logs; [apply Hwf|].
    exists (plateHash plate (size (insert_all records))).
    split; [apply plateHash_range, Hwf|exact Hx]. }
  destruct (find (is_open plate) (rev records)) as [y|] eqn:Fr.
  - apply find_some in Fr as [Hy Py]. apply in_rev in Hy.
    assert (Hyc : In y chain).
    { apply open_record_in_scanned_chain; auto.
      apply (Permutation_in _ (Permutation_sym Hperm)), Hy. }
    destruct (find (is_open plate) chain) as [x|] eqn:Fc.
    + apply find_some in Fc as [Hx Px]. f_equal.
      apply (filter_at_most_one (is_open plate) records); auto.
    + exfalso. apply (find_none _ _ Fc) in Hyc. congruence.
  - destruct (find (is_open plate) chain) as [x|] eqn:Fc; [|reflexivity].
    exfalso. apply find_some in Fc as [Hx Px].
    apply Hchain, in_rev in Hx. apply (find_none _ _ Fr) in Hx. congruence.
Qed.

Lemma find_open_entry_after_inserts_witness :
  (length (filter (is_open "AA-00-00")
             [open_1; entry_record "AA-00-01" "A" (at_time 9 0)]) <= 1)%nat /\
  getPlateLastLogWithoutExit
    (insert_all [open_1; entry_record "AA-00-01" "A" (at_time 9 0)])
    "AA-00-00" =
  most_recent_open "AA-00-00"
    [open_1; entry_record "AA-00-01" "A" (at_time 9 0)].
Proof.
  assert (H : (length (filter (is_open "AA-00-00")
                 [open_1; entry_record "AA-00-01" "A" (at_time 9 0)]) <= 1)%nat)
    by (vm_compute; lia).
  split; [exact H|].
  apply (proj2 (find_open_entry_after_inserts
                  [open_1; entry_record "AA-00-01" "A" (at_time 9 0)]
                  "AA-00-00") H).
Defined.

(** ** Inserting *)

Lemma load_factor_exceeded_iff ht n :
  0 < size ht < 2 ^ 31 ->
  load_factor_exceeded n (getSize ht) = false <->
  (inject_Z n / inject_Z (size ht) <= LOAD_FACTOR_THRESHOLD)%Q.
Proof.
  intros Hs. unfold load_factor_exceeded, getSize.
  rewrite to_int_small by lia. rewrite negb_false_iff. apply Qle_bool_iff.
Qed.

(** C2 as stated fails: 39 entries of one plate fill one chain without
    reaching the threshold, 52 entries then take the 52 empty buckets
    without any test, and the next append finds 92 records in 53 buckets;
    the table grows once, to 107 buckets, and 92 / 107 is above 0.75. *)
Lemma load_factor_above_threshold_after_append :
  let ht := insert_all (same_plate_entries 39 ++ other_bucket_entries) in
  let r := entry_record "AA-00-00" "A" (at_time 2 0) in
  size ht = 53 /\ numElements ht = 91 /\
  chain_at ht (plateHash (getLogPlate r) (size ht)) <> [] /\
  size (addLogToTable ht r) = 107 /\ numElements (addLogToTable ht r) = 92 /\
  ~ (load_factor (addLogToTable ht r) <= LOAD_FACTOR_THRESHOLD)%Q.
Proof.
  cbv zeta. split; [vm_compute; reflexivity|].
  split; [vm_compute; reflexivity|].
  split; [intros H; vm_compute in H; discriminate|].
  split; [vm_compute; reflexivity|]. split; [vm_compute; reflexivity|].
  intros H. vm_compute in H. apply H. reflexivity.
Qed.

(** C2, amended.  After any sequence of inserts, an insert that goes
    through the append path either leaves the bucket count as it is, and
    then element count / bucket count is at most 0.75 afterwards, or finds
    the ratio above 0.75 and grows the table once, to
    [nearestPrime (2 * size + 1)] buckets. *)
Theorem append_path_load_factor (records : list Log) (r : Log) :
  let ht := insert_all records in
  size ht < 2 ^ 31 ->
  chain_at ht (plateHash (getLogPlate r) (size ht)) <> [] ->
  (addLogToTable ht r = appended ht r /\
   size (addLogToTable ht r) = size ht /\
   (load_factor (addLogToTable ht r) <= LOAD_FACTOR_THRESHOLD)%Q) \/
  (addLogToTable ht r = resizeHashtable (appended ht r) /\
   ~ (load_factor (appended ht r) <= LOAD_FACTOR_THRESHOLD)%Q /\
   size (addLogToTable ht r) = nearestPrime (2 * size ht + 1)).
Proof.
  cbv zeta. set (ht := insert_all records). intros Hs Hc.
  pose proof (insert_all_wf records) as (Hr & _). fold ht in Hr.
  rewrite addLogToTable_append by assumption.
  destruct (load_factor_exceeded (to_uint (numElements ht + 1)) (getSize ht))
    eqn:E.
  - right. split; [reflexivity|]. split.
    + intros H.
      apply (load_factor_exceeded_iff ht (to_uint (numElements ht + 1))) in H;
        [congruence|lia].
    + cbn [size resizeHashtable appended]. f_equal.
      rewrite (to_uint_small (size ht * 2)) by (zpow; lia).
      rewrite to_uint_small by (zpow; lia). lia.
  - left. split; [reflexivity|]. split; [reflexivity|].
    apply (load_factor_exceeded_iff ht); [lia|exact E].
Qed.

Lemma append_path_load_factor_witness :
  let ht := insert_all [open_1] in
  size ht < 2 ^ 31 /\
  chain_at ht (plateHash (getLogPlate open_2) (size ht)) <> [] /\
  (load_factor (addLogToTable ht open_2) <= LOAD_FACTOR_THRESHOLD)%Q.
Proof.
  cbv zeta.
  assert (H1 : size (insert_all [open_1]) < 2 ^ 31) by reflexivity.
  assert (H2 : chain_at (insert_all [open_1])
                 (plateHash (getLogPlate open_2) (size (insert_all [open_1])))
               <> []) by (vm_compute; discriminate).
  split; [exact H1|]. split; [exact H2|].
  destruct (append_path_load_factor [open_1] open_2 H1 H2)
    as [(_ & _ & H)|(_ & H & _)]; [exact H|].
  exfalso. apply H. vm_compute. discriminate.
Defined.

Lemma concat_store_parts {A} (c : list A) : forall (l : list (list A)) i,
  (i < length l)%nat ->
  concat l = concat (firstn i l) ++ nth i l [] ++ concat (skipn (S i) l) /\
  concat (store i c l) = concat (firstn i l) ++ c ++ concat (skipn (S i) l).
Proof.
  induction l as [|y l IH]; intros [|i] H; cbn [length] in H; try lia;
    cbn [store firstn skipn nth concat app].
  - split; reflexivity.
  - destruct (IH i) as (E1 & E2); [lia|].
    rewrite <- !app_assoc. split; f_equal; assumption.
Qed.

Lemma precedes_in_tail a b l1 l2 :
  In b l2 -> precedes a b (l1 ++ a :: l2).
Proof.
  intros H. apply in_split in H as (m1 & m2 & ->).
  exists l1, m1, m2. reflexivity.
Qed.

(** C10 as stated fails on the path that grows the table: the 40th entry
    of one plate is linked at the end of its chain, the table grows, and in
    the grown table the new record is the head of its chain, before the 39
    older ones. *)
Lemma appended_record_moves_to_head_on_growth :
  let ht := insert_all (same_plate_entries 39) in
  let r := entry_record "AA-00-00" "A" (at_time 2 0) in
  let chain' :=
    chain_at (addLogToTable ht r)
      (plateHash (getLogPlate r) (size (addLogToTable ht r))) in
  chain_at ht (plateHash (getLogPlate r) (size ht)) <> [] /\
  length chain' = 40%nat /\ hd_error chain' = Some r /\ last chain' r <> r.
Proof.
  cbv zeta. split; [intros H; vm_compute in H; discriminate|].
  split; [vm_compute; reflexivity|]. split; [vm_compute; reflexivity|].
  intros H. vm_compute in H. discriminate.
Qed.

(** C10, amended.  [addLogToTable] performs no check on the plate: whatever
    the table holds, also an open record of the same plate, the new record
    is added and every older record stays.  The new record is reachable from
    the bucket of its hash: as the only record of the bucket when the bucket
    was empty; otherwise it is linked at the end of the chain.  There it
    stays when the load factor is at most the threshold.  When it is above,
    the table with the record at the end of its chain is rehashed by
    [resizeHashtable]: in the chain of its new bucket the record then comes
    after the records of the old buckets above its own that land there, and
    before the older records of its own old chain and of the old buckets
    below that land there.  A record made by [newLog] has both timestamps
    unset and is open. *)
Theorem addLogToTable_always_links (ht : Hashtable) (r : Log) :
  table_wf ht ->
  let index := plateHash (getLogPlate r) (size ht) in
  let ht' := addLogToTable ht r in
  let index' := plateHash (getLogPlate r) (size ht') in
  let below := concat (firstn (Z.to_nat index) (logs ht)) in
  let above := concat (skipn (S (Z.to_nat index)) (logs ht)) in
  Permutation (all_logs ht') (r :: all_logs ht) /\
  (forall q, In q (all_logs ht) -> In q (all_logs ht')) /\
  In r (chain_at ht' index') /\
  (chain_at ht index = [] ->
   size ht' = size ht /\ chain_at ht' index = [r]) /\
  (chain_at ht index <> [] ->
   chain_at (appended ht r) index = chain_at ht index ++ [r] /\
   (ht' = appended ht r \/ ht' = resizeHashtable (appended ht r)) /\
   all_logs ht = below ++ chain_at ht index ++ above /\
   if load_factor_exceeded (to_uint (numElements ht + 1)) (getSize ht)
   then
     ht' = resizeHashtable (appended ht r) /\
     chain_at ht' index' =
       rev (filter (lands_in (size ht') index') above) ++
       r :: rev (filter (lands_in (size ht') index') (chain_at ht index)) ++
            rev (filter (lands_in (size ht') index') below) /\
     (forall x, In x (chain_at ht index ++ below) ->
        plateHash (getLogPlate x) (size ht') = index' ->
        precedes r x (chain_at ht' index'))
   else
     ht' = appended ht r /\ size ht' = size ht /\
     chain_at ht' index = chain_at ht index ++ [r]) /\
  (forall plate park,
     entryTimestamp (newLog plate park) = INITIAL_TIMESTAMP /\
     exitTimestamp (newLog plate park) = INITIAL_TIMESTAMP /\
     is_open plate (newLog plate park) = true).
Proof.
  intros Hwf index ht' index' below above.
  pose proof Hwf as (Hs & L & C).
  pose proof (addLogToTable_perm ht r Hwf) as P.
  pose proof (addLogToTable_wf ht r Hwf) as (Hs' & L' & C').
  pose proof (plateHash_range (getLogPlate r) (size ht) ltac:(lia)) as Hi.
  fold index in Hi. fold ht' in P, Hs', L', C'.
  assert (Hin : In r (all_logs ht'))
    by (apply (Permutation_in _ (Permutation_sym P)); left; reflexivity).
  split; [exact P|]. split.
  { intros q Hq. apply (Permutation_in _ (Permutation_sym P)). right. exact Hq. }
  split.
  { apply in_all_logs in Hin as (i & Hi' & Hin); [|exact L'].
    subst index'. rewrite (C' i r) by (auto; lia). exact Hin. }
  split; [|split].
  - intros E. subst ht'. rewrite addLogToTable_empty by assumption.
    split; [reflexivity|]. unfold head_inserted. fold index.
    rewrite chain_at_store by (auto; lia). rewrite Z.eqb_refl. reflexivity.
  - intros E.
    assert (Ea : chain_at (appended ht r) index = chain_at ht index ++ [r]).
    { unfold appended. fold index.
      rewrite chain_at_store by (auto; lia). rewrite Z.eqb_refl. reflexivity. }
    assert (Hadd : ht' =
              if load_factor_exceeded (to_uint (numElements ht + 1)) (getSize ht)
              then resizeHashtable (appended ht r) else appended ht r).
    { subst ht'. apply addLogToTable_append; assumption. }
    assert (Hi' : (Z.to_nat index < length (logs ht))%nat) by lia.
    destruct (concat_store_parts (chain_at ht index ++ [r]) (logs ht)
                (Z.to_nat index) Hi') as (Eall & Eapp).
    rewrite <- chain_at_nth in Eall by exact Hi.
    fold below above in Eall, Eapp.
    split; [exact Ea|]. split.
    { rewrite Hadd. destruct (load_factor_exceeded _ _); auto. }
    split; [exact Eall|].
    destruct (load_factor_exceeded (to_uint (numElements ht + 1)) (getSize ht)).
    + split; [exact Hadd|].
      pose proof (appended_wf ht r Hwf) as (Hsa & La & _).
      assert (Hj : 0 <= index' < size ht')
        by (apply plateHash_range; lia).
      assert (Ec : chain_at ht' index' =
                rev (filter (lands_in (size ht') index') above) ++
                r :: rev (filter (lands_in (size ht') index')
                            (chain_at ht index)) ++
                     rev (filter (lands_in (size ht') index') below)).
      { rewrite Hadd at 1. rewrite resize_chain;
          [|exact La|rewrite <- Hadd; exact Hj].
        rewrite <- Hadd. unfold all_logs, appended. cbn [logs].
        fold index. rewrite Eapp.
        rewrite !filter_app, !rev_app_distr, <- !app_assoc. cbn [filter].
        replace (lands_in (size ht') index' r) with true
          by (symmetry; apply Z.eqb_refl).
        reflexivity. }
      split; [exact Ec|].
      intros x Hx Hl. rewrite Ec. apply precedes_in_tail.
      assert (Hlx : lands_in (size ht') index' x = true)
        by (apply Z.eqb_eq, Hl).
      apply in_app_or in Hx as [Hx|Hx]; apply in_or_app; [left|right];
        rewrite <- in_rev; apply filter_In; split; assumption.
    + split; [exact Hadd|]. rewrite Hadd. split; [reflexivity|exact Ea].
  - intros p park. split; [reflexivity|]. split; [reflexivity|].
    unfold is_open, newLog, getLogPlate, getExitTimestamp.
    cbn [plate exitTimestamp]. rewrite String.eqb_refl. reflexivity.
Qed.

Lemma addLogToTable_always_links_witness :
  table_wf one_chain_table /\
  chain_at one_chain_table
    (plateHash (getLogPlate growing_entry) (size one_chain_table)) <> [] /\
  load_factor_exceeded (to_uint (numElements one_chain_table + 1))
    (getSize one_chain_table) = true /\
  (forall x,
     In x (chain_at one_chain_table
             (plateHash (getLogPlate growing_entry) (size one_chain_table))) ->
     plateHash (getLogPlate x)
       (size (addLogToTable one_chain_table growing_entry))
     = plateHash (getLogPlate growing_entry)
         (size (addLogToTable one_chain_table growing_entry)) ->
     precedes growing_entry x
       (chain_at (addLogToTable one_chain_table growing_entry)
          (plateHash (getLogPlate growing_entry)
             (size (addLogToTable one_chain_table growing_entry))))).
Proof.
  assert (Hwf : table_wf one_chain_table) by apply insert_all_wf.
  assert (Hne : chain_at one_chain_table
                  (plateHash (getLogPlate growing_entry)
                     (size one_chain_table)) <> [])
    by (intros H; vm_compute in H; discriminate).
  assert (E : load_factor_exceeded (to_uint (numElements one_chain_table + 1))
                (getSize one_chain_table) = true)
    by (vm_compute; reflexivity).
  split; [exact Hwf|]. split; [exact Hne|]. split; [exact E|].
  pose proof (addLogToTable_always_links one_chain_table growing_entry Hwf)
    as H.
  cbv zeta in H.
  destruct H as (_ & _ & _ & _ & H & _).
  destruct (H Hne) as (_ & _ & _ & G). rewrite E in G.
  destruct G as (_ & _ & G).
  intros x Hx. apply G. apply in_or_app. left. exact Hx.
Defined.

(** * Further properties of the code *)

(** ** Timestamps *)

(** X1.  [compareTimestamps] is the three-way comparison of a total order:
    it answers -1, 0 or 1, swapping the arguments negates the answer, the
    answer is 0 exactly for equal timestamps, and "earlier than" is
    transitive. *)
Theorem compareTimestamps_total_order (t1 t2 t3 : Timestamp) :
  (compareTimestamps t1 t2 = -1 \/ compareTimestamps t1 t2 = 0 \/
   compareTimestamps t1 t2 = 1) /\
  compareTimestamps t2 t1 = - compareTimestamps t1 t2 /\
  (compareTimestamps t1 t2 = 0 <-> t1 = t2) /\
  (compareTimestamps t1 t2 = -1 -> compareTimestamps t2 t3 = -1 ->
   compareTimestamps t1 t3 = -1).
Proof.
  split; [|split; [|split]].
  - timestamp_cases t1 t2. lia.
  - unfold compareTimestamps, compareDate.
    repeat match goal with
           | |- context [?a =? ?b] =>
               lazymatch a with
               | year _ => idtac | month _ => idtac | day _ => idtac
               | hour _ => idtac | minute _ => idtac
               end;
               destruct (Z.eqb_spec a b); cbn [negb]
           | |- context [?a <? ?b] =>
               lazymatch a with
               | year _ => idtac | month _ => idtac | day _ => idtac
               | hour _ => idtac | minute _ => idtac
               end;
               destruct (Z.ltb_spec a b)
           end; simpl; try lia.
  - apply compareTimestamps_eq.
  - rewrite !compareTimestamps_lt. apply ts_lt_trans.
Qed.

Lemma validTimestamp_ranges t :
  validTimestamp t = true ->
  1 <= month t <= 12 /\
  1 <= day t <= nth (Z.to_nat (month t - 1)) DAYS_IN_MONTH 0 /\
  0 <= hour t <= 23 /\ 0 <= minute t <= 59.
Proof.
  unfold validTimestamp. cbv zeta.
  destruct (Z.ltb_spec (month t) 1); [discriminate|].
  destruct (Z.gtb_spec (month t) 12); [discriminate|]. cbn [orb].
  destruct (Z.ltb_spec (day t) 1); [discriminate|].
  destruct (Z.gtb_spec (day t) (nth (Z.to_nat (month t - 1)) DAYS_IN_MONTH 0));
    [discriminate|]. cbn [orb].
  destruct (Z.ltb_spec (hour t) 0); [discriminate|].
  destruct (Z.gtb_spec (hour t) 23); [discriminate|]. cbn [orb].
  destruct (Z.ltb_spec (minute t) 0); [discriminate|].
  destruct (Z.gtb_spec (minute t) 59); [discriminate|]. cbn [orb].
  intros _. lia.
Qed.

Lemma compareTimestamps_total_order_witness :
  compareTimestamps (at_time 8 0) (at_time 9 0) = -1 /\
  compareTimestamps (at_time 9 0) (at_time 10 0) = -1 /\
  compareTimestamps (at_time 8 0) (at_time 10 0) = -1.
Proof.
  assert (H1 : compareTimestamps (at_time 8 0) (at_time 9 0) = -1)
    by reflexivity.
  assert (H2 : compareTimestamps (at_time 9 0) (at_time 10 0) = -1)
    by reflexivity.
  split; [exact H1|]. split; [exact H2|].
  exact (proj2 (proj2 (proj2 (compareTimestamps_total_order _ _ _))) H1 H2).
Defined.

Lemma compareTimestamps_total_order_aux t1 t2 :
  (compareTimestamps t1 t2 = -1 \/ compareTimestamps t1 t2 = 0 \/
   compareTimestamps t1 t2 = 1) /\
  (compareTimestamps t1 t2 = 1 <-> compareTimestamps t2 t1 = -1).
Proof.
  split; [timestamp_cases t1 t2; lia|].
  rewrite (compareTimestamps_lt t2 t1). timestamp_cases t1 t2. lia.
Qed.











Lemma month_table m :
  1 <= m <= 12 ->
  let dim := nth (Z.to_nat (m - 1)) DAYS_IN_MONTH 0 in
  let dbm := days_before_month m in
  (m = 1 /\ dbm = 0 /\ dim = 31) \/ (m = 2 /\ dbm = 31 /\ dim = 28) \/
  (m = 3 /\ dbm = 59 /\ dim = 31) \/ (m = 4 /\ dbm = 90 /\ dim = 30) \/
  (m = 5 /\ dbm = 120 /\ dim = 31) \/ (m = 6 /\ dbm = 151 /\ dim = 30) \/
  (m = 7 /\ dbm = 181 /\ dim = 31) \/ (m = 8 /\ dbm = 212 /\ dim = 31) \/
  (m = 9 /\ dbm = 243 /\ dim = 30) \/ (m = 10 /\ dbm = 273 /\ dim = 31) \/
  (m = 11 /\ dbm = 304 /\ dim = 30) \/ (m = 12 /\ dbm = 334 /\ dim = 31).
Proof.
  intros H.
  assert (C : m = 1 \/ m = 2 \/ m = 3 \/ m = 4 \/ m = 5 \/ m = 6 \/
              m = 7 \/ m = 8 \/ m = 9 \/ m = 10 \/ m = 11 \/ m = 12) by lia.
  cbv zeta.
  destruct C as [E|[E|[E|[E|[E|[E|[E|[E|[E|[E|[E|E]]]]]]]]]]]; subst m;
    vm_compute; tauto.
Qed.

Lemma validTimestamp_not_initial (t : Timestamp) :
  validTimestamp t = true -> isInitialTimestamp t = false.
Proof.
  intros V. destruct (validTimestamp_ranges t V) as (Hm & _).
  unfold isInitialTimestamp. apply Z.eqb_neq. rewrite compareTimestamps_eq.
  intros ->. simpl in Hm. lia.
Qed.

(** X2.  A timestamp accepted by [validTimestamp] has its month in 1..12,
    its day in 1..31 and at most 28 in February, its hour in 0..23 and its
    minute in 0..59; it is never the sentinel [INITIAL_TIMESTAMP], so a
    registered entry or exit time is never taken for an unset one. *)
Theorem valid_timestamp_is_not_initial (t : Timestamp) :
  validTimestamp t = true ->
  isInitialTimestamp t = false /\
  (1 <= month t <= 12) /\ (1 <= day t <= 31) /\
  (month t = 2 -> day t <= 28) /\
  (0 <= hour t <= 23) /\ (0 <= minute t <= 59).
Proof.
  intros V. destruct (validTimestamp_ranges t V) as (Hm & Hd & Hh & Hmi).
  split.
  - apply validTimestamp_not_initial, V.
  - pose proof (month_table (month t) Hm) as T. cbv zeta in T.
    repeat split; try lia.
Qed.

Lemma valid_timestamp_is_not_initial_witness :
  validTimestamp (at_time 10 30) = true /\
  isInitialTimestamp (at_time 10 30) = false.
Proof.
  assert (V : validTimestamp (at_time 10 30) = true) by reflexivity.
  split; [exact V|].
  exact (proj1 (valid_timestamp_is_not_initial (at_time 10 30) V)).
Defined.






(** ** Plates *)

Lemma string_get_none : forall s i,
  String.get i s = None <-> (String.length s <= i)%nat.
Proof.
  induction s as [|c s IH]; intros i; simpl.
  - split; [lia|reflexivity].
  - destruct i as [|i]; [split; [discriminate|lia]|].
    rewrite IH. lia.
Qed.

Lemma plate_char_inside plate i :
  plate_char plate i <> zero -> (i < String.length plate)%nat.
Proof.
  unfold plate_char. intros H.
  destruct (String.get i plate) eqn:E; [|congruence].
  destruct (Nat.lt_ge_cases i (String.length plate)) as [L|L]; [exact L|].
  apply string_get_none in L. congruence.
Qed.

Lemma plate_kind_ascii c :
  isDigit c = true \/ isUpperLetter c = true \/ c = "-"%char ->
  c <> zero /\ char_to_int c = Z.of_N (N_of_ascii c) /\
  45 <= char_to_int c <= 90.
Proof.
  unfold isDigit, isUpperLetter.
  change (char_to_int "0") with 48. change (char_to_int "9") with 57.
  change (char_to_int "A") with 65. change (char_to_int "Z") with 90.
  intros H.
  assert (R : 45 <= char_to_int c <= 90).
  { destruct H as [H|[H|H]].
    - apply andb_prop in H as [H1 H2]. lia.
    - apply andb_prop in H as [H1 H2]. lia.
    - subst c. vm_compute. split; discriminate. }
  split; [|split; [|exact R]].
  - intros ->. vm_compute in R. destruct R as [R _]. apply R. reflexivity.
  - unfold char_to_int in *. cbv zeta in *.
    destruct (Z.of_N (N_of_ascii c) <? 128) eqn:E; [reflexivity|].
    pose proof (N_ascii_bounded c). lia.
Qed.

Lemma pair_chars plate i :
  digit_pair plate i = true \/ letter_pair plate i = true ->
  (isDigit (plate_char plate i) = true \/
   isUpperLetter (plate_char plate i) = true) /\
  (isDigit (plate_char plate (i + 1)) = true \/
   isUpperLetter (plate_char plate (i + 1)) = true).
Proof.
  unfold digit_pair, letter_pair.
  intros [H|H]; apply andb_prop in H as [H1 H2]; auto.
Qed.

Lemma validPlate_pairs_cons plate i rest n l :
  validPlate_pairs plate (i :: rest) n l =
  if digit_pair plate i then validPlate_pairs plate rest (n + 1) l
  else if letter_pair plate i then validPlate_pairs plate rest n (l + 1)
  else false.
Proof. reflexivity. Qed.

(** X4.  [validPlate] accepts exactly the strings whose first eight
    characters are three pairs separated by hyphens at positions 2 and 5,
    each pair two digits or two uppercase letters, with at least one pair
    of digits and at least one pair of letters.  An accepted string has at
    least eight characters, and each of the first eight is a hyphen, a
    digit or an uppercase letter: its value is the same whether [char] is
    signed or not. *)
Theorem validPlate_format (plate : string) :
  (validPlate plate = true <->
   plate_char plate 2 = "-"%char /\ plate_char plate 5 = "-"%char /\
   (forall i, In i [0; 3; 6]%nat ->
              digit_pair plate i = true \/ letter_pair plate i = true) /\
   (exists i, In i [0; 3; 6]%nat /\ digit_pair plate i = true) /\
   (exists i, In i [0; 3; 6]%nat /\ digit_pair plate i = false /\
              letter_pair plate i = true)) /\
  (validPlate plate = true ->
   (8 <= String.length plate)%nat /\
   forall i, (i < 8)%nat ->
     char_to_int (plate_char plate i) =
       Z.of_N (N_of_ascii (plate_char plate i)) /\
     45 <= char_to_int (plate_char plate i) <= 90).
Proof.
  assert (Hiff : validPlate plate = true <->
   plate_char plate 2 = "-"%char /\ plate_char plate 5 = "-"%char /\
   (forall i, In i [0; 3; 6]%nat ->
              digit_pair plate i = true \/ letter_pair plate i = true) /\
   (exists i, In i [0; 3; 6]%nat /\ digit_pair plate i = true) /\
   (exists i, In i [0; 3; 6]%nat /\ digit_pair plate i = false /\
              letter_pair plate i = true)).
  { unfold validPlate. rewrite !validPlate_pairs_cons.
    destruct (Ascii.eqb_spec (plate_char plate 2) "-") as [E2|E2];
      [|simpl; split; [discriminate|tauto]].
    destruct (Ascii.eqb_spec (plate_char plate 5) "-") as [E5|E5];
      [|simpl; split; [discriminate|tauto]].
    cbn [negb orb].
    destruct (digit_pair plate 0) eqn:D0, (letter_pair plate 0) eqn:L0,
             (digit_pair plate 3) eqn:D3, (letter_pair plate 3) eqn:L3,
             (digit_pair plate 6) eqn:D6, (letter_pair plate 6) eqn:L6;
      cbn;
      (split;
       [ first
         [ discriminate
         | intros _;
           split; [exact E2|]; split; [exact E5|];
           split;
           [ intros i [<-|[<-|[<-|[]]]];
             rewrite ?D0, ?D3, ?D6, ?L0, ?L3, ?L6; auto
           | split;
             first [ exists 0%nat; split; [simpl; tauto|congruence]
                   | exists 3%nat; split; [simpl; tauto|congruence]
                   | exists 6%nat; split; [simpl; tauto|congruence]
                   | exists 0%nat; split; [simpl; tauto|split; congruence]
                   | exists 3%nat; split; [simpl; tauto|split; congruence]
                   | exists 6%nat; split; [simpl; tauto|split; congruence] ] ] ]
       | first
         [ reflexivity
         | intros (_ & _ & Hall & (i & Hi & Hd) & (j & Hj & Hnd & Hl));
           pose proof (Hall 0%nat ltac:(simpl; tauto));
           pose proof (Hall 3%nat ltac:(simpl; tauto));
           pose proof (Hall 6%nat ltac:(simpl; tauto));
           destruct Hi as [<-|[<-|[<-|[]]]];
           destruct Hj as [<-|[<-|[<-|[]]]];
           intuition congruence ] ]). }
  split; [exact Hiff|].
  intros V. apply Hiff in V as (E2 & E5 & Hall & _).
  pose proof (pair_chars plate 0 (Hall 0%nat ltac:(simpl; tauto))) as [P0 P1].
  pose proof (pair_chars plate 3 (Hall 3%nat ltac:(simpl; tauto))) as [P3 P4].
  pose proof (pair_chars plate 6 (Hall 6%nat ltac:(simpl; tauto))) as [P6 P7].
  simpl in P1, P4, P7.
  split.
  - assert (H7 : plate_char plate 7 <> zero) by (apply plate_kind_ascii; tauto).
    apply plate_char_inside in H7. lia.
  - intros i Hi.
    assert (C : (i = 0 \/ i = 1 \/ i = 2 \/ i = 3 \/ i = 4 \/ i = 5 \/
                 i = 6 \/ i = 7)%nat) by lia.
    destruct C as [->|[->|[->|[->|[->|[->|[->| ->]]]]]]];
      apply plate_kind_ascii; tauto.
Qed.

Lemma validPlate_format_witness :
  validPlate "AA-00-00" = true /\ (8 <= String.length "AA-00-00")%nat.
Proof.
  assert (V : validPlate "AA-00-00" = true) by reflexivity.
  split; [exact V|].
  exact (proj1 (proj2 (validPlate_format "AA-00-00") V)).
Defined.

Lemma plateHash_loop_app : forall s1 s2 hash,
  plateHash_loop hash (s1 ++ s2) = plateHash_loop (plateHash_loop hash s1) s2.
Proof.
  induction s1 as [|c s1 IH]; intros s2 hash; simpl; [reflexivity|].
  apply IH.
Qed.

(** X5.  The hyphens of a plate play no role in its placement: a string
    hashes to the same bucket with or without a hyphen at any position, for
    every bucket count. *)
Theorem plateHash_skips_hyphens (s1 s2 : string) (size : Z) :
  plateHash (s1 ++ "-" ++ s2) size = plateHash (s1 ++ s2) size.
Proof.
  unfold plateHash. rewrite !plateHash_loop_app. reflexivity.
Qed.

(** ** Prime search and bucket counts *)

(** X6.  Below [65531^2 = 4294311961], where [i * i] cannot wrap,
    [isPrime] decides primality: it answers 1 exactly on the prime
    numbers. *)
Theorem isPrime_decides_primality (n : Z) :
  0 <= n < 65531 * 65531 -> (isPrime n = true <-> Z.prime n).
Proof.
  intros Hn. split.
  - apply isPrime_sound. lia.
  - intros Hp. destruct (isPrime n) eqn:E; [reflexivity|].
    exfalso. exact (isPrime_complete n Hn E Hp).
Qed.

Lemma isPrime_decides_primality_witness :
  0 <= 107 < 65531 * 65531 /\ (isPrime 107 = true <-> Z.prime 107).
Proof.
  assert (H : 0 <= 107 < 65531 * 65531) by lia.
  split; [exact H|]. exact (isPrime_decides_primality 107 H).
Defined.

Lemma even_not_prime j : 2 < j -> j mod 2 = 0 -> ~ Z.prime j.
Proof.
  intros Hj He [_ H]. apply (H 2); [lia|].
  apply Z.mod_divide; [lia|exact He].
Qed.

(** X7.  The bucket count after [resizeHashtable] is always a 32-bit number
    above 1 that [isPrime] accepts, and the element count is unchanged.
    While [2 * size + 1 <= 4294311919] it is the least prime from
    [2 * size + 1] on, so the table more than doubles, and
    [addLogToTable] never lowers the bucket count. *)
Theorem growth_bucket_count (ht : Hashtable) :
  table_wf ht ->
  let size' := size (resizeHashtable ht) in
  1 < size' < 2 ^ 32 /\ isPrime size' = true /\
  numElements (resizeHashtable ht) = numElements ht /\
  (2 * size ht + 1 <= 4294311919 ->
   Z.prime size' /\ 2 * size ht + 1 <= size' /\
   (forall j, 2 * size ht + 1 <= j < size' -> ~ Z.prime j) /\
   forall r, size ht <= size (addLogToTable ht r)).
Proof.
  intros (Hs & L & C) size'. subst size'.
  pose proof (resize_size_range ht) as Hr.
  split; [exact Hr|].
  split; [apply nearestPrime_isPrime, to_uint_range|].
  split; [reflexivity|].
  intros Hb.
  assert (Hbound : forall t, size t = size ht ->
            size (resizeHashtable t) = nearestPrime (2 * size ht + 1)).
  { intros t Ht. cbn [size resizeHashtable]. rewrite Ht. f_equal.
    rewrite (to_uint_small (size ht * 2)) by (zpow; lia).
    rewrite to_uint_small by (zpow; lia). lia. }
  destruct (nearestPrime_below 4294311919 isPrime_4294311919)
    with (n := 2 * size ht + 1) as (Hle & Ho & Hp & Hall);
    [reflexivity|reflexivity|lia|].
  assert (Hf : forced_odd (2 * size ht + 1) = 2 * size ht + 1).
  { unfold forced_odd.
    destruct (Z.eqb_spec ((2 * size ht + 1) mod 2) 0); [zmod|reflexivity]. }
  rewrite Hf in Hle.
  rewrite (Hbound ht eq_refl).
  split; [apply isPrime_sound; [lia|exact Hp]|]. split; [lia|]. split.
  - intros j Hj. destruct (Z.eq_dec (j mod 2) 0) as [He|Ho'].
    + apply even_not_prime; [lia|exact He].
    + apply isPrime_complete; [lia|]. apply Hall; [lia|zmod].
  - intros r.
    destruct (chain_at ht (plateHash (getLogPlate r) (size ht))) eqn:E.
    + rewrite addLogToTable_empty by assumption. simpl. lia.
    + rewrite addLogToTable_append by (try rewrite E; try discriminate; assumption).
      destruct (load_factor_exceeded _ _); [|simpl; lia].
      rewrite (Hbound (appended ht r) eq_refl). lia.
Qed.

Lemma growth_bucket_count_witness :
  table_wf newHashtable /\
  1 < size (resizeHashtable newHashtable) < 2 ^ 32.
Proof.
  split; [exact newHashtable_wf|].
  pose proof (growth_bucket_count newHashtable newHashtable_wf) as H.
  cbv zeta in H. exact (proj1 H).
Defined.

(** ** Looking up and inserting *)

Lemma is_open_exit plate log :
  is_open plate log = true ->
  getLogPlate log = plate /\ getExitTimestamp log = INITIAL_TIMESTAMP.
Proof.
  intros H. split; [apply (is_open_plate _ _ H)|].
  unfold is_open in H. apply andb_prop in H as [_ H].
  unfold isInitialTimestamp in H. apply Z.eqb_eq, compareTimestamps_eq in H.
  exact H.
Qed.

Lemma lookup_find ht plate :
  table_wf ht ->
  getPlateLastLogWithoutExit ht plate =
  find (is_open plate) (chain_at ht (plateHash plate (size ht))).
Proof.
  intros Hwf. unfold getPlateLastLogWithoutExit.
  rewrite getSize_uint by apply Hwf. apply scan_open_find.
Qed.

Lemma lookup_some ht plate r :
  table_wf ht -> getPlateLastLogWithoutExit ht plate = Some r ->
  In r (all_logs ht) /\ is_open plate r = true.
Proof.
  intros Hwf H. rewrite lookup_find in H by exact Hwf.
  apply find_some in H as [Hin Ho]. split; [|exact Ho].
  apply in_all_logs; [apply Hwf|].
  exists (plateHash plate (size ht)).
  split; [apply plateHash_range, Hwf|exact Hin].
Qed.

Lemma lookup_none ht plate :
  table_wf ht ->
  (getPlateLastLogWithoutExit ht plate = None <->
   forall r, In r (all_logs ht) -> is_open plate r = false).
Proof.
  intros Hwf. rewrite lookup_find by exact Hwf. split.
  - intros H r Hin. destruct (is_open plate r) eqn:E; [|reflexivity].
    pose proof (open_record_in_scanned_chain ht plate r Hwf Hin E) as Hc.
    rewrite (find_none _ _ H r Hc) in E. discriminate.
  - intros H.
    destruct (find (is_open plate) (chain_at ht (plateHash plate (size ht))))
      as [x|] eqn:F; [|reflexivity].
    apply find_some in F as [Hin Ho].
    rewrite H in Ho; [discriminate|].
    apply in_all_logs; [apply Hwf|].
    exists (plateHash plate (size ht)).
    split; [apply plateHash_range, Hwf|exact Hin].
Qed.

(** With at most one open record of the plate in the table, the lookup
    returns it wherever the table keeps it. *)
Lemma lookup_unique ht plate :
  table_wf ht ->
  (length (filter (is_open plate) (all_logs ht)) <= 1)%nat ->
  getPlateLastLogWithoutExit ht plate = find (is_open plate) (all_logs ht).
Proof.
  intros Hwf H1.
  destruct (find (is_open plate) (all_logs ht)) as [y|] eqn:F.
  - apply find_some in F as [Hy Py].
    destruct (getPlateLastLogWithoutExit ht plate) as [x|] eqn:G.
    + apply lookup_some in G as [Hx Px]; [|exact Hwf]. f_equal.
      apply (filter_at_most_one (is_open plate) (all_logs ht)); auto.
    + rewrite (proj1 (lookup_none ht plate Hwf) G y Hy) in Py. discriminate.
  - apply lookup_none; [exact Hwf|]. intros r Hr.
    apply (find_none _ _ F r Hr).
Qed.

Lemma find_unique_perm {A} (P : A -> bool) l l' :
  Permutation l l' -> (length (filter P l) <= 1)%nat ->
  find P l = find P l'.
Proof.
  intros Hp H1.
  destruct (find P l) as [x|] eqn:F; destruct (find P l') as [y|] eqn:F';
    try reflexivity.
  - apply find_some in F as [Hx Px]. apply find_some in F' as [Hy Py].
    f_equal. apply (filter_at_most_one P l); auto.
    apply (Permutation_in _ (Permutation_sym Hp)), Hy.
  - apply find_some in F as [Hx Px].
    apply (Permutation_in _ Hp) in Hx.
    rewrite (find_none _ _ F' x Hx) in Px. discriminate.
  - apply find_some in F' as [Hy Py].
    apply (Permutation_in _ (Permutation_sym Hp)) in Hy.
    rewrite (find_none _ _ F y Hy) in Py. discriminate.
Qed.

Lemma filter_perm_length {A} (P : A -> bool) l l' :
  Permutation l l' -> length (filter P l) = length (filter P l').
Proof.
  intros Hp. induction Hp; simpl.
  - reflexivity.
  - destruct (P x); simpl; congruence.
  - destruct (P x), (P y); reflexivity.
  - congruence.
Qed.

(** X8.  On a table whose buckets agree with the hash, the lookup of a
    plate misses no record: it returns a record only if that record is
    stored, has the plate and has no exit time, and it returns none only if
    no stored record of the plate is open, in whatever bucket. *)
Theorem find_open_entry_sound_and_complete (ht : Hashtable) (plate : string) :
  table_wf ht ->
  (forall r, getPlateLastLogWithoutExit ht plate = Some r ->
     In r (all_logs ht) /\ getLogPlate r = plate /\
     getExitTimestamp r = INITIAL_TIMESTAMP) /\
  (getPlateLastLogWithoutExit ht plate = None <->
   forall r, In r (all_logs ht) -> getLogPlate r = plate ->
             getExitTimestamp r <> INITIAL_TIMESTAMP).
Proof.
  intros Hwf. split.
  - intros r H. apply lookup_some in H as [Hin Ho]; [|exact Hwf].
    split; [exact Hin|]. apply is_open_exit, Ho.
  - rewrite lookup_none by exact Hwf. split.
    + intros H r Hin Hp He. specialize (H r Hin).
      unfold is_open in H. rewrite Hp, String.eqb_refl, He in H.
      discriminate.
    + intros H r Hin. destruct (is_open plate r) eqn:E; [|reflexivity].
      apply is_open_exit in E as [Hp He]. exfalso. exact (H r Hin Hp He).
Qed.

Lemma find_open_entry_sound_and_complete_witness :
  table_wf (insert_all [open_1]) /\
  forall r, getPlateLastLogWithoutExit (insert_all [open_1]) "AA-00-00" = Some r ->
            In r (all_logs (insert_all [open_1])).
Proof.
  split; [apply insert_all_wf|].
  intros r H.
  exact (proj1 (proj1 (find_open_entry_sound_and_complete
                         (insert_all [open_1]) "AA-00-00"
                         (insert_all_wf _)) r H)).
Defined.

(** X9.  Insert, then find.  After [addLogToTable] of a record without exit
    time, the lookup of its plate succeeds, and returns that very record
    when the plate had no open record before; the answer for any other
    plate stays none if it was none and some if it was some. *)
Theorem insert_then_find (ht : Hashtable) (r : Log) :
  table_wf ht ->
  getExitTimestamp r = INITIAL_TIMESTAMP ->
  let ht' := addLogToTable ht r in
  getPlateLastLogWithoutExit ht' (getLogPlate r) <> None /\
  (getPlateLastLogWithoutExit ht (getLogPlate r) = None ->
   getPlateLastLogWithoutExit ht' (getLogPlate r) = Some r) /\
  (forall plate, plate <> getLogPlate r ->
     (getPlateLastLogWithoutExit ht' plate = None <->
      getPlateLastLogWithoutExit ht plate = None)).
Proof.
  intros Hwf He ht'.
  pose proof (addLogToTable_wf ht r Hwf) as Hwf'.
  pose proof (addLogToTable_perm ht r Hwf) as P. fold ht' in Hwf', P.
  assert (Ho : is_open (getLogPlate r) r = true).
  { unfold is_open. rewrite String.eqb_refl, He. reflexivity. }
  assert (Hin : In r (all_logs ht'))
    by (apply (Permutation_in _ (Permutation_sym P)); left; reflexivity).
  split; [|split].
  - intros N. rewrite (proj1 (lookup_none ht' _ Hwf') N r Hin) in Ho.
    discriminate.
  - intros N.
    destruct (getPlateLastLogWithoutExit ht' (getLogPlate r)) as [x|] eqn:G.
    + apply lookup_some in G as [Hx Px]; [|exact Hwf'].
      apply (Permutation_in _ P) in Hx. destruct Hx as [<-|Hx]; [reflexivity|].
      rewrite (proj1 (lookup_none ht _ Hwf) N x Hx) in Px. discriminate.
    + rewrite (proj1 (lookup_none ht' _ Hwf') G r Hin) in Ho. discriminate.
  - intros plate Hne. rewrite !lookup_none by assumption. split.
    + intros H x Hx. apply H.
      apply (Permutation_in _ (Permutation_sym P)). right. exact Hx.
    + intros H x Hx. apply (Permutation_in _ P) in Hx.
      destruct Hx as [<-|Hx]; [|apply H, Hx].
      unfold is_open. destruct (String.eqb_spec (getLogPlate r) plate);
        [congruence|reflexivity].
Qed.

Lemma insert_then_find_witness :
  table_wf newHashtable /\
  getPlateLastLogWithoutExit (addLogToTable newHashtable open_1)
    (getLogPlate open_1) = Some open_1.
Proof.
  split; [exact newHashtable_wf|].
  pose proof (insert_then_find newHashtable open_1 newHashtable_wf eq_refl)
    as H.
  cbv zeta in H. apply (proj1 (proj2 H)). reflexivity.
Defined.

(** X10.  Growing the table does not change what the lookup answers, as
    long as the table holds at most one open record of the plate. *)
Theorem growth_keeps_open_entry (ht : Hashtable) (plate : string) :
  table_wf ht ->
  (length (filter (is_open plate) (all_logs ht)) <= 1)%nat ->
  getPlateLastLogWithoutExit (resizeHashtable ht) plate =
  getPlateLastLogWithoutExit ht plate.
Proof.
  intros Hwf H1. pose proof Hwf as (_ & L & _).
  pose proof (resize_perm ht L) as P.
  rewrite (lookup_unique ht plate Hwf H1).
  rewrite lookup_unique.
  - symmetry. apply find_unique_perm; [symmetry; exact P|exact H1].
  - apply resize_wf, L.
  - rewrite (filter_perm_length _ _ _ P). exact H1.
Qed.

Lemma growth_keeps_open_entry_witness :
  getPlateLastLogWithoutExit (resizeHashtable (insert_all [open_1]))
    "AA-00-00" =
  getPlateLastLogWithoutExit (insert_all [open_1]) "AA-00-00".
Proof.
  apply (growth_keeps_open_entry (insert_all [open_1]) "AA-00-00"
           (insert_all_wf _)).
  vm_compute. lia.
Defined.

Lemma count_after_insert ht r :
  table_wf ht ->
  numElements (addLogToTable ht r) = to_uint (numElements ht + 1).
Proof.
  intros (Hs & _).
  destruct (chain_at ht (plateHash (getLogPlate r) (size ht))) eqn:E.
  - rewrite addLogToTable_empty by assumption. reflexivity.
  - rewrite addLogToTable_append by (try rewrite E; try discriminate; assumption).
    destruct (load_factor_exceeded _ _); reflexivity.
Qed.

Lemma fold_insert_count records : forall ht,
  table_wf ht -> 0 <= numElements ht < 2 ^ 32 ->
  numElements (fold_left addLogToTable records ht) =
  to_uint (numElements ht + Z.of_nat (length records)).
Proof.
  induction records as [|r records IH]; intros ht Hwf Hn.
  - simpl. rewrite Z.add_0_r, to_uint_small by exact Hn. reflexivity.
  - cbn [fold_left]. rewrite IH.
    + rewrite count_after_insert by exact Hwf.
      cbn [length]. rewrite Nat2Z.inj_succ. unfold to_uint.
      rewrite Zplus_mod_idemp_l. f_equal. lia.
    + apply addLogToTable_wf, Hwf.
    + rewrite count_after_insert by exact Hwf. apply to_uint_range.
Qed.

(** X11.  The element count is the number of stored records: after any
    sequence of inserts from a new table, [numElements] is the number of
    inserts (modulo [2^32], the width of the counter) and the chains hold
    exactly that many records, whether or not the table has grown. *)
Theorem numElements_counts_records (records : list Log) :
  numElements (insert_all records) = to_uint (Z.of_nat (length records)) /\
  length (all_logs (insert_all records)) = length records /\
  (Z.of_nat (length records) < 2 ^ 32 ->
   numElements (insert_all records) =
   Z.of_nat (length (all_logs (insert_all records)))).
Proof.
  assert (E : numElements (insert_all records)
              = to_uint (Z.of_nat (length records))).
  { unfold insert_all. rewrite fold_insert_count.
    - reflexivity.
    - exact newHashtable_wf.
    - simpl. zpow. lia. }
  assert (L : length (all_logs (insert_all records)) = length records)
    by (apply Permutation_length, insert_all_perm).
  split; [exact E|]. split; [exact L|].
  intros H. rewrite E, L. apply to_uint_small. lia.
Qed.

Lemma numElements_counts_records_witness :
  Z.of_nat (length [open_1; open_2]) < 2 ^ 32 /\
  numElements (insert_all [open_1; open_2]) =
  Z.of_nat (length (all_logs (insert_all [open_1; open_2]))).
Proof.
  assert (H : Z.of_nat (length [open_1; open_2]) < 2 ^ 32) by reflexivity.
  split; [exact H|].
  exact (proj2 (proj2 (numElements_counts_records [open_1; open_2])) H).
Defined.

(** ** Ordered merge, continued *)

(** X12.  [mergeSort] relinks the nodes it is given and nothing else: for
    every key its result holds exactly the records of the chain, each as
    many times as before. *)
Theorem mergeSort_keeps_every_record (sortBy : ascii) (L : list Log) :
  Permutation (mergeSort sortBy L) L /\
  length (mergeSort sortBy L) = length L /\
  (forall log, In log (mergeSort sortBy L) <-> In log L).
Proof.
  pose proof (mergeSort_perm sortBy L) as P.
  split; [exact P|]. split; [apply Permutation_length, P|].
  intros log. split; apply Permutation_in; [exact P|symmetry; exact P].
Qed.

Lemma strcmp_lt s1 s2 : strcmp s1 s2 < 0 <-> String.compare s1 s2 = Lt.
Proof.
  unfold strcmp. destruct (String.compare s1 s2); split; intros H;
    try reflexivity; try discriminate; lia.
Qed.

Lemma compareTimestamps_not_gt t1 t2 :
  compareTimestamps t1 t2 <> 1 <-> ~ ts_lt t2 t1.
Proof.
  rewrite <- compareTimestamps_lt.
  destruct (compareTimestamps_total_order_aux t1 t2) as [_ H]. tauto.
Qed.

Lemma not_after_order sortBy a b :
  not_after sortBy a b ->
  strcmp (parkName a) (parkName b) < 0 \/
  (strcmp (parkName a) (parkName b) = 0 /\
   compareTimestamps (snd (sort_key sortBy a)) (snd (sort_key sortBy b)) <> 1).
Proof.
  intros H. apply not_after_iff in H. rewrite goes_before_iff in H.
  destruct (string_compare_total (parkName a) (parkName b)) as [C|[C|C]].
  - left. apply strcmp_lt, C.
  - right. split; [apply strcmp_eq0, C|].
    apply compareTimestamps_not_gt. intros T. apply H. right.
    split; [symmetry; exact C|exact T].
  - exfalso. apply H. left. exact C.
Qed.

Lemma sorted_entry_key (l : list Log) :
  StronglySorted (not_after "e") l -> StronglySorted park_then_entry_le l.
Proof.
  intros S. induction S as [|a l S IH F]; [constructor|].
  constructor; [exact IH|].
  rewrite Forall_forall in *. intros x Hx.
  apply (not_after_order "e" a x (F x Hx)).
Qed.

Lemma sorted_exit_key (sortBy : ascii) (park : string) (l : list Log) :
  sortBy <> "e"%char ->
  Forall (fun log => parkName log = park) l ->
  StronglySorted (not_after sortBy) l -> StronglySorted exit_le l.
Proof.
  intros Hs HP S. induction S as [|a l S IH F]; [constructor|].
  apply Forall_cons_iff in HP as [Ha HP].
  constructor; [apply IH, HP|].
  rewrite Forall_forall in *. intros x Hx.
  destruct (not_after_order sortBy a x (F x Hx)) as [C|[_ C]].
  - rewrite Ha, (HP x Hx) in C. apply strcmp_lt in C.
    exfalso. exact (string_compare_lt_irrefl _ C).
  - unfold sort_key in C.
    destruct (Ascii.eqb_spec sortBy "e"); [contradiction|]. exact C.
Qed.

(** X13.  With the key 'e', [mergeSort] returns the chain in the order its
    documentation gives: by park name, and by entry timestamp among the
    records of one park. *)
Theorem mergeSort_entry_key_sorted (L : list Log) :
  StronglySorted park_then_entry_le (mergeSort "e" L).
Proof. apply sorted_entry_key, mergeSort_sorted. Qed.

(** X14.  On a chain of records of one park, as [showParkBilling] builds
    it, [mergeSort] with a key other than 'e' returns the records by exit
    timestamp, earliest first. *)
Theorem mergeSort_exit_key_sorted_one_park
  (sortBy : ascii) (park : string) (L : list Log) :
  sortBy <> "e"%char ->
  Forall (fun log => parkName log = park) L ->
  StronglySorted exit_le (mergeSort sortBy L).
Proof.
  intros Hs HP. apply (sorted_exit_key sortBy park); [exact Hs| |].
  - rewrite Forall_forall in *. intros x Hx. apply HP.
    apply (Permutation_in _ (mergeSort_perm sortBy L)), Hx.
  - apply mergeSort_sorted.
Qed.

Lemma mergeSort_exit_key_sorted_one_park_witness :
  StronglySorted exit_le (mergeSort "s" [tie_1; tie_2]).
Proof.
  apply (mergeSort_exit_key_sorted_one_park "s" "A" [tie_1; tie_2]).
  - discriminate.
  - repeat constructor.
Defined.

(** X15.  [split] cuts a chain of [n >= 2] nodes after its first
    [ceil(n/2)] nodes: the two halves, one after the other, are the chain,
    the first half has [n - n/2] nodes and the second [n/2], and neither is
    empty. *)
Theorem split_halves (x y : Log) (l : list Log) :
  let n := length (x :: y :: l) in
  fst (split (x :: y :: l)) ++ snd (split (x :: y :: l)) = x :: y :: l /\
  length (fst (split (x :: y :: l))) = (n - n / 2)%nat /\
  length (snd (split (x :: y :: l))) = (n / 2)%nat /\
  fst (split (x :: y :: l)) <> [] /\ snd (split (x :: y :: l)) <> [].
Proof.
  intros n. destruct (split_spec x y l) as [H1 H2]. fold n in H2.
  assert (H3 := f_equal (@length Log) H1). rewrite length_app in H3.
  fold n in H3.
  assert (Hn : (2 <= n)%nat) by (subst n; simpl; lia).
  assert (Hh : ((n - 1) / 2 + 1 = n - n / 2)%nat).
  { pose proof (Nat.div_mod_eq n 2). pose proof (Nat.div_mod_eq (n - 1) 2).
    pose proof (Nat.mod_upper_bound n 2 ltac:(lia)).
    pose proof (Nat.mod_upper_bound (n - 1) 2 ltac:(lia)). lia. }
  assert (Hd : (1 <= n / 2)%nat).
  { pose proof (Nat.div_mod_eq n 2).
    pose proof (Nat.mod_upper_bound n 2 ltac:(lia)). lia. }
  assert (Hd2 : (n / 2 < n)%nat) by (apply Nat.div_lt; lia).
  split; [exact H1|]. split; [lia|]. split; [lia|].
  split; intros E.
  - rewrite E in H2. cbn [length] in H2. lia.
  - rewrite E in H3. cbn [length] in H3. lia.
Qed.

Lemma set_next_of_last_app : forall head log,
  head <> [] -> set_next_of_last head log = head ++ log.
Proof.
  induction head as [|x head IH]; intros log H; [contradiction|].
  destruct head as [|y head]; [reflexivity|].
  change (set_next_of_last (x :: y :: head) log)
    with (x :: set_next_of_last (y :: head) log).
  rewrite IH by discriminate. reflexivity.
Qed.

Lemma findLastLog_app : forall head log,
  findLastLog (head ++ [log]) = [log].
Proof.
  induction head as [|x head IH]; intros log; [reflexivity|].
  simpl. destruct (head ++ [log]) eqn:E.
  - destruct head; discriminate.
  - rewrite <- E. apply IH.
Qed.

Lemma addLogtoLog_app (head : list Log) (log : Log) :
  addLogtoLog head [log] = head ++ [log].
Proof.
  destruct head as [|x head]; [reflexivity|].
  apply set_next_of_last_app. discriminate.
Qed.

(** X16.  [addLogtoLog] links the new node after the last node of the
    chain, whatever the length of the chain: the chain keeps its records
    in order, the new record comes last, and [findLastLog] then returns
    it. *)
Theorem addLogtoLog_appends (head : list Log) (log : Log) :
  addLogtoLog head [log] = head ++ [log] /\
  findLastLog (addLogtoLog head [log]) = [log].
Proof.
  rewrite addLogtoLog_app. split; [reflexivity|apply findLastLog_app].
Qed.

(** ** Charging *)

Lemma days_loop m :
  m < 2 ^ 31 ->
  loop_exit (while_pow days_body 32 (0, m)) =
  if m <? 0 then (0, m) else (m / 1440, m mod 1440).
Proof.
  intros Hm.
  set (Inv := fun s : Z * Z =>
                0 <= fst s /\ m = fst s * 1440 + snd s /\
                (0 <= snd s \/ fst s = 0)).
  assert (Hstep : forall s s', Inv s -> days_body s = inl s' -> Inv s').
  { intros [d x] s' (H1 & H2 & H3) Hb. unfold days_body in Hb.
    destruct (Z.geb_spec x (24 * 60)); try discriminate; injection Hb as <-.
    unfold Inv. cbn [fst snd] in *. lia. }
  assert (H0 : Inv (0, m)) by (unfold Inv; cbn [fst snd]; lia).
  destruct (while_pow_terminates days_body Inv Hstep
              (fun s => Z.max 0 (snd s))) with (k := 32%nat) (s := (0, m))
    as [r Hr].
  - intros [d x] s' _ Hb. unfold days_body in Hb.
    destruct (Z.geb_spec x (24 * 60)); try discriminate; injection Hb as <-. cbn [fst snd]. lia.
  - intros. lia.
  - exact H0.
  - simpl. zpow. lia.
  - rewrite Hr. cbn [loop_exit].
    destruct (while_pow_inr_inv days_body Inv Hstep _ _ _ H0 Hr)
      as ([d x] & (H1 & H2 & H3) & Hb).
    unfold days_body in Hb.
    destruct (Z.geb_spec x (24 * 60)); try discriminate; injection Hb as <-. cbn [fst snd] in *.
    destruct (Z.ltb_spec m 0).
    + f_equal; lia.
    + assert (0 <= x < 1440) by lia.
      f_equal; [apply Z.div_unique with x; lia | apply Z.mod_unique with d; lia].
Qed.

Lemma first_hour_loop r :
  loop_exit (while_pow first_hour_body 32 (0, r)) =
  if r <=? 0 then (0, r)
  else (Z.min 4 ((r + 14) / 15), r - 15 * Z.min 4 ((r + 14) / 15)).
Proof.
  set (Inv := fun s : Z * Z =>
                0 <= fst s <= 4 /\ snd s = r - 15 * fst s /\
                (fst s = 0 \/ r - 15 * (fst s - 1) > 0)).
  assert (Hstep : forall s s', Inv s -> first_hour_body s = inl s' -> Inv s').
  { intros [q x] s' (H1 & H2 & H3) Hb. unfold first_hour_body in Hb.
    unfold MAXIMUM_FIRST_HOUR_QUARTERS, QUARTER_HOUR_TO_MINUTES in Hb.
    destruct (Z.gtb_spec x 0), (Z.ltb_spec q 4); try discriminate; injection Hb as <-.
    unfold Inv. cbn [fst snd] in *. lia. }
  assert (H0 : Inv (0, r)) by (unfold Inv; cbn [fst snd]; lia).
  destruct (while_pow_terminates first_hour_body Inv Hstep
              (fun s => 4 - fst s)) with (k := 32%nat) (s := (0, r))
    as [res Hr].
  - intros [q x] s' _ Hb. unfold first_hour_body in Hb.
    unfold MAXIMUM_FIRST_HOUR_QUARTERS, QUARTER_HOUR_TO_MINUTES in Hb.
    destruct (Z.gtb_spec x 0), (Z.ltb_spec q 4); try discriminate; injection Hb as <-.
    cbn [fst snd]. lia.
  - intros s (H1 & _). lia.
  - exact H0.
  - simpl. zpow. lia.
  - rewrite Hr. cbn [loop_exit].
    destruct (while_pow_inr_inv first_hour_body Inv Hstep _ _ _ H0 Hr)
      as ([q x] & (H1 & H2 & H3) & Hb).
    unfold first_hour_body in Hb.
    unfold MAXIMUM_FIRST_HOUR_QUARTERS, QUARTER_HOUR_TO_MINUTES in Hb.
    cbn [fst snd loop_exit] in *.
    destruct (Z.leb_spec r 0);
      destruct (Z.gtb_spec x 0), (Z.ltb_spec q 4); try discriminate; injection Hb as <-;
      f_equal; try lia;
      Z.div_mod_to_equations; lia.
Qed.

Lemma after_first_hour_loop x0 :
  x0 < 2 ^ 31 ->
  loop_exit (while_pow after_first_hour_body 32 (0, x0)) =
  if x0 <=? 0 then (0, x0)
  else ((x0 + 14) / 15, x0 - 15 * ((x0 + 14) / 15)).
Proof.
  intros Hx.
  set (Inv := fun s : Z * Z =>
                0 <= fst s /\ snd s = x0 - 15 * fst s /\
                (fst s = 0 \/ x0 - 15 * (fst s - 1) > 0)).
  assert (Hstep : forall s s',
            Inv s -> after_first_hour_body s = inl s' -> Inv s').
  { intros [q x] s' (H1 & H2 & H3) Hb. unfold after_first_hour_body in Hb.
    unfold QUARTER_HOUR_TO_MINUTES in Hb.
    destruct (Z.gtb_spec x 0); try discriminate; injection Hb as <-.
    unfold Inv. cbn [fst snd] in *. lia. }
  assert (H0 : Inv (0, x0)) by (unfold Inv; cbn [fst snd]; lia).
  destruct (while_pow_terminates after_first_hour_body Inv Hstep
              (fun s => Z.max 0 (snd s))) with (k := 32%nat) (s := (0, x0))
    as [res Hr].
  - intros [q x] s' _ Hb. unfold after_first_hour_body in Hb.
    unfold QUARTER_HOUR_TO_MINUTES in Hb.
    destruct (Z.gtb_spec x 0); try discriminate; injection Hb as <-. cbn [fst snd]. lia.
  - intros. lia.
  - exact H0.
  - simpl. zpow. lia.
  - rewrite Hr. cbn [loop_exit].
    destruct (while_pow_inr_inv after_first_hour_body Inv Hstep _ _ _ H0 Hr)
      as ([q x] & (H1 & H2 & H3) & Hb).
    unfold after_first_hour_body in Hb.
    unfold QUARTER_HOUR_TO_MINUTES in Hb. cbn [fst snd loop_exit] in *.
    destruct (Z.leb_spec x0 0);
      destruct (Z.gtb_spec x 0); try discriminate; injection Hb as <-;
      f_equal; try lia; Z.div_mod_to_equations; lia.
Qed.

(** X17.  The three counting loops of [calculateParkingCost] charge whole
    days and started quarter hours: for a stay of [minutesDiff] minutes they
    leave [minutesDiff / 1440] days, and of the quarters of an hour started
    in the remaining minutes the first four as quarters of the first hour
    and the others as later quarters; a stay of no or negative length is
    charged nothing. *)
Theorem parking_charge_periods (minutesDiff : Z) :
  minutesDiff < 2 ^ 31 ->
  charged_periods minutesDiff =
  if minutesDiff <=? 0 then (0, 0, 0)
  else
    let quarters := (minutesDiff mod 1440 + 14) / 15 in
    (minutesDiff / 1440, Z.min 4 quarters, Z.max 0 (quarters - 4)).
Proof.
  intros Hm. unfold charged_periods. rewrite days_loop by exact Hm.
  destruct (Z.ltb_spec minutesDiff 0) as [Hneg|Hpos].
  - rewrite first_hour_loop.
    destruct (Z.leb_spec minutesDiff 0); [|lia].
    rewrite after_first_hour_loop by lia.
    destruct (Z.leb_spec minutesDiff 0); [reflexivity|lia].
  - rewrite first_hour_loop.
    pose proof (Z.mod_pos_bound minutesDiff 1440 ltac:(lia)) as Hr.
    set (r := minutesDiff mod 1440) in *.
    destruct (Z.leb_spec r 0) as [Hr0|Hr0].
    + rewrite after_first_hour_loop by (zpow; lia).
      destruct (Z.leb_spec r 0); [|lia].
      assert (r = 0) by lia.
      destruct (Z.leb_spec minutesDiff 0) as [Hm0|Hm0].
      * assert (minutesDiff = 0) by lia. subst minutesDiff. reflexivity.
      * cbv zeta. replace ((r + 14) / 15) with 0
          by (subst r; Z.div_mod_to_equations; lia).
        reflexivity.
    + rewrite after_first_hour_loop by (zpow; Z.div_mod_to_equations; lia).
      destruct (Z.leb_spec minutesDiff 0) as [Hm0|Hm0];
        [subst r; Z.div_mod_to_equations; lia|].
      cbv zeta.
      destruct (Z.leb_spec (r - 15 * Z.min 4 ((r + 14) / 15)) 0);
        f_equal; clearbody r; Z.div_mod_to_equations; lia.
Qed.

Lemma parking_charge_periods_witness :
  100 < 2 ^ 31 /\ charged_periods 100 = (0, 4, 3).
Proof.
  assert (H : 100 < 2 ^ 31) by reflexivity.
  split; [exact H|]. exact (parking_charge_periods 100 H).
Defined.

(** ** Parks: entries, exits, the list of parks and the reports *)

Lemma concat_store_split {A} (l : list (list A)) i :
  (i < length l)%nat ->
  exists pre post,
    concat l = pre ++ nth i l [] ++ post /\
    forall c, concat (store i c l) = pre ++ c ++ post.
Proof.
  revert i. induction l as [|y l IH]; intros [|i] H; simpl in *; try lia.
  - exists [], (concat l). split; [reflexivity|]. intros c. reflexivity.
  - destruct (IH i) as (pre & post & E & F); [lia|].
    exists (y ++ pre), post. split.
    + rewrite E, app_assoc. reflexivity.
    + intros c. rewrite F, app_assoc. reflexivity.
Qed.

Lemma set_exit_of_open_spec plate timestamp : forall chain,
  match find (is_open plate) chain with
  | Some x =>
      exists l1 l2, chain = l1 ++ x :: l2 /\
        set_exit_of_open plate timestamp chain =
        l1 ++ with_exit x timestamp :: l2
  | None => set_exit_of_open plate timestamp chain = chain
  end.
Proof.
  induction chain as [|log chain IH]; simpl; [reflexivity|].
  rewrite strcmp_eqb. fold (is_open plate log).
  destruct (is_open plate log).
  - exists [], chain. split; reflexivity.
  - destruct (find (is_open plate) chain) as [x|].
    + destruct IH as (l1 & l2 & -> & E). exists (log :: l1), l2.
      split; [reflexivity|]. simpl. rewrite E. reflexivity.
    + rewrite IH. reflexivity.
Qed.

Lemma with_exit_plate x ts : getLogPlate (with_exit x ts) = getLogPlate x.
Proof. reflexivity. Qed.

Lemma copyTimestamp_eq dest source : copyTimestamp dest source = source.
Proof. destruct source. reflexivity. Qed.

Lemma register_exit_spec ht plate timestamp x :
  table_wf ht ->
  getPlateLastLogWithoutExit ht plate = Some x ->
  exists rest,
    Permutation (all_logs ht) (x :: rest) /\
    Permutation (all_logs (register_exit_time ht plate timestamp))
                (with_exit x timestamp :: rest) /\
    table_wf (register_exit_time ht plate timestamp).
Proof.
  intros Hwf Hx. pose proof Hwf as (Hs & L & C).
  rewrite lookup_find in Hx by exact Hwf.
  unfold register_exit_time. rewrite getSize_uint by exact Hs.
  fold (chain_at ht (plateHash plate (size ht))).
  set (index := plateHash plate (size ht)) in *.
  assert (Hi : 0 <= index < size ht) by (apply plateHash_range; lia).
  pose proof (set_exit_of_open_spec plate timestamp (chain_at ht index)) as S.
  rewrite Hx in S. destruct S as (l1 & l2 & Ec & Es). rewrite Es.
  destruct (concat_store_split (logs ht) (Z.to_nat index)) as (pre & post & E & F);
    [lia|].
  rewrite <- chain_at_nth, Ec in E by exact Hi.
  exists (pre ++ l1 ++ l2 ++ post). split; [|split].
  - unfold all_logs. rewrite E. rewrite <- !app_assoc. simpl.
    rewrite app_assoc. symmetry. rewrite app_assoc. apply Permutation_middle.
  - unfold all_logs. cbn [logs]. rewrite F. rewrite <- !app_assoc. simpl.
    rewrite app_assoc. symmetry. rewrite app_assoc. apply Permutation_middle.
  - apply find_some in Hx as [Hin Ho]. apply is_open_plate in Ho.
    assert (Hidx : index = plateHash (getLogPlate x) (size ht))
      by (subst index; rewrite Ho; reflexivity).
    rewrite Hidx. apply (stored_wf ht x Hwf).
    intros y Hy. rewrite <- Hidx.
    assert (Hy' : In y (chain_at ht index) \/ y = with_exit x timestamp).
    { rewrite Ec. apply in_app_or in Hy as [Hy|[<-|Hy]]; auto;
        left; apply in_or_app; [left|right; right]; exact Hy. }
    destruct Hy' as [Hy'| ->].
    + apply C; [lia|exact Hy'].
    + rewrite with_exit_plate. apply C; [lia|exact Hin].
Qed.
Lemma filter_none {A} (P : A -> bool) l :
  (forall x, In x l -> P x = false) -> filter P l = [].
Proof.
  induction l as [|a l IH]; intros H; simpl; [reflexivity|].
  rewrite (H a (or_introl eq_refl)). apply IH. intros x Hx. apply H. right. exact Hx.
Qed.

Lemma filter_nil_none {A} (P : A -> bool) l x :
  filter P l = [] -> In x l -> P x = false.
Proof.
  intros E Hx. destruct (P x) eqn:Px; [|reflexivity].
  assert (In x (filter P l)) by (apply filter_In; auto).
  rewrite E in H. destruct H.
Qed.

Lemma with_exit_closed x ts :
  isInitialTimestamp ts = false ->
  has_no_exit (with_exit x ts) = false /\
  forall plate, is_open plate (with_exit x ts) = false.
Proof.
  intros H.
  assert (E : has_no_exit (with_exit x ts) = false).
  { unfold has_no_exit, with_exit, getExitTimestamp. cbn [exitTimestamp].
    rewrite copyTimestamp_eq. exact H. }
  split; [exact E|]. intros plate. unfold is_open.
  fold (has_no_exit (with_exit x ts)). rewrite E. apply andb_false_r.
Qed.

Lemma is_open_has_no_exit plate x : is_open plate x = true -> has_no_exit x = true.
Proof. unfold is_open. intros H. apply andb_prop in H as [_ H]. exact H. Qed.

Section ParkProperties.
Context {double : Type}.
Implicit Types park : Park double.

Lemma newPark_ok nm cap trf : park_ok (@newPark double nm cap trf).
Proof.
  split; [exact newHashtable_wf|]. split; [intros; simpl; lia|].
  change (open_count (logTable (@newPark double nm cap trf))) with 0.
  apply Z.add_0_r.
Qed.

Lemma plateInPark_true park p :
  plateInPark park p = true <->
  exists x, getPlateLastLogWithoutExit (logTable park) p = Some x.
Proof.
  unfold plateInPark, getTable.
  destruct (getPlateLastLogWithoutExit (logTable park) p) as [x|].
  - split; [eauto|reflexivity].
  - split; [discriminate|intros [x H]; discriminate].
Qed.

Lemma plateInPark_false park p :
  table_wf (logTable park) ->
  (plateInPark park p = false <->
   forall x, In x (all_logs (logTable park)) -> is_open p x = false).
Proof.
  intros Hwf. rewrite <- lookup_none by exact Hwf.
  unfold plateInPark, getTable.
  destruct (getPlateLastLogWithoutExit (logTable park) p);
    split; congruence.
Qed.

Lemma open_count_perm ht l :
  Permutation (all_logs ht) l ->
  open_count ht = Z.of_nat (length (filter has_no_exit l)).
Proof.
  intros P. unfold open_count. rewrite (filter_perm_length _ _ _ P).
  reflexivity.
Qed.

Lemma register_entry_ok park p ts :
  park_ok park -> plateInPark park p = false ->
  let park' := registerEntryExit park p ts in
  park_ok park' /\
  Permutation (all_logs (logTable park'))
    (entry_of p (name park) ts :: all_logs (logTable park)) /\
  availableSlots park' = availableSlots park - 1 /\
  plateInPark park' p = true.
Proof.
  intros (Hwf & H1 & Hc) Hout park'.
  assert (E : park' =
    {| name := name park; capacity := capacity park;
       availableSlots := availableSlots park - 1; tariff := tariff park;
       logTable := addLogToTable (logTable park)
                     (entry_of p (name park) ts) |}).
  { subst park'. unfold registerEntryExit. rewrite Hout. reflexivity. }
  rewrite E. clear E park'.
  set (r := entry_of p (name park) ts).
  pose proof (addLogToTable_wf _ r Hwf) as Hwf'.
  pose proof (addLogToTable_perm _ r Hwf) as P.
  assert (Hnone : forall x, In x (all_logs (logTable park)) ->
                            is_open p x = false)
    by (apply plateInPark_false; assumption).
  assert (Hr : is_open p r = true).
  { unfold is_open, r, entry_of, getLogPlate, getExitTimestamp.
    cbn [plate exitTimestamp]. rewrite String.eqb_refl. reflexivity. }
  assert (Hok : park_ok
    {| name := name park; capacity := capacity park;
       availableSlots := availableSlots park - 1; tariff := tariff park;
       logTable := addLogToTable (logTable park) r |}).
  { split; [exact Hwf'|]. cbn [logTable availableSlots capacity]. split.
    - intros q. rewrite (filter_perm_length _ _ _ P). cbn [filter].
      destruct (is_open q r) eqn:Eq; [|apply H1].
      assert (q = p).
      { apply is_open_plate in Eq. apply is_open_plate in Hr. congruence. }
      subst q. rewrite (filter_none _ _ Hnone). cbn [length]. lia.
    - rewrite (open_count_perm _ _ P). cbn [filter].
      rewrite (is_open_has_no_exit _ _ Hr). cbn [length].
      unfold open_count in Hc. lia. }
  split; [exact Hok|]. cbn [logTable availableSlots].
  split; [exact P|]. split; [reflexivity|].
  match goal with |- ?b = true => destruct b eqn:Ein end; [reflexivity|].
  pose proof (proj1 (plateInPark_false _ p (proj1 Hok)) Ein r) as Ho.
  cbn [logTable] in Ho. rewrite Ho in Hr; [discriminate|].
  apply (Permutation_in _ (Permutation_sym P)). left. reflexivity.
Qed.

Lemma register_exit_ok park p ts x :
  park_ok park ->
  getPlateLastLogWithoutExit (logTable park) p = Some x ->
  isInitialTimestamp ts = false ->
  let park' := registerEntryExit park p ts in
  park_ok park' /\
  (exists rest,
     Permutation (all_logs (logTable park)) (x :: rest) /\
     Permutation (all_logs (logTable park')) (with_exit x ts :: rest)) /\
  availableSlots park' = availableSlots park + 1 /\
  plateInPark park' p = false.
Proof.
  intros (Hwf & H1 & Hc) Hx Hts park'.
  assert (E : park' =
    {| name := name park; capacity := capacity park;
       availableSlots := availableSlots park + 1; tariff := tariff park;
       logTable := register_exit_time (logTable park) p ts |}).
  { subst park'. unfold registerEntryExit.
    rewrite (proj2 (plateInPark_true park p) (ex_intro _ x Hx)). reflexivity. }
  rewrite E. clear E park'.
  destruct (register_exit_spec _ p ts x Hwf Hx) as (rest & P & P' & Hwf').
  destruct (with_exit_closed x ts Hts) as (Hcl & Hclp).
  destruct (lookup_some _ _ _ Hwf Hx) as (_ & Hox).
  assert (Hrest : forall y, In y rest -> is_open p y = false).
  { intros y. apply filter_nil_none.
    pose proof (H1 p) as Hp. rewrite (filter_perm_length _ _ _ P) in Hp.
    simpl in Hp. rewrite Hox in Hp. simpl in Hp.
    destruct (filter (is_open p) rest); [reflexivity|simpl in Hp; lia]. }
  assert (Hok : park_ok
    {| name := name park; capacity := capacity park;
       availableSlots := availableSlots park + 1; tariff := tariff park;
       logTable := register_exit_time (logTable park) p ts |}).
  { split; [exact Hwf'|]. cbn [logTable availableSlots capacity]. split.
    - intros q. rewrite (filter_perm_length _ _ _ P'). simpl.
      rewrite Hclp. pose proof (H1 q) as Hq.
      rewrite (filter_perm_length _ _ _ P) in Hq. simpl in Hq.
      destruct (is_open q x); simpl in Hq; lia.
    - rewrite (open_count_perm _ _ P'). rewrite (open_count_perm _ _ P) in Hc.
      simpl in *. rewrite Hcl. rewrite (is_open_has_no_exit _ _ Hox) in Hc.
      cbn [length] in Hc. lia. }
  split; [exact Hok|]. cbn [logTable availableSlots].
  split; [exists rest; split; assumption|]. split; [reflexivity|].
  apply plateInPark_false; [exact (proj1 Hok)|]. cbn [logTable].
  intros y Hy. apply (Permutation_in _ P') in Hy.
  destruct Hy as [<-|Hy]; [apply Hclp|apply Hrest, Hy].
Qed.
End ParkProperties.

Section ParkTheorems.
Context {double : Type}.
Implicit Types park : Park double.

Lemma registerEntryExit_ok_aux park p ts :
  park_ok park -> isInitialTimestamp ts = false ->
  let park' := registerEntryExit park p ts in
  park_ok park' /\
  plateInPark park' p = negb (plateInPark park p) /\
  availableSlots park' =
    availableSlots park + (if plateInPark park p then 1 else -1) /\
  name park' = name park /\ capacity park' = capacity park /\
  tariff park' = tariff park.
Proof.
  intros Hok Hts park'.
  assert (Hf : name park' = name park /\ capacity park' = capacity park /\
               tariff park' = tariff park).
  { subst park'. unfold registerEntryExit.
    destruct (plateInPark park p); repeat split. }
  destruct (plateInPark park p) eqn:E.
  - apply plateInPark_true in E as [x Hx].
    destruct (register_exit_ok park p ts x Hok Hx Hts) as (H1 & _ & H3 & H4).
    fold park' in H1, H3, H4. rewrite H4.
    split; [exact H1|]. split; [reflexivity|]. split; [exact H3|exact Hf].
  - destruct (register_entry_ok park p ts Hok E) as (H1 & _ & H3 & H4).
    fold park' in H1, H3, H4. rewrite H4.
    split; [exact H1|]. split; [reflexivity|]. split; [lia|exact Hf].
Qed.

End ParkTheorems.

Section ParkList.
Context {double : Type}.
Variable double_of_int : Z -> double.
Variable dlt : double -> double -> bool.
Implicit Types park : Park double.
Implicit Types headPark next : list (Park double).
Implicit Types currentPark : Park double.

Lemma totalParks_from_length headPark : forall count,
  totalParks_from count headPark = count + Z.of_nat (length headPark).
Proof.
  induction headPark as [|x l IH]; intros count; simpl totalParks_from.
  - simpl. lia.
  - rewrite IH. cbn [length]. lia.
Qed.

Lemma totalParks_length headPark :
  totalParks headPark = Z.of_nat (length headPark).
Proof. unfold totalParks. rewrite totalParks_from_length. lia. Qed.

Lemma getPark_some headPark parkName park :
  getPark headPark parkName = Some park ->
  exists l1 l2, headPark = l1 ++ park :: l2 /\ name park = parkName /\
    forall x, In x l1 -> name x <> parkName.
Proof.
  induction headPark as [|x l IH]; simpl; [discriminate|].
  unfold getParkName. rewrite strcmp_eqb.
  destruct (String.eqb_spec parkName (name x)) as [E|E].
  - intros [= <-]. exists [], l. split; [reflexivity|]. split; [auto|].
    intros y [].
  - intros H. destruct (IH H) as (l1 & l2 & -> & Hn & Hl).
    exists (x :: l1), l2. split; [reflexivity|]. split; [exact Hn|].
    intros y [<-|Hy]; [congruence|apply Hl, Hy].
Qed.

Lemma getPark_none headPark parkName :
  getPark headPark parkName = None <->
  forall x, In x headPark -> name x <> parkName.
Proof.
  induction headPark as [|x l IH]; simpl.
  - split; [intros _ y []|reflexivity].
  - unfold getParkName. rewrite strcmp_eqb.
    destruct (String.eqb_spec parkName (name x)) as [E|E].
    + split; [discriminate|]. intros H. exfalso.
      apply (H x); [left; reflexivity|auto].
    + rewrite IH. split.
      * intros H y [<-|Hy]; [congruence|apply H, Hy].
      * intros H y Hy. apply H. right. exact Hy.
Qed.

Lemma getPark_app headPark l parkName :
  getPark (headPark ++ l) parkName =
  match getPark headPark parkName with
  | Some park => Some park
  | None => getPark l parkName
  end.
Proof.
  induction headPark as [|x h IH]; simpl; [reflexivity|].
  destruct (strcmp parkName (getParkName x) =? 0); [reflexivity|exact IH].
Qed.

Lemma set_next_of_last_park_app : forall headPark park,
  headPark <> [] -> set_next_of_last_park headPark park = headPark ++ [park].
Proof.
  intros l. induction l as [|x l IH]; intros park H; [contradiction|].
  destruct l as [|y l]; [reflexivity|].
  change (set_next_of_last_park (x :: y :: l) park)
    with (x :: set_next_of_last_park (y :: l) park).
  rewrite IH by discriminate. reflexivity.
Qed.

Lemma removePark_after_spec parkName : forall next currentPark,
  match getPark next parkName with
  | Some q =>
      exists l1 l2, next = l1 ++ q :: l2 /\
        (forall x, In x l1 -> name x <> parkName) /\
        removePark_after currentPark next parkName =
          (currentPark :: l1 ++ l2, true)
  | None =>
      removePark_after currentPark next parkName =
        (currentPark :: next, false)
  end.
Proof.
  induction next as [|y l IH]; intros c; simpl; [reflexivity|].
  unfold getParkName. rewrite !strcmp_eqb.
  rewrite (String.eqb_sym (name y) parkName).
  destruct (String.eqb_spec parkName (name y)) as [E|E].
  - exists [], l. split; [reflexivity|]. split; [intros x []|reflexivity].
  - specialize (IH y). destruct (getPark l parkName) as [q|].
    + destruct IH as (l1 & l2 & -> & Hl & ->).
      exists (y :: l1), l2. split; [reflexivity|]. split; [|reflexivity].
      intros x [<-|Hx]; [congruence|apply Hl, Hx].
    + rewrite IH. reflexivity.
Qed.

Lemma addPark_spec_aux headPark park :
  let accepted :=
    negb (existsb (fun x => String.eqb (name x) (name park)) headPark)
    && (capacity park >? 0)
    && validTariff double_of_int dlt (tariff park)
    && (Z.of_nat (length headPark) <? MAX_PARKS) in
  addPark double_of_int dlt headPark park =
  (if accepted then headPark ++ [park] else headPark, accepted).
Proof.
  intros accepted. subst accepted. unfold addPark.
  rewrite totalParks_length. unfold getCapacity, getTariff.
  destruct (getPark headPark (name park)) as [q|] eqn:G.
  - apply getPark_some in G as (l1 & l2 & -> & Hn & _).
    replace (existsb _ _) with true; [reflexivity|].
    symmetry. apply existsb_exists. exists q.
    split; [apply in_or_app; right; left; reflexivity|].
    apply String.eqb_eq, Hn.
  - replace (existsb _ _) with false.
    2:{ symmetry. apply not_true_is_false. intros H.
        apply existsb_exists in H as (x & Hx & E). apply String.eqb_eq in E.
        exact (proj1 (getPark_none _ _) G x Hx E). }
    cbn [negb andb].
    rewrite (Z.geb_leb), (Z.ltb_antisym).
    destruct (capacity park >? 0); cbn [negb orb andb]; [|reflexivity].
    destruct (validTariff _ _ _); cbn [negb orb andb]; [|reflexivity].
    destruct (MAX_PARKS <=? Z.of_nat (length headPark));
      cbn [negb]; [reflexivity|].
    destruct headPark as [|x l]; [reflexivity|].
    rewrite set_next_of_last_park_app by discriminate. reflexivity.
Qed.
End ParkList.

Lemma concat_map_single {A} (f : nat -> list A) k : forall n s,
  (s <= k < s + n)%nat ->
  (forall i, (s <= i < s + n)%nat -> i <> k -> f i = []) ->
  concat (map f (seq s n)) = f k.
Proof.
  induction n as [|n IH]; intros s Hk H; [lia|].
  cbn [seq map concat].
  destruct (Nat.eq_dec s k) as [->|Hs].
  - replace (concat (map f (seq (S k) n))) with (@nil A);
      [apply app_nil_r|].
    symmetry. apply concat_nil_Forall, Forall_forall.
    intros l Hl. apply in_map_iff in Hl as (i & <- & Hi).
    apply in_seq in Hi. apply H; lia.
  - rewrite (H s) by lia. apply IH; [lia|].
    intros i Hi. apply H. lia.
Qed.

Lemma filter_plate_chain ht p :
  table_wf ht ->
  filter (has_plate p) (all_logs ht) =
  filter (has_plate p) (chain_at ht (plateHash p (size ht))).
Proof.
  intros (Hs & L & C).
  rewrite <- (all_logs_chains ht L), <- concat_filter_map, map_map.
  pose proof (plateHash_range p (size ht) (proj1 Hs)) as R.
  rewrite (concat_map_single _ (Z.to_nat (plateHash p (size ht)))).
  - rewrite Z2Nat.id by lia. reflexivity.
  - lia.
  - intros i Hi Hne. apply filter_none. intros x Hx.
    unfold has_plate. apply String.eqb_neq. intros E.
    apply Hne. rewrite <- E.
    rewrite (C (Z.of_nat i) x); [symmetry; apply Nat2Z.id|lia|exact Hx].
Qed.

Lemma collect_plate_logs_spec p pn : forall chain plateLogs,
  collect_plate_logs p pn plateLogs chain =
  plateLogs ++ map (copy_for_result p pn) (filter (has_plate p) chain).
Proof.
  unfold collect_plate_logs.
  induction chain as [|x l IH]; intros acc; cbn [fold_left filter map].
  - symmetry. apply app_nil_r.
  - rewrite IH. rewrite strcmp_eqb. unfold has_plate.
    destruct (String.eqb (getLogPlate x) p); [|reflexivity].
    rewrite addLogtoLog_app, <- app_assoc. reflexivity.
Qed.

Lemma collect_exit_logs_spec ts pn : forall chain exitLog,
  collect_exit_logs ts pn exitLog chain =
  exitLog ++ map (fun log => copy_for_result (getLogPlate log) pn log)
                 (filter (billing_selects ts) chain).
Proof.
  unfold collect_exit_logs.
  induction chain as [|x l IH]; intros acc; cbn [fold_left filter map].
  - symmetry. apply app_nil_r.
  - rewrite IH. destruct (billing_selects ts x); [|reflexivity].
    rewrite addLogtoLog_app, <- app_assoc. reflexivity.
Qed.

Lemma copy_for_result_eq p pn log :
  copy_for_result p pn log =
  {| plate := p; parkName := pn;
     entryTimestamp := entryTimestamp log;
     exitTimestamp := exitTimestamp log |}.
Proof.
  unfold copy_for_result, copyLogTimestamps, newLog. cbn.
  rewrite ?copyTimestamp_eq. reflexivity.
Qed.

Section Reports.
Context {double : Type}.
Implicit Types park : Park double.
Implicit Types headPark : list (Park double).

Lemma getPlateLogs_unsorted headPark p :
  Forall (fun park => table_wf (logTable park)) headPark ->
  getPlateLogs headPark p =
  mergeSort "e"
    (flat_map (fun park =>
       map (copy_for_result p (name park))
         (filter (has_plate p) (all_logs (logTable park)))) headPark).
Proof.
  intros H. unfold getPlateLogs. f_equal.
  match goal with |- ?a = ?b => change (a = [] ++ b) end.
  generalize (@nil Log) as acc.
  induction H as [|park l Hp H IH]; intros acc;
    [symmetry; apply app_nil_r|].
  cbn [fold_left flat_map]. rewrite IH, app_assoc. f_equal.
  rewrite collect_plate_logs_spec. unfold getTable, getParkName.
  rewrite getSize_uint by apply Hp.
  rewrite (filter_plate_chain _ p Hp). reflexivity.
Qed.

Lemma showParkBilling_unsorted park ts :
  table_wf (logTable park) ->
  showParkBilling_exitLog park ts =
  mergeSort "s"
    (map (fun log => copy_for_result (getLogPlate log) (name park) log)
       (filter (billing_selects ts) (all_logs (logTable park)))).
Proof.
  intros (Hs & L & _). unfold showParkBilling_exitLog, getTable, getParkName.
  f_equal. rewrite getSize_uint by exact Hs.
  rewrite <- (all_logs_chains _ L), <- concat_filter_map, concat_map, !map_map.
  rewrite <- flat_map_concat_map.
  match goal with |- ?a = ?b => change (a = [] ++ b) end.
  generalize (@nil Log) as acc.
  induction (seq 0 (Z.to_nat (size (logTable park)))) as [|i l IH];
    intros acc; [symmetry; apply app_nil_r|].
  cbn [fold_left flat_map]. rewrite IH, app_assoc. f_equal.
  apply collect_exit_logs_spec.
Qed.
End Reports.

Lemma compareDate_same t1 t2 : compareDate t1 t2 = 0 <-> same_date t1 t2.
Proof.
  unfold compareDate, same_date.
  destruct (Z.eqb_spec (year t1) (year t2)); cbn [negb].
  2:{ split; [destruct (year t1 <? year t2); discriminate|tauto]. }
  destruct (Z.eqb_spec (month t1) (month t2)); cbn [negb].
  2:{ split; [destruct (month t1 <? month t2); discriminate|tauto]. }
  destruct (Z.eqb_spec (day t1) (day t2)); cbn [negb].
  2:{ split; [destruct (day t1 <? day t2); discriminate|tauto]. }
  tauto.
Qed.

Section Commands.
Context {double : Type}.
Implicit Types park : Park double.
Implicit Types sys : System double.

Lemma register_in_park_spec (l : list (Park double)) parkName plate ts :
  match getPark l parkName with
  | Some park =>
      exists l1 l2, l = l1 ++ park :: l2 /\ name park = parkName /\
        (forall x, In x l1 -> name x <> parkName) /\
        register_in_park l parkName plate ts =
          l1 ++ registerEntryExit park plate ts :: l2
  | None => register_in_park l parkName plate ts = l
  end.
Proof.
  induction l as [|x l IH]; cbn [getPark register_in_park]; [reflexivity|].
  unfold getParkName. rewrite strcmp_eqb.
  destruct (String.eqb_spec parkName (name x)) as [E|E].
  - exists [], l. split; [reflexivity|]. split; [auto|].
    split; [intros y []|reflexivity].
  - destruct (getPark l parkName) as [q|].
    + destruct IH as (l1 & l2 & -> & Hq & Hl & ->).
      exists (x :: l1), l2. split; [reflexivity|]. split; [exact Hq|].
      split; [|reflexivity].
      intros y [<-|Hy]; [congruence|apply Hl, Hy].
    + rewrite IH. reflexivity.
Qed.

Lemma plateInAnyPark_true (l : list (Park double)) plate :
  plateInAnyPark l plate = true <->
  exists park, In park l /\ plateInPark park plate = true.
Proof.
  induction l as [|x l IH]; cbn [plateInAnyPark].
  - split; [discriminate|intros (q & [] & _)].
  - destruct (plateInPark x plate) eqn:E.
    + split; [|reflexivity]. intros _. exists x. split; [left; reflexivity|exact E].
    + rewrite IH. split.
      * intros (q & Hq & Hp). exists q. split; [right; exact Hq|exact Hp].
      * intros (q & [<-|Hq] & Hp); [congruence|]. exists q. split; assumption.
Qed.

Lemma valid_inputs_spec sys command parkName plate ts :
  valid_inputs_commands_e_s sys command parkName plate ts = true ->
  exists park,
    getPark (headPark sys) parkName = Some park /\
    (command = "e"%char -> 0 < availableSlots park /\
       plateInAnyPark (headPark sys) plate = false) /\
    (command = "s"%char -> plateInAnyPark (headPark sys) plate = true) /\
    validPlate plate = true /\ validTimestamp ts = true /\
    compareTimestamps (lastTimestamp sys) ts <> 1.
Proof.
  unfold valid_inputs_commands_e_s, getAvailableSpots.
  destruct (getPark (headPark sys) parkName) as [park|]; [|discriminate].
  intros H. exists park. split; [reflexivity|].
  destruct (Ascii.eqb_spec command "e") as [Ee|Ee];
    destruct (Ascii.eqb_spec command "s") as [Es|Es];
    try (subst command; discriminate); cbn [andb] in H.
  - destruct (Z.leb_spec (availableSlots park) 0); [discriminate|].
    destruct (validPlate plate); [|discriminate]. cbn [negb] in H.
    destruct (plateInAnyPark (headPark sys) plate); [discriminate|].
    cbn [orb] in H.
    destruct (validTimestamp ts); [|discriminate]. cbn [negb orb] in H.
    destruct (Z.eqb_spec (compareTimestamps (lastTimestamp sys) ts) 1);
      [discriminate|].
    repeat split; auto; try congruence.
  - destruct (validPlate plate); [|discriminate]. cbn [negb] in H.
    destruct (plateInAnyPark (headPark sys) plate); [|discriminate].
    cbn [negb orb] in H.
    destruct (validTimestamp ts); [|discriminate]. cbn [negb orb] in H.
    destruct (Z.eqb_spec (compareTimestamps (lastTimestamp sys) ts) 1);
      [discriminate|].
    repeat split; auto; try congruence.
  - destruct (validPlate plate); [|discriminate]. cbn [negb orb] in H.
    destruct (validTimestamp ts); [|discriminate]. cbn [negb orb] in H.
    destruct (Z.eqb_spec (compareTimestamps (lastTimestamp sys) ts) 1);
      [discriminate|].
    repeat split; auto; try congruence.
Qed.

Lemma commands_e_s_accepted_aux sys command parkName plate ts :
  valid_inputs_commands_e_s sys command parkName plate ts = true ->
  exists l1 park l2,
    headPark sys = l1 ++ park :: l2 /\
    getPark (headPark sys) parkName = Some park /\
    (forall x, In x l1 -> name x <> parkName) /\
    commands_e_s sys command parkName plate ts =
      {| headPark := l1 ++ registerEntryExit park plate ts :: l2;
         lastTimestamp := ts |}.
Proof.
  intros V. destruct (valid_inputs_spec _ _ _ _ _ V) as (park & G & _).
  pose proof (register_in_park_spec (headPark sys) parkName plate ts) as R.
  rewrite G in R. destruct R as (l1 & l2 & E & _ & Hl & R).
  exists l1, park, l2. split; [exact E|]. split; [exact G|].
  split; [exact Hl|].
  unfold commands_e_s. rewrite V. cbn [negb].
  rewrite R, copyTimestamp_eq. reflexivity.
Qed.
End Commands.

Lemma Forall_park_ok_two_parks : Forall park_ok (headPark two_parks).
Proof.
  constructor; [apply newPark_ok|]. constructor; [|constructor].
  apply (registerEntryExit_ok_aux park_B "AA-00-00" (at_time 8 0));
    [apply newPark_ok|reflexivity].
Qed.

Lemma park_A_visited_ok : park_ok park_A_visited.
Proof.
  apply (registerEntryExit_ok_aux _ "AA-00-00" (at_time 9 0));
    [|reflexivity].
  apply (registerEntryExit_ok_aux park_A "AA-00-00" (at_time 8 0));
    [apply newPark_ok|reflexivity].
Qed.

Section SystemLemmas.
Context {double : Type}.
Variable double_of_int : Z -> double.
Variable dlt : double -> double -> bool.

Lemma addPark_parks_ok (l : list (Park double)) (park : Park double) :
  parks_ok l -> parks_ok (fst (addPark double_of_int dlt l park)).
Proof.
  intros (Hn & Hl). rewrite addPark_spec_aux. cbv zeta. cbn [fst].
  destruct (existsb (fun x => String.eqb (name x) (name park)) l) eqn:D;
    cbn [negb andb]; [split; assumption|].
  destruct (capacity park >? 0); cbn [andb]; [|split; assumption].
  destruct (validTariff double_of_int dlt (tariff park)); cbn [andb];
    [|split; assumption].
  destruct (Z.ltb_spec (Z.of_nat (length l)) MAX_PARKS) as [Hm|Hm];
    [|split; assumption].
  split.
  - rewrite map_app. cbn [map].
    apply NoDup_app; [exact Hn|repeat constructor; intros []|].
    intros a Ha [<-|[]]. apply in_map_iff in Ha as (x & Hx & Hin).
    assert (existsb (fun x => String.eqb (name x) (name park)) l = true);
      [|congruence].
    apply existsb_exists. exists x. split; [exact Hin|].
    apply String.eqb_eq, Hx.
  - rewrite length_app. cbn [length]. lia.
Qed.

Lemma addPark_In (l : list (Park double)) (park x : Park double) :
  In x (fst (addPark double_of_int dlt l park)) -> In x l \/ x = park.
Proof.
  rewrite addPark_spec_aux. cbv zeta. cbn [fst].
  match goal with |- context [if ?b then _ else _] => destruct b end;
    [|auto].
  intros H. apply in_app_or in H as [H|[H|[]]]; auto.
Qed.

Lemma removePark_spec_aux (l : list (Park double)) (parkName : string) :
  match getPark l parkName with
  | Some park =>
      exists l1 l2, l = l1 ++ park :: l2 /\ name park = parkName /\
        (forall x, In x l1 -> name x <> parkName) /\
        removePark l parkName = (l1 ++ l2, true)
  | None => removePark l parkName = (l, false)
  end.
Proof.
  unfold removePark.
  destruct (getPark l parkName) as [q|] eqn:G; [|reflexivity].
  destruct l as [|x l]; [discriminate|].
  cbn [getPark] in G. unfold getParkName in *.
  rewrite strcmp_eqb in *. rewrite (String.eqb_sym (name x) parkName).
  destruct (String.eqb_spec parkName (name x)) as [E|E].
  - injection G as <-. exists [], l.
    split; [reflexivity|]. split; [auto|]. split; [intros y []|reflexivity].
  - pose proof (removePark_after_spec parkName l x) as S.
    rewrite G in S. destruct S as (l1 & l2 & -> & Hl & ->).
    exists (x :: l1), l2. split; [reflexivity|].
    apply getPark_some in G as (l1' & l2' & _ & Hq & _).
    split; [exact Hq|]. split; [|reflexivity].
    intros y [<-|Hy]; [congruence|apply Hl, Hy].
Qed.

Lemma removePark_parks_ok (l : list (Park double)) (parkName : string) :
  parks_ok l ->
  parks_ok (fst (removePark l parkName)) /\
  forall x, In x (fst (removePark l parkName)) -> In x l.
Proof.
  intros (Hn & Hl). pose proof (removePark_spec_aux l parkName) as R.
  destruct (getPark l parkName) as [q|].
  - destruct R as (l1 & l2 & -> & _ & _ & ->). cbn [fst].
    rewrite map_app in Hn. cbn [map] in Hn. apply NoDup_remove_1 in Hn.
    rewrite length_app in Hl. cbn [length] in Hl.
    split; [split|].
    + rewrite map_app. exact Hn.
    + rewrite length_app. lia.
    + intros x Hx. apply in_app_or in Hx as [Hx|Hx]; apply in_or_app;
        [left|right; right]; exact Hx.
  - rewrite R. cbn [fst]. split; [split; assumption|auto].
Qed.
End SystemLemmas.

(** ** The bubble sort of [printParksAlphabetically] *)

Lemma name_le_refl a : name_le a a.
Proof. unfold name_le. rewrite (proj2 (strcmp_eq0 a a) eq_refl). lia. Qed.

Lemma name_le_cases a b :
  name_le a b <-> String.compare a b = Lt \/ a = b.
Proof.
  unfold name_le. rewrite <- strcmp_lt, <- strcmp_eq0.
  unfold strcmp. destruct (String.compare a b); lia.
Qed.

Lemma name_le_trans a b c : name_le a b -> name_le b c -> name_le a c.
Proof.
  rewrite !name_le_cases. intros [H1| ->] [H2| ->]; auto.
  left. exact (string_compare_lt_trans _ _ _ H1 H2).
Qed.

Lemma name_gt_le a b : strcmp a b > 0 -> name_le b a.
Proof.
  intros H. apply name_le_cases.
  destruct (string_compare_total b a) as [C|[C|C]]; auto.
  exfalso. apply strcmp_lt in C. lia.
Qed.

Lemma nth_app_length {A} (pre : list A) x post d :
  nth (length pre) (pre ++ x :: post) d = x.
Proof. rewrite app_nth2, Nat.sub_diag by lia. reflexivity. Qed.

Lemma store_app_length {A} (pre : list A) x y post :
  store (length pre) y (pre ++ x :: post) = pre ++ y :: post.
Proof. induction pre as [|z pre IH]; simpl; [reflexivity|]. rewrite IH. reflexivity. Qed.

Lemma bubble_step_at (pre : list string) a b post :
  bubble_step (pre ++ a :: b :: post) (length pre) =
  pre ++ (if strcmp a b >? 0 then b :: a :: post else a :: b :: post).
Proof.
  unfold bubble_step. rewrite nth_app_length.
  replace (length pre + 1)%nat with (length (pre ++ [a]))
    by (rewrite length_app; reflexivity).
  change (pre ++ a :: b :: post) with (pre ++ [a] ++ b :: post).
  rewrite app_assoc, (nth_app_length (pre ++ [a]) b post).
  destruct (strcmp a b >? 0); [|rewrite <- app_assoc; reflexivity].
  rewrite <- app_assoc. cbn [app]. rewrite store_app_length.
  change (pre ++ b :: b :: post) with (pre ++ [b] ++ b :: post).
  rewrite app_assoc.
  replace (length (pre ++ [a])) with (length (pre ++ [b]))
    by (rewrite !length_app; reflexivity).
  rewrite store_app_length, <- app_assoc. reflexivity.
Qed.

Lemma inner_loop_bubble : forall m pre a rest,
  (m <= length rest)%nat ->
  fold_left bubble_step (seq (length pre) m) (pre ++ a :: rest) =
  pre ++ bubble m a rest.
Proof.
  induction m as [|m IH]; intros pre a rest Hm; [destruct rest; reflexivity|].
  destruct rest as [|b rest]; [simpl in Hm; lia|].
  cbn [seq fold_left bubble]. rewrite bubble_step_at.
  replace (S (length pre)) with (length (pre ++ [b]))
    by (rewrite length_app; simpl; lia).
  destruct (strcmp a b >? 0).
  - change (pre ++ b :: a :: rest) with (pre ++ [b] ++ a :: rest).
    rewrite app_assoc, IH by (simpl in Hm; lia).
    rewrite <- app_assoc. reflexivity.
  - replace (length (pre ++ [b])) with (length (pre ++ [a]))
      by (rewrite !length_app; reflexivity).
    change (pre ++ a :: b :: rest) with (pre ++ [a] ++ b :: rest).
    rewrite app_assoc, IH by (simpl in Hm; lia).
    rewrite <- app_assoc. reflexivity.
Qed.

Lemma bubble_max : forall front a tail,
  exists init mx,
    bubble (length front) a (front ++ tail) = init ++ mx :: tail /\
    Permutation (init ++ [mx]) (a :: front) /\
    length init = length front /\
    forall x, In x init -> name_le x mx.
Proof.
  induction front as [|b front IH]; intros a tail.
  - exists [], a. split; [reflexivity|]. split; [reflexivity|].
    split; [reflexivity|intros x []].
  - cbn [length app bubble].
    destruct (Z.gtb_spec (strcmp a b) 0) as [G|G].
    + destruct (IH a tail) as (init & mx & E & P & L & M).
      exists (b :: init), mx. rewrite E.
      split; [reflexivity|]. split.
      { cbn [app]. rewrite P. apply perm_swap. }
      split; [simpl; lia|].
      intros x [<-|Hx]; [|apply M, Hx].
      apply (name_le_trans _ a); [apply name_gt_le; lia|].
      assert (Ha : In a (init ++ [mx]))
        by (apply (Permutation_in _ (Permutation_sym P)); left; reflexivity).
      apply in_app_or in Ha as [Ha|[<-|[]]];
        [apply M, Ha|apply name_le_refl].
    + destruct (IH b tail) as (init & mx & E & P & L & M).
      exists (a :: init), mx. rewrite E.
      split; [reflexivity|]. split.
      { cbn [app]. rewrite P. reflexivity. }
      split; [simpl; lia|].
      intros x [<-|Hx]; [|apply M, Hx].
      apply (name_le_trans _ b); [unfold name_le; lia|].
      assert (Hb : In b (init ++ [mx]))
        by (apply (Permutation_in _ (Permutation_sym P)); left; reflexivity).
      apply in_app_or in Hb as [Hb|[<-|[]]];
        [apply M, Hb|apply name_le_refl].
Qed.

Lemma outer_loop_sorted (names : list string) : forall k i arr,
  (i + k < length names)%nat ->
  passes_done names i arr ->
  passes_done names (i + k)
    (fold_left
       (fun parkNames i =>
          fold_left bubble_step
            (seq 0 (Z.to_nat (Z.of_nat (length names) - Z.of_nat i - 1)))
            parkNames)
       (seq i k) arr).
Proof.
  induction k as [|k IH]; intros i arr Hk Inv.
  - rewrite Nat.add_0_r. exact Inv.
  - cbn [seq fold_left]. replace (i + S k)%nat with (S i + k)%nat by lia.
    apply IH; [lia|]. clear IH.
    destruct Inv as (front & tail & -> & Lt & St & Hft & P).
    assert (Lf : (length front + i = length names)%nat).
    { rewrite <- (Permutation_length P), length_app. lia. }
    destruct front as [|a f]; [simpl in Lf; lia|].
    replace (Z.to_nat (Z.of_nat (length names) - Z.of_nat i - 1))
      with (length f) by (simpl in Lf; lia).
    pose proof (inner_loop_bubble (length f) [] a (f ++ tail)) as E.
    cbn [app length] in E. cbn [app]. rewrite E by (rewrite length_app; lia).
    destruct (bubble_max f a tail) as (init & mx & -> & Pm & Li & M).
    exists init, (mx :: tail).
    assert (Hin : forall x, In x (init ++ [mx]) -> In x (a :: f))
      by (intros x; apply Permutation_in, Pm).
    split; [reflexivity|]. split; [simpl; lia|]. split.
    { constructor; [exact St|]. apply Forall_forall. intros y Hy.
      apply Hft; [|exact Hy]. apply Hin, in_or_app. right. left. reflexivity. }
    split.
    { intros x y Hx [<-|Hy]; [apply M, Hx|].
      apply Hft; [|exact Hy]. apply Hin, in_or_app. left. exact Hx. }
    rewrite <- P.
    change (init ++ mx :: tail) with (init ++ [mx] ++ tail).
    rewrite app_assoc, Pm. reflexivity.
Qed.

Lemma passes_done_all (names arr : list string) :
  passes_done names (length names - 1) arr ->
  StronglySorted name_le arr /\ Permutation arr names.
Proof.
  intros (front & tail & -> & Lt & St & Hft & P). split; [|exact P].
  assert (Lf : (length front <= 1)%nat).
  { pose proof (Permutation_length P) as L. rewrite length_app in L. lia. }
  destruct front as [|a [|b f]]; [exact St| |simpl in Lf; lia].
  cbn [app]. constructor; [exact St|]. apply Forall_forall. intros y Hy.
  apply Hft; [left; reflexivity|exact Hy].
Qed.

(** ** The daily totals of [printFullBillLog] *)

Lemma compareDate_lt t1 t2 : compareDate t1 t2 = -1 <-> date_lt t1 t2.
Proof.
  unfold compareDate, date_lt.
  field_case year t1 t2; field_case month t1 t2; field_case day t1 t2. lia.
Qed.

Lemma compareDate_gt t1 t2 : compareDate t1 t2 = 1 <-> date_lt t2 t1.
Proof.
  unfold compareDate, date_lt.
  field_case year t1 t2; field_case month t1 t2; field_case day t1 t2. lia.
Qed.

Lemma compareDate_cases t1 t2 :
  date_lt t1 t2 \/ same_date t1 t2 \/ date_lt t2 t1.
Proof. unfold date_lt, same_date. lia. Qed.

Lemma exit_le_date a b :
  exit_le a b -> ~ date_lt (getExitTimestamp b) (getExitTimestamp a).
Proof.
  unfold exit_le. intros H D. apply H. apply compareDate_gt in D.
  unfold compareTimestamps. rewrite D. reflexivity.
Qed.

Lemma exit_on_true d x :
  exit_on d x = true <-> same_date (getExitTimestamp x) d.
Proof. unfold exit_on. rewrite Z.eqb_eq. apply compareDate_same. Qed.

Lemma exit_on_false d x :
  exit_on d x = false <-> ~ same_date (getExitTimestamp x) d.
Proof.
  rewrite <- exit_on_true. destruct (exit_on d x); split; congruence.
Qed.

Lemma sorted_snoc {A} (R : A -> A -> Prop) l z :
  StronglySorted R l -> Forall (fun x => R x z) l ->
  StronglySorted R (l ++ [z]).
Proof.
  induction 1 as [|a l S IH F]; intros H; cbn [app].
  - repeat constructor.
  - apply Forall_cons_iff in H as (Ha & H).
    constructor; [apply IH, H|].
    apply Forall_app. split; [exact F|]. constructor; [exact Ha|constructor].
Qed.

Lemma sorted_snoc_inv {A} (R : A -> A -> Prop) l z :
  StronglySorted R (l ++ [z]) ->
  StronglySorted R l /\ Forall (fun x => R x z) l.
Proof.
  intros H. apply StronglySorted_app_inv in H as (H1 & _ & H2).
  split; [exact H1|]. rewrite Forall_forall in *. intros x Hx.
  specialize (H2 x Hx). apply Forall_cons_iff in H2. apply H2.
Qed.

Section FullBill.
Context {double : Type}.
Variable double_of_int : Z -> double.
Variables dmul dadd : double -> double -> double.
Variable dlt : double -> double -> bool.
Variable tariff : Tariff double.

Lemma day_total_snoc d l x :
  day_total double_of_int dmul dadd dlt tariff d (l ++ [x]) =
  if exit_on d x
  then dadd (day_total double_of_int dmul dadd dlt tariff d l)
            (log_cost double_of_int dmul dadd dlt tariff x)
  else day_total double_of_int dmul dadd dlt tariff d l.
Proof.
  unfold day_total. rewrite filter_app. cbn [filter].
  destruct (exit_on d x); [|rewrite app_nil_r; reflexivity].
  rewrite map_app, fold_left_app. reflexivity.
Qed.

Lemma day_total_none d l :
  (forall y, In y l -> ~ same_date (getExitTimestamp y) d) ->
  day_total double_of_int dmul dadd dlt tariff d l = double_of_int 0.
Proof.
  intros H. unfold day_total. rewrite filter_none; [reflexivity|].
  intros y Hy. apply exit_on_false, H, Hy.
Qed.

Lemma full_bill_body_eq bill cur lines x :
  full_bill_body double_of_int dmul dadd dlt tariff (bill, cur, lines) x =
  if compareDate cur (getExitTimestamp x) =? 0
  then (dadd bill (log_cost double_of_int dmul dadd dlt tariff x), cur, lines)
  else (dadd (double_of_int 0) (log_cost double_of_int dmul dadd dlt tariff x),
        getExitTimestamp x, lines ++ [(cur, bill)]).
Proof.
  unfold full_bill_body, log_cost. cbv zeta.
  destruct (compareDate cur (getExitTimestamp x) =? 0); cbn [negb];
    rewrite ?copyTimestamp_eq; reflexivity.
Qed.

Lemma full_bill_inv (first : Log) : forall rest,
  StronglySorted exit_le (first :: rest) ->
  exists bill cur lines,
    fold_left (full_bill_body double_of_int dmul dadd dlt tariff)
      (first :: rest) (double_of_int 0, getExitTimestamp first, []) =
      (bill, cur, lines) /\
    StronglySorted date_lt (map fst lines ++ [cur]) /\
    (forall y, In y (first :: rest) -> ~ date_lt cur (getExitTimestamp y)) /\
    (forall line, In line (lines ++ [(cur, bill)]) ->
       (exists y, In y (first :: rest) /\
                  same_date (getExitTimestamp y) (fst line)) /\
       snd line =
         day_total double_of_int dmul dadd dlt tariff (fst line)
           (first :: rest)) /\
    (forall y, In y (first :: rest) ->
       exists line, In line (lines ++ [(cur, bill)]) /\
                    same_date (getExitTimestamp y) (fst line)).
Proof.
  intros rest. induction rest as [|x rest IH] using rev_ind; intros S.
  - cbn [fold_left]. rewrite full_bill_body_eq.
    rewrite (proj2 (compareDate_same _ _)) by (unfold same_date; auto).
    cbn [Z.eqb].
    eexists _, _, _. split; [reflexivity|].
    split; [repeat constructor|].
    split; [intros y [<-|[]]; unfold date_lt; lia|].
    split.
    + intros line [<-|[]]. cbn [fst snd]. split.
      * exists first. split; [left; reflexivity|unfold same_date; auto].
      * change [first] with ([] ++ [first]). rewrite day_total_snoc.
        rewrite (proj2 (exit_on_true _ _)) by (unfold same_date; auto).
        change (day_total double_of_int dmul dadd dlt tariff
                  (getExitTimestamp first) []) with (double_of_int 0).
        reflexivity.
    + intros y [<-|[]]. eexists. split; [left; reflexivity|].
      unfold same_date; auto.
  - change (first :: rest ++ [x]) with ((first :: rest) ++ [x]) in *.
    apply sorted_snoc_inv in S as (S & Hx).
    destruct (IH S) as (bill & cur & lines & E & Sd & Hmax & Hl & Hr).
    clear IH. rewrite fold_left_app, E. cbn [fold_left].
    rewrite full_bill_body_eq.
    assert (Hcur : exists y, In y (first :: rest) /\
                             same_date (getExitTimestamp y) cur).
    { apply (Hl (cur, bill)). apply in_or_app. right. left. reflexivity. }
    destruct Hcur as (yc & Hyc & Dyc).
    assert (Hnb : ~ date_lt (getExitTimestamp x) cur).
    { rewrite Forall_forall in Hx. pose proof (exit_le_date _ _ (Hx yc Hyc)).
      unfold date_lt, same_date in *. lia. }
    apply sorted_snoc_inv in Sd as (Sl & Hlt).
    rewrite Forall_forall in Hlt.
    destruct (Z.eqb_spec (compareDate cur (getExitTimestamp x)) 0) as [C|C].
    + apply compareDate_same in C.
      eexists _, _, _. split; [reflexivity|].
      split; [apply sorted_snoc; [exact Sl|apply Forall_forall, Hlt]|].
      split.
      { intros y Hy. apply in_app_or in Hy as [Hy|[<-|[]]];
          [apply Hmax, Hy|]. unfold date_lt, same_date in *. lia. }
      split.
      * intros line Hline. rewrite day_total_snoc.
        apply in_app_or in Hline as [Hline|[<-|[]]].
        -- assert (Hline' : In line (lines ++ [(cur, bill)]))
             by (apply in_or_app; left; exact Hline).
           destruct (Hl line Hline') as ((y & Hy & Dy) & T).
           split; [exists y; split; [apply in_or_app; left; exact Hy|exact Dy]|].
           rewrite (proj2 (exit_on_false _ _)); [exact T|].
           pose proof (Hlt (fst line) (in_map fst _ _ Hline)) as L.
           unfold date_lt, same_date in *. lia.
        -- cbn [fst snd]. split.
           ++ exists x. split; [apply in_or_app; right; left; reflexivity|].
              unfold same_date in *. lia.
           ++ rewrite (proj2 (exit_on_true _ _))
                by (unfold same_date in *; lia).
              assert (Hb : In (cur, bill) (lines ++ [(cur, bill)]))
                by (apply in_or_app; right; left; reflexivity).
              apply Hl in Hb as (_ & Hb).
              cbn [fst snd] in Hb. rewrite <- Hb. reflexivity.
      * intros y Hy. apply in_app_or in Hy as [Hy|[<-|[]]].
        -- destruct (Hr y Hy) as (line & Hline & D).
           apply in_app_or in Hline as [Hline|[<-|[]]].
           ++ exists line. split; [apply in_or_app; left; exact Hline|exact D].
           ++ eexists. split; [apply in_or_app; right; left; reflexivity|].
              exact D.
        -- eexists. split; [apply in_or_app; right; left; reflexivity|].
           cbn [fst]. unfold same_date in *. lia.
    + assert (Hlt' : date_lt cur (getExitTimestamp x)).
      { destruct (compareDate_cases cur (getExitTimestamp x))
          as [D|[D|D]]; [exact D| |contradiction].
        apply compareDate_same in D. contradiction. }
      assert (Hold : forall y, In y (first :: rest) ->
                ~ same_date (getExitTimestamp y) (getExitTimestamp x)).
      { intros y Hy D. pose proof (Hmax y Hy).
        unfold date_lt, same_date in *. lia. }
      eexists _, _, _. split; [reflexivity|].
      split.
      { rewrite map_app. cbn [map fst]. apply sorted_snoc.
        - apply sorted_snoc; [exact Sl|apply Forall_forall, Hlt].
        - apply Forall_forall. intros d Hd.
          apply in_app_or in Hd as [Hd|[<-|[]]]; [|exact Hlt'].
          pose proof (Hlt d Hd). unfold date_lt in *. lia. }
      split.
      { intros y Hy. apply in_app_or in Hy as [Hy|[<-|[]]];
          [|unfold date_lt; lia].
        pose proof (Hmax y Hy). unfold date_lt in *. lia. }
      split.
      * intros line Hline. rewrite day_total_snoc.
        apply in_app_or in Hline as [Hline|[<-|[]]].
        -- destruct (Hl line Hline) as ((y & Hy & Dy) & T).
           split; [exists y; split; [apply in_or_app; left; exact Hy|exact Dy]|].
           rewrite (proj2 (exit_on_false _ _)); [exact T|].
           intros D. apply (Hold y Hy). unfold same_date in *. lia.
        -- cbn [fst snd]. split.
           ++ exists x. split; [apply in_or_app; right; left; reflexivity|].
              unfold same_date. auto.
           ++ rewrite (proj2 (exit_on_true _ _)) by (unfold same_date; auto).
              rewrite (day_total_none _ _ Hold). reflexivity.
      * intros y Hy. apply in_app_or in Hy as [Hy|[<-|[]]].
        -- destruct (Hr y Hy) as (line & Hline & D).
           exists line. split; [apply in_or_app; left; exact Hline|exact D].
        -- eexists. split; [apply in_or_app; right; left; reflexivity|].
           unfold same_date. auto.
Qed.
End FullBill.

(** ** A park under entries and exits *)

(** X18.  [registerEntryExit] on a park that is in order, with a timestamp
    that is not the sentinel.  If the plate has an open record the call is
    an exit: that record gets the exit time, one place is freed and the
    plate is no longer inside.  Otherwise it is an entry: one open record
    of the plate, the park and the entry time is added, one place is taken
    and the plate is inside.  Nothing else changes and the park is in order
    again. *)
Theorem registerEntryExit_effect {double : Type} (park : Park double)
  (plate : string) (timestamp : Timestamp) :
  park_ok park -> isInitialTimestamp timestamp = false ->
  let park' := registerEntryExit park plate timestamp in
  park_ok park' /\
  name park' = name park /\ capacity park' = capacity park /\
  tariff park' = tariff park /\
  match getPlateLastLogWithoutExit (logTable park) plate with
  | Some log =>
      availableSlots park' = availableSlots park + 1 /\
      plateInPark park' plate = false /\
      exists rest,
        Permutation (all_logs (logTable park)) (log :: rest) /\
        Permutation (all_logs (logTable park'))
          ({| plate := plate; parkName := parkName log;
              entryTimestamp := entryTimestamp log;
              exitTimestamp := timestamp |} :: rest)
  | None =>
      availableSlots park' = availableSlots park - 1 /\
      plateInPark park' plate = true /\
      Permutation (all_logs (logTable park'))
        ({| plate := plate; parkName := name park;
            entryTimestamp := timestamp;
            exitTimestamp := INITIAL_TIMESTAMP |}
         :: all_logs (logTable park))
  end.
Proof.
  intros Hok Hts park'.
  destruct (registerEntryExit_ok_aux park plate timestamp Hok Hts)
    as (H1 & _ & _ & Hn & Hc & Ht).
  fold park' in H1, Hn, Hc, Ht.
  split; [exact H1|]. split; [exact Hn|]. split; [exact Hc|].
  split; [exact Ht|].
  destruct (getPlateLastLogWithoutExit (logTable park) plate) as [x|] eqn:G.
  - destruct (register_exit_ok park plate timestamp x Hok G Hts)
      as (_ & (rest & Pa & Pb) & A & O).
    fold park' in Pb, A, O. split; [exact A|]. split; [exact O|].
    exists rest. split; [exact Pa|].
    destruct (lookup_some _ _ _ (proj1 Hok) G) as (_ & Hox).
    apply is_open_plate in Hox.
    replace {| plate := plate; parkName := parkName x;
               entryTimestamp := entryTimestamp x;
               exitTimestamp := timestamp |}
      with (with_exit x timestamp); [exact Pb|].
    unfold with_exit. rewrite copyTimestamp_eq, Hox. reflexivity.
  - assert (Hout : plateInPark park plate = false)
      by (unfold plateInPark, getTable; rewrite G; reflexivity).
    destruct (register_entry_ok park plate timestamp Hok Hout)
      as (_ & P & A & I).
    fold park' in P, A, I. split; [exact A|]. split; [exact I|].
    unfold entry_of in P. rewrite copyTimestamp_eq in P. exact P.
Qed.

Lemma registerEntryExit_effect_witness :
  park_ok park_A /\ isInitialTimestamp (at_time 8 0) = false /\
  plateInPark (registerEntryExit park_A "AA-00-00" (at_time 8 0)) "AA-00-00"
    = true.
Proof.
  assert (Hok : park_ok park_A) by apply newPark_ok.
  assert (Hts : isInitialTimestamp (at_time 8 0) = false) by reflexivity.
  split; [exact Hok|]. split; [exact Hts|].
  pose proof (registerEntryExit_effect park_A "AA-00-00" (at_time 8 0)
                Hok Hts) as H.
  cbv zeta in H. destruct H as (_ & _ & _ & _ & H).
  change (getPlateLastLogWithoutExit (logTable park_A) "AA-00-00")
    with (@None Log) in H.
  exact (proj1 (proj2 H)).
Defined.

(** X19.  An entry followed by the exit of the same vehicle gives the park
    back its free places and leaves one closed record with the two
    timestamps; the records that were there are all kept. *)
Theorem entry_then_exit_round_trip {double : Type} (park : Park double)
  (plate : string) (entry exit : Timestamp) :
  park_ok park -> plateInPark park plate = false ->
  isInitialTimestamp exit = false ->
  let park' :=
    registerEntryExit (registerEntryExit park plate entry) plate exit in
  park_ok park' /\
  availableSlots park' = availableSlots park /\
  plateInPark park' plate = false /\
  Permutation (all_logs (logTable park'))
    ({| plate := plate; parkName := name park;
        entryTimestamp := entry; exitTimestamp := exit |}
     :: all_logs (logTable park)).
Proof.
  intros Hok Hout Hts park'.
  destruct (register_entry_ok park plate entry Hok Hout) as (Hok1 & P1 & A1 & In1).
  set (park1 := registerEntryExit park plate entry) in *.
  apply plateInPark_true in In1 as [x Hx].
  destruct (register_exit_ok park1 plate exit x Hok1 Hx Hts)
    as (Hok2 & (rest & Pa & Pb) & A2 & Out2).
  fold park' in Hok2, Pb, A2, Out2.
  split; [exact Hok2|]. split; [lia|]. split; [exact Out2|].
  destruct (lookup_some _ _ _ (proj1 Hok1) Hx) as (Hin & Hox).
  assert (Ex : x = entry_of plate (name park) entry).
  { apply (Permutation_in _ P1) in Hin. destruct Hin as [<-|Hin]; [reflexivity|].
    pose proof (proj1 (plateInPark_false park plate (proj1 Hok)) Hout x Hin) as C.
    rewrite C in Hox. discriminate. }
  subst x.
  assert (Pr : Permutation rest (all_logs (logTable park))).
  { apply (Permutation_cons_inv (a := entry_of plate (name park) entry)).
    rewrite <- Pa. exact P1. }
  rewrite Pb. 
  replace (with_exit (entry_of plate (name park) entry) exit)
    with {| plate := plate; parkName := name park;
            entryTimestamp := entry; exitTimestamp := exit |}.
  - constructor. exact Pr.
  - unfold with_exit, entry_of. cbn. rewrite !copyTimestamp_eq. reflexivity.
Qed.

Lemma entry_then_exit_round_trip_witness :
  park_ok park_A /\ plateInPark park_A "AA-00-00" = false /\
  isInitialTimestamp (at_time 9 0) = false /\
  availableSlots
    (registerEntryExit (registerEntryExit park_A "AA-00-00" (at_time 8 0))
       "AA-00-00" (at_time 9 0)) = availableSlots park_A.
Proof.
  assert (Hok : park_ok park_A) by apply newPark_ok.
  assert (Hout : plateInPark park_A "AA-00-00" = false) by reflexivity.
  assert (Hts : isInitialTimestamp (at_time 9 0) = false) by reflexivity.
  split; [exact Hok|]. split; [exact Hout|]. split; [exact Hts|].
  pose proof (entry_then_exit_round_trip park_A "AA-00-00" (at_time 8 0)
                (at_time 9 0) Hok Hout Hts) as H.
  cbv zeta in H. exact (proj1 (proj2 H)).
Defined.

(** X20.  Every park reached from [newPark] by calls of
    [registerEntryExit] with timestamps other than the sentinel is in
    order: its table is consistent with the hash, no plate has two open
    records, and the free places plus the open records are the capacity. *)
Theorem park_history_ok {double : Type} (parkName : string) (capacity : Z)
  (tariff : Tariff double) (events : list (string * Timestamp)) :
  Forall (fun e => isInitialTimestamp (snd e) = false) events ->
  park_ok
    (fold_left (fun park e => registerEntryExit park (fst e) (snd e))
       events (newPark parkName capacity tariff)).
Proof.
  intros H. generalize (newPark_ok parkName capacity tariff).
  generalize (newPark parkName capacity tariff) as park.
  induction H as [|e l He H IH]; intros park Hok; [exact Hok|].
  cbn [fold_left]. apply IH.
  apply (registerEntryExit_ok_aux park (fst e) (snd e) Hok He).
Qed.

Lemma park_history_ok_witness :
  park_ok
    (fold_left (fun park e => registerEntryExit park (fst e) (snd e))
       [("AA-00-00"%string, at_time 8 0); ("AA-00-00"%string, at_time 9 0)]
       park_A).
Proof.
  apply (park_history_ok "A" 1 tariff_1_2_3
           [("AA-00-00"%string, at_time 8 0);
            ("AA-00-00"%string, at_time 9 0)]).
  repeat constructor.
Defined.

(** ** The list of parks *)

(** X21.  [addPark] accepts a park exactly when no park has its name, its
    capacity is positive, its tariff is valid and there are fewer than
    [MAX_PARKS] parks; it then links the park after the last one, where
    [getPark] finds it.  A refused park leaves the list as it was.  Either
    way the names stay distinct and the parks at most [MAX_PARKS]. *)
Theorem addPark_accepts_valid_parks {double : Type}
  (double_of_int : Z -> double) (dlt : double -> double -> bool)
  (headPark : list (Park double)) (park : Park double) :
  parks_ok headPark ->
  let result := addPark double_of_int dlt headPark park in
  parks_ok (fst result) /\
  (snd result = true <->
   getPark headPark (name park) = None /\ 0 < capacity park /\
   validTariff double_of_int dlt (tariff park) = true /\
   Z.of_nat (length headPark) < MAX_PARKS) /\
  (snd result = true ->
   fst result = headPark ++ [park] /\
   getPark (fst result) (name park) = Some park) /\
  (snd result = false -> fst result = headPark).
Proof.
  intros (Hn & Hl) result. subst result.
  rewrite addPark_spec_aux. cbv zeta. cbn [fst snd].
  set (dup := existsb (fun x => String.eqb (name x) (name park)) headPark).
  assert (Hdup : dup = false <-> getPark headPark (name park) = None).
  { rewrite getPark_none. subst dup. split.
    - intros E x Hx Hname.
      assert (existsb (fun x => String.eqb (name x) (name park)) headPark
              = true); [|congruence].
      apply existsb_exists. exists x. split; [exact Hx|].
      apply String.eqb_eq, Hname.
    - intros H. apply not_true_is_false. intros E.
      apply existsb_exists in E as (x & Hx & E). apply String.eqb_eq in E.
      exact (H x Hx E). }
  destruct dup.
  - cbn [negb andb]. split; [split; assumption|].
    split; [|split; [discriminate|reflexivity]].
    split; [discriminate|]. intros (G & _).
    apply Hdup in G. discriminate.
  - pose proof (proj1 Hdup eq_refl) as G. cbn [negb andb].
    destruct (Z.gtb_spec (capacity park) 0) as [Hc|Hc]; cbn [andb].
    2:{ split; [split; assumption|].
        split; [|split; [discriminate|reflexivity]].
        split; [discriminate|]. intros (_ & C & _). lia. }
    destruct (validTariff double_of_int dlt (tariff park)) eqn:V;
      cbn [andb].
    2:{ split; [split; assumption|].
        split; [|split; [discriminate|reflexivity]].
        split; [discriminate|]. intros (_ & _ & C & _). discriminate. }
    destruct (Z.ltb_spec (Z.of_nat (length headPark)) MAX_PARKS) as [Hm|Hm].
    2:{ split; [split; assumption|].
        split; [|split; [discriminate|reflexivity]].
        split; [discriminate|]. intros (_ & _ & _ & C). lia. }
    split.
    { split.
      - rewrite map_app. cbn [map].
        apply NoDup_app; [exact Hn|repeat constructor; intros []|].
        intros a Ha [<-|[]]. apply in_map_iff in Ha as (x & Hx & Hin).
        exact (proj1 (getPark_none _ _) G x Hin Hx).
      - rewrite length_app. cbn [length]. lia. }
    split; [split; [intros _; repeat split; try assumption; lia|reflexivity]|].
    split; [|discriminate]. intros _. split; [reflexivity|].
    rewrite getPark_app, G. cbn [getPark]. unfold getParkName.
    rewrite strcmp_eqb, String.eqb_refl. reflexivity.
Qed.

Lemma addPark_accepts_valid_parks_witness :
  parks_ok [park_A] /\
  fst (addPark (fun z => z) Z.ltb [park_A] park_B) = [park_A; park_B].
Proof.
  assert (H : parks_ok [park_A]).
  { split; [repeat constructor; intros []|unfold MAX_PARKS; simpl; lia]. }
  split; [exact H|].
  pose proof (addPark_accepts_valid_parks (fun z => z) Z.ltb [park_A] park_B H)
    as T.
  cbv zeta in T. destruct T as (_ & _ & T & _).
  exact (proj1 (T eq_refl)).
Defined.

(** X22.  [removePark] unlinks the first park with the name and returns 1,
    or returns 0 and leaves the list alone when no park has the name.  The
    other parks keep their order and are still found by [getPark]; with
    distinct names the removed name is no longer found, and the names stay
    distinct. *)
Theorem removePark_unlinks_named_park {double : Type}
  (headPark : list (Park double)) (parkName : string) :
  NoDup (map name headPark) ->
  let result := removePark headPark parkName in
  match getPark headPark parkName with
  | Some park =>
      snd result = true /\
      exists l1 l2, headPark = l1 ++ park :: l2 /\ fst result = l1 ++ l2
  | None => snd result = false /\ fst result = headPark
  end /\
  getPark (fst result) parkName = None /\
  (forall other, other <> parkName ->
     getPark (fst result) other = getPark headPark other) /\
  NoDup (map name (fst result)).
Proof.
  intros Hn result.
  pose proof (removePark_spec_aux headPark parkName) as R.
  fold result in R.
  destruct (getPark headPark parkName) as [q|] eqn:G.
  - destruct R as (l1 & l2 & -> & Hq & Hl & ->). cbn [fst snd].
    split; [split; [reflexivity|exists l1, l2; split; reflexivity]|].
    rewrite map_app in Hn. cbn [map] in Hn.
    pose proof (NoDup_remove_1 _ _ _ Hn) as Hn1.
    pose proof (NoDup_remove_2 _ _ _ Hn) as Hn2.
    split; [|split].
    + apply getPark_none. intros x Hx Hname. apply Hn2.
      rewrite <- map_app. apply in_map_iff. exists x.
      split; [congruence|exact Hx].
    + intros other Ho. rewrite !getPark_app. cbn [getPark].
      unfold getParkName. rewrite strcmp_eqb.
      destruct (String.eqb_spec other (name q)); [congruence|reflexivity].
    + rewrite map_app. exact Hn1.
  - rewrite R. cbn [fst snd]. split; [split; reflexivity|].
    split; [exact G|]. split; [reflexivity|exact Hn].
Qed.

Lemma removePark_unlinks_named_park_witness :
  NoDup (map name [park_A; park_B]) /\
  getPark (fst (removePark [park_A; park_B] "B")) "B" = None.
Proof.
  assert (H : NoDup (map name [park_A; park_B])).
  { repeat constructor; simpl; [intros [E|[]]; discriminate|intros []]. }
  split; [exact H|].
  pose proof (removePark_unlinks_named_park [park_A; park_B] "B" H) as T.
  cbv zeta in T. exact (proj1 (proj2 T)).
Defined.

(** X23.  The names [printParksAlphabetically] prints are the names of the
    parks, each as often as it is in the list, in alphabetical order as
    [strcmp] gives it. *)
Theorem printParksAlphabetically_sorted {double : Type}
  (headPark : list (Park double)) :
  StronglySorted name_le (printParksAlphabetically headPark) /\
  Permutation (printParksAlphabetically headPark) (map name headPark).
Proof.
  unfold printParksAlphabetically. rewrite totalParks_length.
  change (map getParkName headPark) with (map name headPark).
  rewrite <- (length_map name headPark).
  set (names := map name headPark).
  destruct names as [|a names'] eqn:E.
  - split; [constructor|reflexivity].
  - rewrite <- E.
    replace (Z.to_nat (Z.of_nat (length names) - 1))
      with (length names - 1)%nat by lia.
    apply passes_done_all.
    apply (outer_loop_sorted names (length names - 1) 0 names).
    + rewrite E. simpl. lia.
    + exists names, []. split; [symmetry; apply app_nil_r|].
      split; [reflexivity|]. split; [constructor|].
      split; [intros x y _ []|reflexivity].
Qed.

(** ** The reports *)

(** X24.  [getPlateLogs] returns one record for each record of the plate in
    the tables of the parks, carrying the plate, the name of the park that
    holds it and the two timestamps of the stored record, and nothing
    else; the result is ordered by park name and, within a park, by entry
    time. *)
Theorem getPlateLogs_lists_the_plate {double : Type}
  (headPark : list (Park double)) (plate : string) :
  Forall (fun park => table_wf (logTable park)) headPark ->
  StronglySorted park_then_entry_le (getPlateLogs headPark plate) /\
  Permutation (getPlateLogs headPark plate)
    (flat_map
       (fun park =>
          map (reported plate (name park))
            (filter (has_plate plate) (all_logs (logTable park))))
       headPark).
Proof.
  intros H. rewrite (getPlateLogs_unsorted headPark plate H).
  split; [apply sorted_entry_key, mergeSort_sorted|].
  rewrite mergeSort_perm.
  apply Permutation_refl'. apply flat_map_ext. intros park.
  apply map_ext. intros log. apply copy_for_result_eq.
Qed.

Lemma getPlateLogs_lists_the_plate_witness :
  Forall (fun park => table_wf (logTable park)) [park_B; park_A_visited] /\
  Permutation (getPlateLogs [park_B; park_A_visited] "AA-00-00")
    [mkLog "AA-00-00" "A" (at_time 8 0) (at_time 9 0)].
Proof.
  assert (H : Forall (fun park : Park Z => table_wf (logTable park))
                [park_B; park_A_visited]).
  { constructor; [apply newHashtable_wf|].
    constructor; [apply park_A_visited_ok|constructor]. }
  split; [exact H|].
  exact (proj2 (getPlateLogs_lists_the_plate [park_B; park_A_visited]
                  "AA-00-00" H)).
Defined.

(** X25.  The chain that [showParkBilling] prints holds one record for each
    record of the park that has an exit time and, when a day is given,
    whose exit is on that day; each carries the plate and the timestamps of
    the stored record.  The chain is ordered by exit time. *)
Theorem showParkBilling_lists_the_exits {double : Type} (park : Park double)
  (timestamp : Timestamp) :
  table_wf (logTable park) ->
  let exitLog := showParkBilling_exitLog park timestamp in
  StronglySorted exit_le exitLog /\
  Permutation exitLog
    (map (fun log => reported (plate log) (name park) log)
       (filter (billing_selects timestamp) (all_logs (logTable park)))) /\
  (forall log, In log exitLog ->
     isInitialTimestamp (exitTimestamp log) = false /\
     (isInitialTimestamp timestamp = false ->
      same_date (exitTimestamp log) timestamp)).
Proof.
  intros Hwf exitLog. subst exitLog.
  rewrite (showParkBilling_unsorted park timestamp Hwf).
  set (selected := filter (billing_selects timestamp)
                     (all_logs (logTable park))).
  assert (E : map (fun log => copy_for_result (getLogPlate log) (name park) log)
                selected
              = map (fun log => reported (plate log) (name park) log) selected).
  { apply map_ext. intros log. apply copy_for_result_eq. }
  rewrite E. clear E.
  set (L := map (fun log => reported (plate log) (name park) log) selected).
  pose proof (mergeSort_perm "s" L) as P.
  split; [|split; [exact P|]].
  - apply (sorted_exit_key "s" (name park)); [discriminate| |].
    + rewrite Forall_forall. intros x Hx.
      apply (Permutation_in _ P) in Hx. subst L.
      apply in_map_iff in Hx as (y & <- & _). reflexivity.
    + apply mergeSort_sorted.
  - intros log Hl. apply (Permutation_in _ P) in Hl. subst L.
    apply in_map_iff in Hl as (y & <- & Hy). subst selected.
    apply filter_In in Hy as (_ & Hy). unfold billing_selects in Hy.
    cbv zeta in Hy. apply andb_prop in Hy as (H1 & H2).
    unfold reported, getExitTimestamp in *. cbn [exitTimestamp].
    split; [apply negb_true_iff, H1|].
    intros Hts. rewrite Hts in H2. cbn [orb] in H2.
    apply compareDate_same, Z.eqb_eq, H2.
Qed.

Lemma showParkBilling_lists_the_exits_witness :
  table_wf (logTable park_A_visited) /\
  Permutation (showParkBilling_exitLog park_A_visited (at_time 0 0))
    [mkLog "AA-00-00" "A" (at_time 8 0) (at_time 9 0)].
Proof.
  assert (H : table_wf (logTable park_A_visited))
    by apply park_A_visited_ok.
  split; [exact H|].
  pose proof (showParkBilling_lists_the_exits park_A_visited (at_time 0 0) H)
    as T.
  cbv zeta in T. exact (proj1 (proj2 T)).
Defined.

(** X26.  On a chain ordered by exit time, as [showParkBilling] passes it,
    [printFullBillLog] prints one line for each day on which a vehicle
    left, the days in ascending order; the amount of a line is the cost of
    the records that left on that day, added up in the order of the
    chain. *)
Theorem printFullBillLog_daily_totals {double : Type}
  (double_of_int : Z -> double) (dmul dadd : double -> double -> double)
  (dlt : double -> double -> bool) (tariff : Tariff double)
  (log : list Log) :
  StronglySorted exit_le log ->
  let lines := printFullBillLog double_of_int dmul dadd dlt log tariff in
  StronglySorted date_lt (map fst lines) /\
  (forall record, In record log ->
     exists line, In line lines /\
                  same_date (getExitTimestamp record) (fst line)) /\
  (forall line, In line lines ->
     (exists record, In record log /\
                     same_date (getExitTimestamp record) (fst line)) /\
     snd line =
       day_total double_of_int dmul dadd dlt tariff (fst line) log).
Proof.
  intros S lines. subst lines. destruct log as [|first rest].
  - split; [constructor|]. split; [intros r []|intros l []].
  - destruct (full_bill_inv double_of_int dmul dadd dlt tariff first rest S)
      as (bill & cur & lines & E & Sd & _ & Hl & Hr).
    unfold printFullBillLog. rewrite E.
    split; [rewrite map_app; exact Sd|]. split; [exact Hr|exact Hl].
Qed.

Lemma printFullBillLog_daily_totals_witness :
  StronglySorted exit_le [tie_1; tie_2] /\
  StronglySorted date_lt
    (map fst (printFullBillLog (fun z => z) Z.mul Z.add Z.ltb [tie_1; tie_2]
                tariff_1_2_3)).
Proof.
  assert (S : StronglySorted exit_le [tie_1; tie_2]).
  { repeat constructor. unfold exit_le. vm_compute. discriminate. }
  split; [exact S|].
  pose proof (printFullBillLog_daily_totals (fun z => z) Z.mul Z.add Z.ltb
                tariff_1_2_3 [tie_1; tie_2] S) as T.
  cbv zeta in T. exact (proj1 T).
Defined.

(** ** The commands 'e' and 's' *)

(** X27.  [commands_e_s] keeps every park in order, never changes the
    names or the capacities of the parks, and never moves the time of the
    last event backwards; a refused command changes nothing. *)
Theorem commands_e_s_keeps_parks_in_order {double : Type}
  (sys : System double) (command : ascii) (parkName plate : string)
  (timestamp : Timestamp) :
  Forall park_ok (headPark sys) ->
  let sys' := commands_e_s sys command parkName plate timestamp in
  Forall park_ok (headPark sys') /\
  map name (headPark sys') = map name (headPark sys) /\
  map capacity (headPark sys') = map capacity (headPark sys) /\
  compareTimestamps (lastTimestamp sys) (lastTimestamp sys') <> 1 /\
  (valid_inputs_commands_e_s sys command parkName plate timestamp = false ->
   sys' = sys).
Proof.
  intros Hok sys'.
  destruct (valid_inputs_commands_e_s sys command parkName plate timestamp)
    eqn:V.
  - destruct (commands_e_s_accepted_aux _ _ _ _ _ V)
      as (l1 & park & l2 & E & G & _ & R).
    destruct (valid_inputs_spec _ _ _ _ _ V) as (q & _ & _ & _ & _ & Vt & Vc).
    fold sys' in R. rewrite R. cbn [headPark lastTimestamp]. rewrite E in *.
    apply Forall_app in Hok as (Hok1 & Hok2).
    apply Forall_cons_iff in Hok2 as (Hp & Hok2).
    destruct (registerEntryExit_ok_aux park plate timestamp Hp
                (validTimestamp_not_initial _ Vt))
      as (Hp' & _ & _ & Hn & Hc & _).
    split; [apply Forall_app; split; [exact Hok1|]; constructor; assumption|].
    rewrite !map_app. cbn [map]. rewrite Hn, Hc.
    split; [reflexivity|]. split; [reflexivity|]. split; [exact Vc|].
    discriminate.
  - assert (E : sys' = sys) by (subst sys'; unfold commands_e_s; rewrite V;
                                reflexivity).
    rewrite E. split; [exact Hok|]. split; [reflexivity|].
    split; [reflexivity|]. split; [|reflexivity].
    rewrite (proj2 (compareTimestamps_eq _ _) eq_refl). discriminate.
Qed.

Lemma commands_e_s_keeps_parks_in_order_witness :
  Forall park_ok (headPark two_parks) /\
  Forall park_ok
    (headPark (commands_e_s two_parks "e" "A" "BB-11-11" (at_time 9 0))).
Proof.
  split; [exact Forall_park_ok_two_parks|].
  pose proof (commands_e_s_keeps_parks_in_order two_parks "e" "A" "BB-11-11"
                (at_time 9 0) Forall_park_ok_two_parks) as T.
  cbv zeta in T. exact (proj1 T).
Defined.

(** X28.  An accepted 'e' command registers the entry in the first park
    with the given name: the vehicle was in no park and is now inside that
    park, which had a free place and has one less, never fewer than none;
    the other parks are untouched and the time of the last event is the
    time of the command. *)
Theorem entry_command_takes_a_place {double : Type}
  (sys : System double) (parkName plate : string) (timestamp : Timestamp) :
  Forall park_ok (headPark sys) ->
  valid_inputs_commands_e_s sys "e" parkName plate timestamp = true ->
  let sys' := commands_e_s sys "e" parkName plate timestamp in
  exists l1 park park' l2,
    headPark sys = l1 ++ park :: l2 /\
    headPark sys' = l1 ++ park' :: l2 /\
    getPark (headPark sys) parkName = Some park /\
    getPark (headPark sys') parkName = Some park' /\
    plateInAnyPark (headPark sys) plate = false /\
    plateInPark park' plate = true /\
    availableSlots park' = availableSlots park - 1 /\
    0 <= availableSlots park' /\
    open_count (logTable park') <= capacity park' /\
    lastTimestamp sys' = timestamp.
Proof.
  intros Hok V sys'.
  destruct (commands_e_s_accepted_aux _ _ _ _ _ V)
    as (l1 & park & l2 & E & G & Hl & R).
  destruct (valid_inputs_spec _ _ _ _ _ V) as (q & Gq & He & _ & _ & Vt & _).
  rewrite G in Gq. injection Gq as <-.
  destruct (He eq_refl) as (Hfree & Hany).
  fold sys' in R. rewrite R. cbn [headPark lastTimestamp].
  exists l1, park, (registerEntryExit park plate timestamp), l2.
  assert (Hp : park_ok park).
  { rewrite Forall_forall in Hok. apply Hok. rewrite E.
    apply in_or_app. right. left. reflexivity. }
  assert (Hout : plateInPark park plate = false).
  { destruct (plateInPark park plate) eqn:I; [|reflexivity].
    rewrite <- Hany. symmetry. apply plateInAnyPark_true. exists park.
    split; [|exact I]. rewrite E. apply in_or_app. right. left. reflexivity. }
  destruct (register_entry_ok park plate timestamp Hp Hout)
    as (Hp' & _ & A & I).
  destruct (registerEntryExit_ok_aux park plate timestamp Hp
              (validTimestamp_not_initial _ Vt)) as (_ & _ & _ & Hn & _).
  split; [exact E|]. split; [reflexivity|]. split; [exact G|].
  split.
  { rewrite getPark_app.
    rewrite (proj2 (getPark_none l1 parkName) Hl). cbn [getPark].
    unfold getParkName. rewrite Hn, strcmp_eqb.
    apply getPark_some in G as (_ & _ & _ & Hname & _).
    rewrite Hname, String.eqb_refl. reflexivity. }
  split; [exact Hany|]. split; [exact I|]. split; [exact A|].
  split; [lia|]. split; [|reflexivity].
  destruct Hp' as (_ & _ & Hc). lia.
Qed.

Lemma entry_command_takes_a_place_witness :
  Forall park_ok (headPark two_parks) /\
  valid_inputs_commands_e_s two_parks "e" "A" "BB-11-11" (at_time 9 0)
    = true /\
  lastTimestamp (commands_e_s two_parks "e" "A" "BB-11-11" (at_time 9 0))
    = at_time 9 0.
Proof.
  assert (V : valid_inputs_commands_e_s two_parks "e" "A" "BB-11-11"
                (at_time 9 0) = true) by (vm_compute; reflexivity).
  split; [exact Forall_park_ok_two_parks|]. split; [exact V|].
  pose proof (entry_command_takes_a_place two_parks "A" "BB-11-11"
                (at_time 9 0) Forall_park_ok_two_parks V) as T.
  cbv zeta in T.
  destruct T as (l1 & park & park' & l2 & T).
  exact (proj2 (proj2 (proj2 (proj2 (proj2 (proj2 (proj2 (proj2 (proj2 T))))))))).
Defined.

(** X29.  An accepted 's' command looks only at the named park.  If the
    vehicle is inside it, its open record is closed and a place is freed,
    never more places than the capacity.  But the command is accepted as
    soon as the vehicle is inside some park: if it is not inside the named
    one, [registerEntryExit] records an entry there, without the test for a
    free place, and the vehicle is then inside one park more than before,
    at least two. *)
Theorem exit_command_looks_at_named_park {double : Type}
  (sys : System double) (parkName plate : string) (timestamp : Timestamp) :
  Forall park_ok (headPark sys) ->
  valid_inputs_commands_e_s sys "s" parkName plate timestamp = true ->
  let sys' := commands_e_s sys "s" parkName plate timestamp in
  exists l1 park park' l2,
    headPark sys = l1 ++ park :: l2 /\
    headPark sys' = l1 ++ park' :: l2 /\
    getPark (headPark sys) parkName = Some park /\
    lastTimestamp sys' = timestamp /\
    if plateInPark park plate
    then plateInPark park' plate = false /\
         availableSlots park' = availableSlots park + 1 /\
         availableSlots park' <= capacity park' /\
         S (inside_count plate (headPark sys'))
           = inside_count plate (headPark sys)
    else plateInPark park' plate = true /\
         availableSlots park' = availableSlots park - 1 /\
         inside_count plate (headPark sys')
           = S (inside_count plate (headPark sys)) /\
         (2 <= inside_count plate (headPark sys'))%nat.
Proof.
  intros Hok V sys'.
  destruct (commands_e_s_accepted_aux _ _ _ _ _ V)
    as (l1 & park & l2 & E & G & Hl & R).
  destruct (valid_inputs_spec _ _ _ _ _ V) as (q & Gq & _ & Hs & _ & Vt & _).
  specialize (Hs eq_refl).
  fold sys' in R. rewrite R. cbn [headPark lastTimestamp].
  exists l1, park, (registerEntryExit park plate timestamp), l2.
  assert (Hp : park_ok park).
  { rewrite Forall_forall in Hok. apply Hok. rewrite E.
    apply in_or_app. right. left. reflexivity. }
  destruct (registerEntryExit_ok_aux park plate timestamp Hp
              (validTimestamp_not_initial _ Vt))
    as (Hp' & I & A & _ & Hc & _).
  split; [exact E|]. split; [reflexivity|]. split; [exact G|].
  split; [reflexivity|].
  assert (Hpos : (1 <= inside_count plate (headPark sys))%nat).
  { apply plateInAnyPark_true in Hs as (x & Hx & Ix).
    unfold inside_count.
    assert (Hf : In x (filter (fun park => plateInPark park plate)
                         (headPark sys)))
      by (apply filter_In; split; assumption).
    destruct (filter _ (headPark sys)); [destruct Hf|simpl; lia]. }
  unfold inside_count in *. rewrite E in *.
  rewrite !filter_app, !length_app in *. cbn [filter] in *. rewrite I.
  destruct (plateInPark park plate); cbn [negb length] in *.
  - split; [reflexivity|]. split; [exact A|].
    split; [|lia].
    destruct Hp' as (_ & _ & Hc'). unfold open_count in Hc'. lia.
  - split; [reflexivity|]. split; [lia|]. split; lia.
Qed.

Lemma exit_command_looks_at_named_park_witness :
  Forall park_ok (headPark two_parks) /\
  valid_inputs_commands_e_s two_parks "s" "A" "AA-00-00" (at_time 9 0)
    = true /\
  lastTimestamp (commands_e_s two_parks "s" "A" "AA-00-00" (at_time 9 0))
    = at_time 9 0.
Proof.
  assert (V : valid_inputs_commands_e_s two_parks "s" "A" "AA-00-00"
                (at_time 9 0) = true) by (vm_compute; reflexivity).
  split; [exact Forall_park_ok_two_parks|]. split; [exact V|].
  pose proof (exit_command_looks_at_named_park two_parks "A" "AA-00-00"
                (at_time 9 0) Forall_park_ok_two_parks V) as T.
  cbv zeta in T.
  destruct T as (l1 & park & park' & l2 & T).
  exact (proj1 (proj2 (proj2 (proj2 T)))).
Defined.

(** ** Every reachable state *)

(** X30.  Whatever commands are given, from the start of [main] on: every
    park is in order, no two parks share a name, there are at most
    [MAX_PARKS] parks, and the time of the last event is either still unset
    or a valid timestamp. *)
Theorem every_reachable_state_is_in_order {double : Type}
  (double_of_int : Z -> double) (dlt : double -> double -> bool)
  (commands : list (Command double)) :
  let sys := run_commands double_of_int dlt commands in
  Forall park_ok (headPark sys) /\
  parks_ok (headPark sys) /\
  (lastTimestamp sys = INITIAL_TIMESTAMP \/
   validTimestamp (lastTimestamp sys) = true).
Proof.
  unfold run_commands.
  assert (H0 : Forall park_ok (headPark (@initial_system double)) /\
               parks_ok (headPark (@initial_system double)) /\
               (lastTimestamp (@initial_system double) = INITIAL_TIMESTAMP \/
                validTimestamp (lastTimestamp (@initial_system double))
                  = true)).
  { split; [constructor|]. split; [|left; reflexivity].
    split; [constructor|unfold MAX_PARKS; simpl; lia]. }
  revert H0. generalize (@initial_system double) as sys.
  induction commands as [|c l IH]; intros sys H; [exact H|].
  cbn [fold_left]. apply IH. clear IH.
  destruct H as (Hok & Hp & Ht).
  destruct c as [parkName capacity v1 v2 v3|command parkName plate ts|parkName];
    cbn [run_command].
  - unfold command_p. cbn [headPark lastTimestamp].
    split; [|split; [apply addPark_parks_ok, Hp|exact Ht]].
    rewrite Forall_forall in *. intros x Hx.
    apply addPark_In in Hx. destruct Hx as [Hx|Hx];
      [apply Hok, Hx|rewrite Hx; apply newPark_ok].
  - destruct (valid_inputs_commands_e_s sys command parkName plate ts) eqn:V.
    + destruct (commands_e_s_accepted_aux _ _ _ _ _ V)
        as (l1 & park & l2 & E & G & _ & R).
      destruct (valid_inputs_spec _ _ _ _ _ V) as (q & _ & _ & _ & _ & Vt & _).
      rewrite R. cbn [headPark lastTimestamp]. rewrite E in *.
      apply Forall_app in Hok as (Hok1 & Hok2).
      apply Forall_cons_iff in Hok2 as (Hq & Hok2).
      destruct (registerEntryExit_ok_aux park plate ts Hq
                  (validTimestamp_not_initial _ Vt))
        as (Hq' & _ & _ & Hn & _).
      split; [apply Forall_app; split; [exact Hok1|]; constructor; assumption|].
      split; [|right; exact Vt].
      unfold parks_ok in *. rewrite !map_app, !length_app in *.
      cbn [map length] in *. rewrite Hn. exact Hp.
    + unfold commands_e_s. rewrite V. cbn [negb].
      split; [exact Hok|]. split; assumption.
  - unfold command_r. cbn [headPark lastTimestamp].
    destruct (removePark_parks_ok (headPark sys) parkName Hp) as (Hp' & Hin).
    split; [|split; [exact Hp'|exact Ht]].
    rewrite Forall_forall in *. intros x Hx. apply Hok, Hin, Hx.
Qed.
